(** * Data-Structures: the hash table, its chains, its arrays and its hash

    A shallow embedding of the C++ sources
      - [Algorithms/MurmurHashingAlgorithm.c++]
      - [Array.c++], [DynamicArray.c++], [List.c++]
      - [Node.c++], [LinkedList.c++]
      - [HashTable.c++]
    and the properties of the specification that concern them.

    Conventions of the embedding (LP64 target):
      - [long] is a 64-bit two's complement integer, [size_t] a 64-bit
        unsigned one, [short] a 16-bit two's complement one.  They are
        carried by [Z]; every place where the C++ value is reduced to its
        width is written out with [to_long], [to_size_t] or [to_short].
      - lengths and element counters ([count], [length], loop indices) are
        carried without reduction: a container cannot hold 2^31 nodes or
        2^64 slots before memory runs out.
      - a pointer to a node is an index into the store of the list that
        constructed it; [nullptr] is [None].
      - an operation has one of four outcomes: it returns, it throws a C++
        exception, it has no defined behaviour (division by zero, null
        dereference), or it does not finish.
      - the arrays that a constructor allocates for a capacity given by
        its caller are allocated by [new T[length]], which fails when
        [length] is more than the machine provides.  That limit is the
        parameter [max_length] of the constructor: the allocations of a
        constructor succeed when each is of at most [max_length]
        elements, and the first longer one throws.  The 200 slots of a
        default-constructed container, and the arrays and nodes allocated
        while a container is in use, are taken to be within the limit. *)

From Stdlib Require Import ZArith String Ascii List Lia DecimalString QArith Bool.
From stdpp Require Import base list.

Local Open Scope Z_scope.

(** ** Machine integers *)

Definition LONG_MAX : Z := 2 ^ 63 - 1.
Definition SIZE_MAX : Z := 2 ^ 64 - 1.

(** Conversion to [long]: reduction modulo 2^64 into [-2^63, 2^63). *)
Definition to_long (z : Z) : Z := (z + 2 ^ 63) mod 2 ^ 64 - 2 ^ 63.

(** Conversion to [size_t]: reduction modulo 2^64 into [0, 2^64). *)
Definition to_size_t (z : Z) : Z := z mod 2 ^ 64.

(** Conversion to [short]: reduction modulo 2^16 into [-2^15, 2^15). *)
Definition to_short (z : Z) : Z := (z + 2 ^ 15) mod 2 ^ 16 - 2 ^ 15.

(** [std::to_string] on an integer: its decimal text, with a leading minus
    sign for a negative number. *)
Definition to_string (z : Z) : string := NilZero.string_of_int (Z.to_int z).

(** ** Outcomes of an operation

    An operation runs on a state [S] (the object it is called on).  It
    returns a result, or throws an exception, in both cases leaving a
    state behind; or its behaviour is undefined; or it does not finish. *)

(** [bad_alloc] is [std::bad_alloc] or [std::bad_array_new_length], which
    derives from it. *)
Inductive exception : Type :=
| out_of_range (what : string)
| logic_error (what : string)
| bad_alloc.

Inductive outcome (S A : Type) : Type :=
| Returns (a : A) (s : S)
| Throws (e : exception) (s : S)
| Undefined
| Diverges.
Arguments Returns {S A} a s.
Arguments Throws {S A} e s.
Arguments Undefined {S A}.
Arguments Diverges {S A}.

Definition M (S A : Type) : Type := S -> outcome S A.

Definition ret {S A : Type} (a : A) : M S A := fun s => Returns a s.

Definition bind {S A B : Type} (m : M S A) (k : A -> M S B) : M S B :=
  fun s =>
    match m s with
    | Returns a s' => k a s'
    | Throws e s' => Throws e s'
    | Undefined => Undefined
    | Diverges => Diverges
    end.

Definition throw {S A : Type} (e : exception) : M S A := fun s => Throws e s.
Definition undefined {S A : Type} : M S A := fun _ => Undefined.
Definition diverge {S A : Type} : M S A := fun _ => Diverges.
Definition get_state {S : Type} : M S S := fun s => Returns s s.
Definition put_state {S : Type} (s : S) : M S unit := fun _ => Returns tt s.

(** [try { m } catch (...) { handler }] *)
Definition try_catch_all {S A : Type} (m : M S A) (handler : M S A) : M S A :=
  fun s =>
    match m s with
    | Throws _ s' => handler s'
    | r => r
    end.

Declare Scope outcome_scope.
Delimit Scope outcome_scope with outcome.
Notation "x <- m ;; k" := (bind m (fun x => k))
  (at level 100, m at next level, right associativity) : outcome_scope.
Local Open Scope outcome_scope.

(** A loop over the elements of a list, in order: a range-[for], or a
    counting [for] whose bounds the body does not change. *)
Fixpoint for_each {St A : Type} (l : list A) (body : A -> M St unit) : M St unit :=
  match l with
  | [] => ret tt
  | a :: rest => _ <- body a;; for_each rest body
  end.

(** ** Algorithms/MurmurHashingAlgorithm.c++ *)

Module Murmur.

Definition BASE : Z := 2.

(** The [while (value)] loop of [ToBinary].  C++ [%] and [/] truncate
    towards zero ([Z.rem], [Z.quot]). *)
Fixpoint ToBinary_loop (fuel : nat) (value : Z) (binaryValue : string) : string :=
  match fuel with
  | O => binaryValue
  | S fuel' =>
      if value =? 0 then binaryValue
      else ToBinary_loop fuel' (Z.quot value BASE)
             (to_string (Z.rem value BASE) ++ binaryValue)
  end.

(** The loop halves [value] until it is zero: one round per binary digit
    of its magnitude, which is the fuel given here. *)
Definition ToBinary (value : Z) : string :=
  ToBinary_loop (S (Z.to_nat (Z.log2 (Z.abs value)))) value "".

Definition char_code (s : string) (i : nat) : Z :=
  match String.get i s with
  | Some c => Z.of_nat (nat_of_ascii c)
  | None => 0
  end.

Definition ToDecimal (value : string) : Z :=
  fold_left
    (fun decimalValue i =>
       decimalValue
       + (char_code value i - Z.of_nat (nat_of_ascii "0"))
         * 2 ^ Z.of_nat (String.length value - i - 1))
    (seq 0 (String.length value)) 0.

Definition BIT_COUNT_IN_BYTE : nat := 4.

(** [Array<short> ToByteArray(const long&)]: the binary text is cut from
    the left into pieces of [BIT_COUNT_IN_BYTE] characters (the last one
    may be shorter) and each piece is read back as a number into a
    [short] slot. *)
Definition ToByteArray (value : Z) : list Z :=
  let binaryValue := ToBinary value in
  let byteCount :=
    Z.to_nat (to_short
      (Z.of_nat ((String.length binaryValue + (BIT_COUNT_IN_BYTE - 1))
                 / BIT_COUNT_IN_BYTE)%nat)) in
  let bytes := replicate byteCount 0 in
  fold_left
    (fun bytes i =>
       let byteChunk :=
         String.substring (i * BIT_COUNT_IN_BYTE) BIT_COUNT_IN_BYTE binaryValue in
       <[ i := to_short (ToDecimal byteChunk) ]> bytes)
    (seq 0 byteCount) bytes.

Definition PRIME : Z := 2003.
Definition SHIFTING_RATE : Z := 24.

(** One round of the range-for loop: [byte] is a reference to the
    [short] slot [bytes[i]], so each of its three assignments is reduced
    to 16 bits; [hashValue] is a [long]. *)
Definition round (state : Z * list Z) (i : nat) : Z * list Z :=
  let '(hashValue, bytes) := state in
  let byte := bytes !!! i in
  let byte := to_short (Z.land (byte * PRIME) LONG_MAX) in
  let byte := to_short (Z.lxor byte (Z.shiftr byte SHIFTING_RATE)) in
  let byte := to_short (Z.land (byte * PRIME) LONG_MAX) in
  let hashValue := Z.land (to_long (hashValue * PRIME)) LONG_MAX in
  let hashValue := Z.lxor hashValue byte in
  (hashValue, <[ i := byte ]> bytes).

Definition MurmurHashingAlgorithm (rawHashing seed : Z) : Z :=
  let hashValue :=
    to_long (Z.lxor seed (Z.of_nat (String.length (to_string rawHashing)))) in
  let bytes := ToByteArray rawHashing in
  let '(hashValue, _) :=
    fold_left round (seq 0 (length bytes)) (hashValue, bytes) in
  let hashValue := Z.lxor hashValue (Z.shiftr hashValue SHIFTING_RATE) in
  let hashValue := Z.land (to_long (hashValue * PRIME)) LONG_MAX in
  let hashValue := Z.lxor hashValue (Z.shiftr hashValue SHIFTING_RATE) in
  hashValue.

(** *** The computation the specification describes

    The binary representation of the raw value, most significant bit
    first, cut into groups of four bits; each group is a digit. *)

Fixpoint bits_of_positive (p : positive) : list bool :=
  match p with
  | xH => [true]
  | xO q => bits_of_positive q ++ [false]
  | xI q => bits_of_positive q ++ [true]
  end.

Definition binary_representation (rawValue : Z) : list bool :=
  match rawValue with
  | Zpos p => bits_of_positive p
  | _ => []
  end.

Fixpoint four_bit_groups (bits : list bool) : list (list bool) :=
  match bits with
  | [] => []
  | b3 :: b2 :: b1 :: b0 :: rest => [b3; b2; b1; b0] :: four_bit_groups rest
  | last_group => [last_group]
  end.

Definition group_value (group : list bool) : Z :=
  fold_left (fun acc (b : bool) => 2 * acc + Z.b2z b) group 0.

Definition digits (rawValue : Z) : list Z :=
  map group_value (four_bit_groups (binary_representation rawValue)).

(** Mixing of one digit (in its 16-bit slot) and folding it in. *)
Definition mix_digit (digit : Z) : Z :=
  let d := to_short ((digit * PRIME) mod 2 ^ 63) in
  let d := to_short (Z.lxor d (Z.shiftr d SHIFTING_RATE)) in
  to_short ((d * PRIME) mod 2 ^ 63).

Definition fold_digit (acc digit : Z) : Z :=
  Z.lxor ((acc * PRIME) mod 2 ^ 63) (mix_digit digit).

Definition avalanche (acc : Z) : Z :=
  let acc := Z.lxor acc (Z.shiftr acc SHIFTING_RATE) in
  let acc := (acc * PRIME) mod 2 ^ 63 in
  Z.lxor acc (Z.shiftr acc SHIFTING_RATE).

(** As the specification states it: the accumulator starts from the seed
    XOR the number of 4-bit digits. *)
Definition Hash_seeded_by_digit_count (rawValue seed : Z) : Z :=
  let ds := digits rawValue in
  avalanche (fold_left fold_digit ds (Z.lxor seed (Z.of_nat (length ds)))).

(** The number of characters of the decimal text of the raw value. *)
Definition decimal_length (rawValue : Z) : Z :=
  Z.of_nat (String.length (to_string rawValue)).

Definition Hash_seeded_by_decimal_length (rawValue seed : Z) : Z :=
  avalanche (fold_left fold_digit (digits rawValue)
               (to_long (Z.lxor seed (decimal_length rawValue)))).

(** The text of a sequence of bits. *)
Definition bit_char (b : bool) : ascii := if b then "1"%char else "0"%char.

Fixpoint bits_text (bits : list bool) : string :=
  match bits with
  | [] => EmptyString
  | b :: rest => String (bit_char b) (bits_text rest)
  end.

End Murmur.

(** ** Array.c++

    An [Array<T>] is its [data]; [length] is the length of the list. *)

Module Array.
Section Array.
Context {T : Type}.

(** What [new T[length]] leaves in a slot: the default-constructed [T]
    for a class type; for a scalar type, whatever the slot holds. *)
Variable fresh : T.

(** The array that [explicit Array(const size_t &length)] leaves when
    its [new T[length]] has returned. *)
Definition create (length : nat) : list T := replicate length fresh.

(** [explicit Array(const size_t &length)] with the outcome of its
    [new T[length]]: the machine provides arrays of up to [max_length]
    elements of [T]; asked for more, the expression throws
    [std::bad_array_new_length] (the size in bytes is beyond what an
    object may have) or [std::bad_alloc] (the memory is not there). *)
Definition new_array {S : Type} (max_length length : Z) : M S (list T) :=
  if max_length <? length then throw bad_alloc
  else ret (create (Z.to_nat length)).

Definition ValidateBoundaries {S : Type} (this : list T) (index : Z) : M S unit :=
  if index <? Z.of_nat (length this) then ret tt
  else throw (out_of_range
         ("The index [" ++ to_string index ++ "] is out of the range of the Array.")).

(** [operator[]], read *)
Definition at_index {S : Type} (this : list T) (index : Z) : M S T :=
  _ <- ValidateBoundaries this index;;
  match this !! Z.to_nat index with
  | Some x => ret x
  | None => undefined
  end.

(** [operator[]], write *)
Definition assign {S : Type} (this : list T) (index : Z) (x : T) : M S (list T) :=
  _ <- ValidateBoundaries this index;;
  ret (<[ Z.to_nat index := x ]> this).

(** [Array<T> Resize(const size_t &length) const] *)
Definition Resize (this : list T) (length : nat) : list T :=
  let resizedArray := create length in
  fold_left
    (fun resizedArray i =>
       match this !! i with
       | Some x => <[ i := x ]> resizedArray
       | None => resizedArray
       end)
    (seq 0 (Nat.min (List.length this) length)) resizedArray.

(** [Array<T> Resize(const size_t &length, const T &defaultValue) const].
    In its body the name [length] is the parameter, which hides the
    member of the same name: both sides of its comparison and both
    bounds of its loop are the parameter. *)
Definition Resize_with_default (this : list T) (length : nat) (defaultValue : T)
  : list T :=
  let resizedArray := Resize this length in
  if (length <=? length)%nat then resizedArray
  else
    fold_left (fun resizedArray i => <[ i := defaultValue ]> resizedArray)
      (seq length (length - length)) resizedArray.

End Array.

(** *** Searching and reversing

    The public members search the whole array; each forwards to the
    private overload that stops at [end] (named [..._to] here), which the
    derived containers call with their element count. *)

Section Search.
Context {T : Type}.

(** [data[index]], the unchecked access: defined inside the allocation
    only. *)
Definition data {St : Type} (this : list T) (index : Z) : M St T :=
  if (0 <=? index) && (index <? Z.of_nat (length this)) then
    match this !! Z.to_nat index with
    | Some element => ret element
    | None => undefined
    end
  else undefined.

(** [std::min(length, end)] *)
Definition bound (this : list T) (end_ : Z) : Z :=
  Z.min (Z.of_nat (length this)) end_.

(** The indices [first, first + 1, ..., last - 1] that a counting loop
    [for (size_t i = first; i < last; i++)] passes. *)
Definition indices_from (first last : Z) : list Z := seqZ first (last - first).

(** The loop of [First], over the indices left to pass. *)
Fixpoint First_loop {St : Type} (this : list T) (predicate : T -> bool)
    (indices : list Z) : M St Z :=
  match indices with
  | [] => ret (to_size_t (-1))
  | i :: rest =>
      element <- data this i;;
      if predicate element then ret i else First_loop this predicate rest
  end.

(** [size_t First(std::function<bool(const T &element)> predicate,
    const size_t &end) const] *)
Definition First_to {St : Type} (this : list T) (predicate : T -> bool) (end_ : Z)
  : M St Z :=
  First_loop this predicate (indices_from 0 (bound this end_)).

(** The loop of [Last]: [i] is a [size_t], so its condition [i >= 0]
    holds in every round and [i--] at zero wraps around. *)
Fixpoint Last_loop {St : Type} (fuel : nat) (this : list T) (predicate : T -> bool)
    (i : Z) : M St Z :=
  if 0 <=? i then
    match fuel with
    | O => diverge
    | S fuel' =>
        element <- data this i;;
        if predicate element then ret i
        else Last_loop fuel' this predicate (to_size_t (i - 1))
    end
  else ret (to_size_t (-1)).

(** [size_t Last(std::function<bool(const T &element)> predicate,
    const size_t &end) const].  The loop reads below index zero after at
    most [length] rounds. *)
Definition Last_to {St : Type} (this : list T) (predicate : T -> bool) (end_ : Z)
  : M St Z :=
  Last_loop (S (length this)) this predicate (to_size_t (bound this end_ - 1)).

(** What [new size_t[length]] leaves in a slot. *)
Variable fresh_index : Z.

(** The loop of [Every]; [indices] is the local [Array<size_t>]. *)
Fixpoint Every_loop {St : Type} (this : list T) (predicate : T -> bool)
    (passing : list Z) (indices : list Z) (indicesCount : Z)
  : M St (list Z * Z) :=
  match passing with
  | [] => ret (indices, indicesCount)
  | i :: rest =>
      element <- data this i;;
      if predicate element then
        indices <- assign indices indicesCount i;;
        Every_loop this predicate rest indices (indicesCount + 1)
      else Every_loop this predicate rest indices indicesCount
  end.

(** [Array<size_t> Every(std::function<bool(const T &element)> predicate,
    const size_t &end) const] *)
Definition Every_to {St : Type} (this : list T) (predicate : T -> bool) (end_ : Z)
  : M St (list Z) :=
  r <- Every_loop this predicate (indices_from 0 (bound this end_))
         (create fresh_index (Z.to_nat (bound this end_))) 0;;
  ret (Resize fresh_index (fst r) (Z.to_nat (snd r))).

(** [bool Any(predicate, const size_t &end) const] *)
Definition Any_to {St : Type} (this : list T) (predicate : T -> bool) (end_ : Z)
  : M St bool :=
  i <- First_to this predicate end_;;
  ret (negb (i =? to_size_t (-1))).

(** The loop of [All]. *)
Fixpoint All_loop {St : Type} (this : list T) (predicate : T -> bool)
    (indices : list Z) : M St bool :=
  match indices with
  | [] => ret true
  | i :: rest =>
      element <- data this i;;
      if negb (predicate element) then ret false
      else All_loop this predicate rest
  end.

(** [bool All(predicate, const size_t &end) const] *)
Definition All_to {St : Type} (this : list T) (predicate : T -> bool) (end_ : Z)
  : M St bool :=
  All_loop this predicate (indices_from 0 (bound this end_)).

(** What [new T[length]] leaves in a slot. *)
Variable fresh : T.

(** [Array<T> Reverse(const size_t &end) const] *)
Definition Reverse_to (this : list T) (end_ : nat) : list T :=
  let newLength := Nat.min (length this) end_ in
  fold_left
    (fun reversedArray i =>
       match this !! (newLength - i - 1)%nat with
       | Some element => <[ i := element ]> reversedArray
       | None => reversedArray
       end)
    (seq 0 newLength) (create fresh newLength).

(** [operator==] of [T] *)
Variable T_eqb : T -> T -> bool.

(** [size_t FirstIndexOf(const T &element, const size_t &end) const] *)
Definition FirstIndexOf_to {St : Type} (this : list T) (element : T) (end_ : Z)
  : M St Z :=
  First_to this (fun element_ => T_eqb element_ element) end_.

(** [size_t LastIndexOf(const T &element, const size_t &end) const] *)
Definition LastIndexOf_to {St : Type} (this : list T) (element : T) (end_ : Z)
  : M St Z :=
  Last_to this (fun element_ => T_eqb element_ element) end_.

(** [Array<size_t> IndicesOf(const T &element, const size_t &end) const] *)
Definition IndicesOf_to {St : Type} (this : list T) (element : T) (end_ : Z)
  : M St (list Z) :=
  Every_to this (fun element_ => T_eqb element_ element) end_.

(** The public members, which search up to [length]. *)
Definition First {St : Type} (this : list T) (predicate : T -> bool) : M St Z :=
  First_to this predicate (Z.of_nat (length this)).
Definition Last {St : Type} (this : list T) (predicate : T -> bool) : M St Z :=
  Last_to this predicate (Z.of_nat (length this)).
Definition Every {St : Type} (this : list T) (predicate : T -> bool) : M St (list Z) :=
  Every_to this predicate (Z.of_nat (length this)).
Definition Any {St : Type} (this : list T) (predicate : T -> bool) : M St bool :=
  Any_to this predicate (Z.of_nat (length this)).
Definition All {St : Type} (this : list T) (predicate : T -> bool) : M St bool :=
  All_to this predicate (Z.of_nat (length this)).
Definition Reverse (this : list T) : list T := Reverse_to this (length this).
Definition FirstIndexOf {St : Type} (this : list T) (element : T) : M St Z :=
  FirstIndexOf_to this element (Z.of_nat (length this)).
Definition LastIndexOf {St : Type} (this : list T) (element : T) : M St Z :=
  LastIndexOf_to this element (Z.of_nat (length this)).
Definition IndicesOf {St : Type} (this : list T) (element : T) : M St (list Z) :=
  IndicesOf_to this element (Z.of_nat (length this)).

(** [bool Contains(const T &element) const] *)
Definition Contains {St : Type} (this : list T) (element : T) : M St bool :=
  i <- FirstIndexOf this element;;
  ret (negb (i =? to_size_t (-1))).

End Search.

End Array.

(** ** DynamicArray.c++ and List.c++

    [List<T>] derives from [DynamicArray<T>] and adds search helpers only;
    its constructors forward to those of [DynamicArray<T>]. *)

Module DynamicArray.
Section DynamicArray.
Context {T : Type}.
Variable fresh : T.

Record DynamicArray : Type := Build {
  capacity : Z;
  capacityModifier : Z;
  count : Z;
  array : list T
}.

Definition INITIAL_CAPACITY : Z := 200.

(** [DynamicArray()] *)
Definition create_default : DynamicArray :=
  {| capacity := INITIAL_CAPACITY;
     capacityModifier := INITIAL_CAPACITY;
     count := 0;
     array := Array.create fresh (Z.to_nat INITIAL_CAPACITY) |}.

(** The [size_t] expression [(n / capacityModifier + 1) * capacityModifier]. *)
Definition round_up (n capacityModifier : Z) : Z :=
  to_size_t (to_size_t (n / capacityModifier + 1) * capacityModifier).

(** [explicit DynamicArray(const size_t &capacity, const size_t capacityModifier)].
    Its [array = Array<T>(this->capacity)] allocates the temporary and,
    in the copy assignment, an array of the same length that takes the
    elements: where the first allocation fails, the exception leaves the
    constructor. *)
Definition create (max_length capacity capacityModifier : Z) : M unit DynamicArray :=
  if capacityModifier =? 0 then undefined
  else
    let capacity := round_up capacity capacityModifier in
    array <- Array.new_array fresh max_length capacity;;
    ret {| capacity := capacity;
           capacityModifier := capacityModifier;
           count := 0;
           array := array |}.

Definition ExpandArray (count : Z) : M DynamicArray unit :=
  fun this =>
    let count' := to_size_t (DynamicArray.count this + count) in
    if capacity this <? count' then
      if capacityModifier this =? 0 then Undefined
      else
        let capacity' := round_up count' (capacityModifier this) in
        Returns tt
          {| capacity := capacity';
             capacityModifier := capacityModifier this;
             count := count';
             array := Array.Resize fresh (array this) (Z.to_nat capacity') |}
    else
      Returns tt
        {| capacity := capacity this;
           capacityModifier := capacityModifier this;
           count := count';
           array := array this |}.

Definition Add (element : T) : M DynamicArray unit :=
  _ <- ExpandArray 1;;
  this <- get_state;;
  array' <- Array.assign (array this) (count this - 1) element;;
  put_state
    {| capacity := capacity this;
       capacityModifier := capacityModifier this;
       count := count this;
       array := array' |}.


(** *** The other members *)

Definition with_count (count : Z) (this : DynamicArray) : DynamicArray :=
  {| capacity := capacity this; capacityModifier := capacityModifier this;
     count := count; array := array this |}.
Definition with_array (array : list T) (this : DynamicArray) : DynamicArray :=
  {| capacity := capacity this; capacityModifier := capacityModifier this;
     count := count this; array := array |}.

Definition Capacity (this : DynamicArray) : Z := capacity this.
Definition CapacityModifier (this : DynamicArray) : Z := capacityModifier this.
Definition Count (this : DynamicArray) : Z := count this.


Definition ValidateBoundaries (index : Z) : M DynamicArray unit :=
  this <- get_state;;
  if index <? count this then ret tt
  else throw (out_of_range
         ("The index [" ++ to_string index
            ++ "] is out of the range of the Dynamic Array.")).

(** [array[index]], read through [Array<T>::operator[]] *)
Definition array_at (index : Z) : M DynamicArray T :=
  this <- get_state;;
  Array.at_index (array this) index.

(** [array[index] = element], through [Array<T>::operator[]] *)
Definition array_assign (index : Z) (element : T) : M DynamicArray unit :=
  this <- get_state;;
  array' <- Array.assign (array this) index element;;
  put_state (with_array array' this).

(** [T operator[](const size_t &index) const] *)
Definition at_index (index : Z) : M DynamicArray T :=
  _ <- ValidateBoundaries index;;
  array_at index.

(** [T &operator[](const size_t &index)], assigned to *)
Definition assign (index : Z) (element : T) : M DynamicArray unit :=
  _ <- ValidateBoundaries index;;
  array_assign index element.



(** [void Unshift(const size_t &start, const size_t &steps = 1)] *)
Definition Unshift (start steps : Z) : M DynamicArray unit :=
  this <- get_state;;
  _ <- for_each (Array.indices_from (to_size_t (start + steps)) (count this))
         (fun i =>
            element <- array_at i;;
            array_assign (to_size_t (i - steps)) element);;
  this <- get_state;;
  put_state (with_count (to_size_t (count this - steps)) this).


(** [void RemoveAt(const size_t &index)] *)
Definition RemoveAt (index : Z) : M DynamicArray unit :=
  _ <- ValidateBoundaries index;;
  Unshift index 1.



(** [operator==] of [T] *)
Variable T_eqb : T -> T -> bool.

(** [size_t FirstIndexOf(const T &element) const] *)
Definition FirstIndexOf (element : T) : M DynamicArray Z :=
  this <- get_state;;
  Array.FirstIndexOf_to T_eqb (array this) element (count this).

(** [size_t LastIndexOf(const T &element) const] *)
Definition LastIndexOf (element : T) : M DynamicArray Z :=
  this <- get_state;;
  Array.LastIndexOf_to T_eqb (array this) element (count this).

(** What [new size_t[length]] leaves in a slot. *)
Variable fresh_index : Z.

(** [Array<size_t> IndicesOf(const T &element) const] *)
Definition IndicesOf (element : T) : M DynamicArray (list Z) :=
  this <- get_state;;
  Array.IndicesOf_to fresh_index T_eqb (array this) element (count this).

(** [bool Contains(const T &element) const] *)
Definition Contains (element : T) : M DynamicArray bool :=
  index <- FirstIndexOf element;;
  ret (negb (index =? to_size_t (-1))).



(** [bool RemoveAll(const T &element)]: the indices are collected first,
    then [RemoveAt] is called with each of them in turn. *)
Definition RemoveAll (element : T) : M DynamicArray bool :=
  indices <- IndicesOf element;;
  if (length indices =? 0)%nat then ret false
  else
    _ <- for_each indices RemoveAt;;
    ret true.

End DynamicArray.
Arguments DynamicArray : clear implicits.
End DynamicArray.

(** ** Node.c++ and LinkedList.c++

    A list constructs its nodes with [new Node<T>(value)] and records them
    in [constructedNodes]; [store] is that memory, in the order of
    construction, and a [Node<T>*] is a position in it. *)

Module LinkedList.
Section LinkedList.
Context {T : Type}.

Definition pointer : Type := option nat.

Definition pointer_eqb (p q : pointer) : bool :=
  match p, q with
  | Some i, Some j => Nat.eqb i j
  | None, None => true
  | _, _ => false
  end.

Definition is_null (p : pointer) : bool :=
  match p with None => true | Some _ => false end.

Record Node : Type := BuildNode {
  Data : T;
  previous : pointer;
  next : pointer;
  isConstructed : bool
}.

Record LinkedList : Type := Build {
  count : Z;
  head : pointer;
  tail : pointer;
  ImprovableSearch : bool;
  store : list Node
}.

(** [explicit LinkedList(const bool &improvableSearch = false)] *)
Definition create (improvableSearch : bool) : LinkedList :=
  {| count := 0; head := None; tail := None;
     ImprovableSearch := improvableSearch; store := [] |}.

Definition with_count (count : Z) (this : LinkedList) : LinkedList :=
  {| count := count; head := head this; tail := tail this;
     ImprovableSearch := ImprovableSearch this; store := store this |}.
Definition with_head (head : pointer) (this : LinkedList) : LinkedList :=
  {| count := count this; head := head; tail := tail this;
     ImprovableSearch := ImprovableSearch this; store := store this |}.
Definition with_tail (tail : pointer) (this : LinkedList) : LinkedList :=
  {| count := count this; head := head this; tail := tail;
     ImprovableSearch := ImprovableSearch this; store := store this |}.
Definition with_store (store : list Node) (this : LinkedList) : LinkedList :=
  {| count := count this; head := head this; tail := tail this;
     ImprovableSearch := ImprovableSearch this; store := store |}.

Definition with_Data (x : T) (n : Node) : Node :=
  {| Data := x; previous := previous n; next := next n;
     isConstructed := isConstructed n |}.
Definition with_previous (p : pointer) (n : Node) : Node :=
  {| Data := Data n; previous := p; next := next n;
     isConstructed := isConstructed n |}.
Definition with_next (p : pointer) (n : Node) : Node :=
  {| Data := Data n; previous := previous n; next := p;
     isConstructed := isConstructed n |}.

(** [*node]: undefined for [nullptr]. *)
Definition deref (node : pointer) : M LinkedList Node :=
  fun this =>
    match node with
    | None => Undefined
    | Some i =>
        match store this !! i with
        | Some n => Returns n this
        | None => Undefined
        end
    end.

(** [node->field = ...] *)
Definition update (node : pointer) (f : Node -> Node) : M LinkedList unit :=
  fun this =>
    match node with
    | None => Undefined
    | Some i =>
        match store this !! i with
        | Some n => Returns tt (with_store (<[ i := f n ]> (store this)) this)
        | None => Undefined
        end
    end.

Definition modify (f : LinkedList -> LinkedList) : M LinkedList unit :=
  fun this => Returns tt (f this).

Definition ValidateBoundaries (index : Z) : M LinkedList unit :=
  this <- get_state;;
  if index <? count this then ret tt
  else throw (out_of_range
         ("The index [" ++ to_string index
            ++ "] is out of the range of the Linked List.")).

(** The loop of [void Add(Node<T>* node, const bool &contiguously)]. *)
Fixpoint Add_loop (fuel : nat) (node : pointer) : M LinkedList unit :=
  match node with
  | None => ret tt
  | Some _ =>
      match fuel with
      | O => diverge
      | S fuel' =>
          this <- get_state;;
          _ <- (if count this =? 0 then
                  modify (fun this => with_tail node (with_head node this))
                else
                  n <- deref node;;
                  _ <- (if is_null (previous n)
                        then update node (with_previous (tail this))
                        else ret tt);;
                  _ <- update (tail this) (with_next node);;
                  modify (with_tail node));;
          n <- deref node;;
          _ <- modify (fun this => with_count (count this + 1) this);;
          Add_loop fuel' (next n)
      end
  end.

(** [void Add(Node<T>* node, const bool &contiguously = true)].  With
    [contiguously] false the statement
    [node->next->previous = node->next = nullptr] clears [node->next] and
    then dereferences it. *)
Definition Add_node (node : pointer) (contiguously : bool) : M LinkedList unit :=
  if negb contiguously then undefined
  else
    this <- get_state;;
    Add_loop (S (length (store this))) node.

(** [void Add(T value)] *)
Definition Add (value : T) : M LinkedList unit :=
  this <- get_state;;
  let constructedNode := Some (length (store this)) in
  _ <- modify
         (with_store
            (store this ++
               [ {| Data := value; previous := None; next := None;
                    isConstructed := true |} ]));;
  Add_node constructedNode true.

(** The pointer walk of [NodeAt]. *)
Fixpoint walk (steps : nat) (headToTail : bool) (node : pointer)
  : M LinkedList pointer :=
  match steps with
  | O => ret node
  | S steps' =>
      n <- deref node;;
      walk steps' headToTail (if headToTail then next n else previous n)
  end.

(** [Node<T>* NodeAt(const size_t &index, const bool &headToTail = true) const] *)
Definition NodeAt (index : Z) (headToTail : bool) : M LinkedList pointer :=
  _ <- ValidateBoundaries index;;
  this <- get_state;;
  if headToTail then walk (Z.to_nat index) true (head this)
  else walk (Z.to_nat (count this - 1 - index)) false (tail this).

Fixpoint IndexOf_loop (fuel : nat) (node currentNode : pointer) (index : Z)
  : M LinkedList Z :=
  match currentNode with
  | None => ret (-1)
  | Some _ =>
      if pointer_eqb currentNode node then ret index
      else
        match fuel with
        | O => diverge
        | S fuel' =>
            n <- deref currentNode;;
            IndexOf_loop fuel' node (next n) (index + 1)
        end
  end.

(** [int IndexOf(Node<T>* node, const bool &headToTail = true) const] *)
Definition IndexOf (node : pointer) : M LinkedList Z :=
  this <- get_state;;
  IndexOf_loop (S (length (store this))) node (head this) 0.

(** [static void Node<T>::Swap(Node<T>* node1, Node<T>* node2)] *)
Definition Swap (node1 node2 : pointer) : M LinkedList unit :=
  n1 <- deref node1;;
  n2 <- deref node2;;
  let previousNode1 := previous n1 in
  let nextNode1 := next n1 in
  let previousNode2 := previous n2 in
  let nextNode2 := next n2 in
  _ <- (if is_null previousNode1 then ret tt
        else update previousNode1 (with_next node2));;
  _ <- (if is_null previousNode2 then ret tt
        else update previousNode2 (with_next node1));;
  n1 <- deref node1;;
  n2 <- deref node2;;
  let temporaryPrevious := previous n1 in
  _ <- update node1
         (with_previous
            (if negb (pointer_eqb (previous n2) node1) then previous n2 else node2));;
  _ <- update node2
         (with_previous
            (if negb (pointer_eqb temporaryPrevious node2)
             then temporaryPrevious else node1));;
  n1 <- deref node1;;
  n2 <- deref node2;;
  let temporaryNext := next n1 in
  _ <- update node1 (with_next (next n2));;
  _ <- update node2 (with_next temporaryNext);;
  _ <- (if negb (is_null nextNode1) && negb (pointer_eqb nextNode1 node2)
        then update nextNode1 (with_previous node2) else ret tt);;
  (if negb (is_null nextNode2) && negb (pointer_eqb nextNode2 node1)
   then update nextNode2 (with_previous node1) else ret tt).

(** [void SwapNodes(Node<T>* node1, Node<T>* node2)] *)
Definition SwapNodes (node1 node2 : pointer) : M LinkedList unit :=
  this <- get_state;;
  if negb (ImprovableSearch this) then
    throw (logic_error
      "Attempting to adjust the order of a non-improvable-search Linked List.")
  else if is_null node1 || is_null node2 then ret tt
  else
    _ <- modify
           (with_head
              (if pointer_eqb node1 (head this) then node2
               else if pointer_eqb node2 (head this) then node1
               else head this));;
    _ <- modify
           (with_tail
              (if pointer_eqb node1 (tail this) then node2
               else if pointer_eqb node2 (tail this) then node1
               else tail this));;
    Swap node1 node2.

(** The loop of [EveryNode]; [nodes] is the local [Array<Node<T>*>]. *)
Fixpoint EveryNode_loop (fuel : nat) (predicate : Node -> bool)
    (headToTail : bool) (amountTaken : Z)
    (nodes : list pointer) (nodeCount : Z) (currentNode : pointer)
  : M LinkedList (list pointer * Z) :=
  if (nodeCount <? Z.of_nat (length nodes)) && negb (is_null currentNode) then
    match fuel with
    | O => diverge
    | S fuel' =>
        n <- deref currentNode;;
        if negb (predicate n) then
          EveryNode_loop fuel' predicate headToTail amountTaken nodes nodeCount
            (if headToTail then next n else previous n)
        else
          nodes <- Array.assign nodes nodeCount currentNode;;
          this <- get_state;;
          _ <- (if negb (amountTaken =? 0) && ImprovableSearch this
                then SwapNodes currentNode
                       (if headToTail then previous n else next n)
                else ret tt);;
          n <- deref currentNode;;
          EveryNode_loop fuel' predicate headToTail amountTaken nodes
            (nodeCount + 1) (if headToTail then next n else previous n)
    end
  else ret (nodes, nodeCount).

(** [Array<Node<T>*> EveryNode(predicate, headToTail, amountTaken = 0)].
    Between two matches the walk passes each node at most once, unless
    it never ends. *)
Definition EveryNode (predicate : Node -> bool) (headToTail : bool)
    (amountTaken : Z) : M LinkedList (list pointer) :=
  this <- get_state;;
  let nodes :=
    Array.create None
      (Z.to_nat (if amountTaken =? 0 then count this else amountTaken)) in
  r <- EveryNode_loop ((S (length nodes)) * S (length (store this)))
         predicate headToTail amountTaken nodes 0
         (if headToTail then head this else tail this);;
  ret (Array.Resize None (fst r) (Z.to_nat (snd r))).

(** [Node<T>* FirstNode(std::function<bool(Node<T>* node)> predicate)] *)
Definition FirstNode (predicate : Node -> bool) : M LinkedList pointer :=
  nodes <- EveryNode predicate true 1;;
  if negb (length nodes =? 0)%nat then Array.at_index nodes 0 else ret None.

(** [operator==] of [T] *)
Variable T_eqb : T -> T -> bool.

(** [Node<T>* FindFirstNode(const T &value)] *)
Definition FindFirstNode (value : T) : M LinkedList pointer :=
  FirstNode (fun node => T_eqb (Data node) value).

(** The loop of [Reverse]. *)
Fixpoint Reverse_loop (fuel : nat) (previousNode currentNode : pointer)
  : M LinkedList unit :=
  match currentNode with
  | None => ret tt
  | Some _ =>
      match fuel with
      | O => diverge
      | S fuel' =>
          n <- deref currentNode;;
          let nextNode := next n in
          _ <- update currentNode (with_next previousNode);;
          Reverse_loop fuel' currentNode nextNode
      end
  end.

(** [void Reverse()].  The loop re-links [next] only; it passes a node at
    most twice (a node it meets again has [next] already turned back). *)
Definition Reverse : M LinkedList unit :=
  this <- get_state;;
  if count this =? 0 then ret tt
  else
    h <- deref (head this);;
    let secondNode := next h in
    _ <- Reverse_loop (S (2 * length (store this))) None (head this);;
    _ <- modify (fun this => with_tail (head this) (with_head (tail this) this));;
    this <- get_state;;
    _ <- update (head this) (with_previous None);;
    update (tail this) (with_previous secondNode).

(** [Array<T> ToArray() const]: the data met from [head] along [next]. *)
Fixpoint along (fuel : nat) (headToTail : bool) (node : pointer)
  : M LinkedList (list T) :=
  match node with
  | None => ret []
  | Some _ =>
      match fuel with
      | O => diverge
      | S fuel' =>
          n <- deref node;;
          rest <- along fuel' headToTail (if headToTail then next n else previous n);;
          ret (Data n :: rest)
      end
  end.

End LinkedList.
Arguments Node : clear implicits.
Arguments LinkedList : clear implicits.
End LinkedList.

(** ** HashTable.c++ *)

Module HashTable.
Section HashTable.
Context {TKey TValue : Type}.

(** [operator==] of [TKey] and [sizeof(TKey)] *)
Variable TKey_eqb : TKey -> TKey -> bool.
Variable sizeof_TKey : Z.

(** An argument passed as [TKey &key]: where the object is, and what it
    holds. *)
Record reference : Type := Ref {
  address : Z;
  object : TKey
}.

Record HashTable : Type := Build {
  keys : DynamicArray.DynamicArray (LinkedList.LinkedList TKey);
  values : DynamicArray.DynamicArray (LinkedList.LinkedList TValue);
  threshold : Q;
  HashingAlgorithm : Z -> Z -> Z;
  hashingSeed : Z;
  hashedPairCount : Z
}.

Definition INITIAL_THRESHOLD : Q := 3 # 4.
Definition INITIAL_CAPACITY : Z := 500.

(** [HashTable()] *)
Definition create_default : HashTable :=
  {| keys := DynamicArray.create_default (LinkedList.create false);
     values := DynamicArray.create_default (LinkedList.create false);
     threshold := INITIAL_THRESHOLD;
     HashingAlgorithm := Murmur.MurmurHashingAlgorithm;
     hashingSeed := 0;
     hashedPairCount := 0 |}.

(** The [float] threshold is carried by a rational ([0.75F] is exactly
    3/4).  The text of the exception leaves out the printed number. *)
Definition Qlt_bool (a b : Q) : bool := negb (Qle_bool b a).

Definition ValidateThreshold (threshold : Q) : M unit unit :=
  if Qlt_bool 0 threshold && Qle_bool threshold 1 then ret tt
  else throw (out_of_range "The threshold is out of the range of [0, 1).").

(** [HashTable(capacity, threshold, capacityModifier, hashingAlgorithm,
    hashingSeed)]; [max_length] is the longest array of chains that the
    machine provides. *)
Definition create (max_length capacity : Z) (threshold : Q) (capacityModifier : Z)
    (hashingAlgorithm : Z -> Z -> Z) (hashingSeed : Z) : M unit HashTable :=
  _ <- ValidateThreshold threshold;;
  keys <- DynamicArray.create (LinkedList.create false) max_length capacity
            capacityModifier;;
  values <- DynamicArray.create (LinkedList.create false) max_length capacity
              capacityModifier;;
  ret {| keys := keys; values := values; threshold := threshold;
         HashingAlgorithm := hashingAlgorithm; hashingSeed := hashingSeed;
         hashedPairCount := 0 |}.

Definition Capacity (this : HashTable) : Z := DynamicArray.capacity (keys this).
Definition CapacityModifier (this : HashTable) : Z :=
  DynamicArray.capacityModifier (keys this).
Definition Threshold (this : HashTable) : Q := threshold this.

Definition with_keys_array (a : list (LinkedList.LinkedList TKey))
    (this : HashTable) : HashTable :=
  {| keys :=
       {| DynamicArray.capacity := DynamicArray.capacity (keys this);
          DynamicArray.capacityModifier := DynamicArray.capacityModifier (keys this);
          DynamicArray.count := DynamicArray.count (keys this);
          DynamicArray.array := a |};
     values := values this; threshold := threshold this;
     HashingAlgorithm := HashingAlgorithm this; hashingSeed := hashingSeed this;
     hashedPairCount := hashedPairCount this |}.

Definition with_values_array (a : list (LinkedList.LinkedList TValue))
    (this : HashTable) : HashTable :=
  {| keys := keys this;
     values :=
       {| DynamicArray.capacity := DynamicArray.capacity (values this);
          DynamicArray.capacityModifier := DynamicArray.capacityModifier (values this);
          DynamicArray.count := DynamicArray.count (values this);
          DynamicArray.array := a |};
     threshold := threshold this;
     HashingAlgorithm := HashingAlgorithm this; hashingSeed := hashingSeed this;
     hashedPairCount := hashedPairCount this |}.

Definition with_hashedPairCount (n : Z) (this : HashTable) : HashTable :=
  {| keys := keys this; values := values this; threshold := threshold this;
     HashingAlgorithm := HashingAlgorithm this; hashingSeed := hashingSeed this;
     hashedPairCount := n |}.

(** [long rawHashing = long(&key) + long(&key) + sizeof(key)] *)
Definition rawHashing (key : reference) : Z :=
  to_long (to_long (address key + address key) + sizeof_TKey).

(** [size_t index = hashingValue % values.capacity] *)
Definition bucket_index (key : reference) : M HashTable Z :=
  this <- get_state;;
  let hashingValue := HashingAlgorithm this (rawHashing key) (hashingSeed this) in
  if DynamicArray.capacity (values this) =? 0 then undefined
  else ret (to_size_t hashingValue mod DynamicArray.capacity (values this)).

(** [keyPocket->m], where [keyPocket = &keys.array[index]] *)
Definition keyPocket {A : Type} (index : Z)
    (m : M (LinkedList.LinkedList TKey) A) : M HashTable A :=
  fun this =>
    match DynamicArray.array (keys this) !! Z.to_nat index with
    | None => Undefined
    | Some pocket =>
        let store pocket' :=
          with_keys_array
            (<[ Z.to_nat index := pocket' ]> (DynamicArray.array (keys this))) this in
        match m pocket with
        | Returns a pocket' => Returns a (store pocket')
        | Throws e pocket' => Throws e (store pocket')
        | Undefined => Undefined
        | Diverges => Diverges
        end
    end.

(** [valuePocket->m], where [valuePocket = &values.array[index]] *)
Definition valuePocket {A : Type} (index : Z)
    (m : M (LinkedList.LinkedList TValue) A) : M HashTable A :=
  fun this =>
    match DynamicArray.array (values this) !! Z.to_nat index with
    | None => Undefined
    | Some pocket =>
        let store pocket' :=
          with_values_array
            (<[ Z.to_nat index := pocket' ]> (DynamicArray.array (values this))) this in
        match m pocket with
        | Returns a pocket' => Returns a (store pocket')
        | Throws e pocket' => Throws e (store pocket')
        | Undefined => Undefined
        | Diverges => Diverges
        end
    end.

(** The conversion of the [int] that [IndexOf] returns to [size_t]. *)
Definition size_t_of_int (i : Z) : Z := if i <? 0 then i + 2 ^ 64 else i.

(** [void Set(TKey &key, TValue value)] ([Set] is a keyword of Rocq) *)
Definition Set_ (key : reference) (value : TValue) : M HashTable unit :=
  index <- bucket_index key;;
  this <- get_state;;
  _ <- Array.ValidateBoundaries (DynamicArray.array (keys this)) index;;
  _ <- Array.ValidateBoundaries (DynamicArray.array (values this)) index;;
  keyNode <- keyPocket index (LinkedList.FindFirstNode TKey_eqb (object key));;
  if LinkedList.is_null keyNode then
    _ <- keyPocket index (LinkedList.Add (object key));;
    _ <- valuePocket index (LinkedList.Add value);;
    this <- get_state;;
    put_state (with_hashedPairCount (to_long (hashedPairCount this + 1)) this)
  else
    keyNodeIndex <- keyPocket index (LinkedList.IndexOf keyNode);;
    valuePocket index
      (node <- LinkedList.NodeAt (size_t_of_int keyNodeIndex) true;;
       LinkedList.update node (LinkedList.with_Data value)).

Definition key_not_found : exception :=
  out_of_range "The provided key doesn't exist within the Hash Table.".

(** [TValue Get(TKey &key)] *)
Definition Get (key : reference) : M HashTable TValue :=
  index <- bucket_index key;;
  this <- get_state;;
  _ <- Array.ValidateBoundaries (DynamicArray.array (keys this)) index;;
  _ <- Array.ValidateBoundaries (DynamicArray.array (values this)) index;;
  keyNode <- keyPocket index (LinkedList.FindFirstNode TKey_eqb (object key));;
  if negb (LinkedList.is_null keyNode) then
    keyNodeIndex <- keyPocket index (LinkedList.IndexOf keyNode);;
    valuePocket index
      (node <- LinkedList.NodeAt (size_t_of_int keyNodeIndex) true;;
       n <- LinkedList.deref node;;
       ret (LinkedList.Data n))
  else throw key_not_found.

(** [bool Has(TKey &key)] *)
Definition Has (key : reference) : M HashTable bool :=
  try_catch_all (_ <- Get key;; ret true) (ret false).

(** [void AdapteCapacity()], which no member function calls.  Its
    [float] quotient is carried by a rational; with a zero capacity the
    quotient is an infinity or a NaN, which is below the threshold only
    when it is the negative infinity.  The copy that [Array<T>::Resize]
    makes of each chain is carried as the chain. *)
Definition AdapteCapacity : M HashTable unit :=
  this <- get_state;;
  if (if DynamicArray.capacity (keys this) =? 0 then hashedPairCount this <? 0
      else Qlt_bool
             (inject_Z (hashedPairCount this)
              / inject_Z (DynamicArray.capacity (keys this)))
             (threshold this))
  then ret tt
  else
    let modifier := DynamicArray.capacityModifier (keys this) in
    fun this =>
      match DynamicArray.ExpandArray (LinkedList.create false) modifier (keys this) with
      | Returns _ keys' =>
          match DynamicArray.ExpandArray (LinkedList.create false) modifier (values this) with
          | Returns _ values' =>
              Returns tt
                {| keys := keys'; values := values'; threshold := threshold this;
                   HashingAlgorithm := HashingAlgorithm this;
                   hashingSeed := hashingSeed this;
                   hashedPairCount := hashedPairCount this |}
          | _ => Undefined
          end
      | _ => Undefined
      end.

End HashTable.
Arguments HashTable : clear implicits.
Arguments reference : clear implicits.
End HashTable.

(** ** Stack.c++ and Queue.c++

    Both derive from [DynamicArray<T>] and keep their elements in its
    array: the top of the stack and the front of the queue are the last
    element, the bottom and the back the first. *)

Module Stack.
Section Stack.
Context {T : Type}.
Variable fresh : T.

Abbreviation Stack := (DynamicArray.DynamicArray T).

(** [T Top()]: [*(this->end() - 1)], an unchecked access *)
Definition Top : M Stack T :=
  this <- get_state;;
  Array.data (DynamicArray.array this) (DynamicArray.count this - 1).

(** [T Bottom()]: [*(this->begin())], an unchecked access *)
Definition Bottom : M Stack T :=
  this <- get_state;;
  Array.data (DynamicArray.array this) 0.

(** [void Push(T element)] *)
Definition Push (element : T) : M Stack unit := DynamicArray.Add fresh element.

(** [T Pop()] *)
Definition Pop : M Stack T :=
  lastElement <- Top;;
  this <- get_state;;
  _ <- DynamicArray.RemoveAt (to_size_t (DynamicArray.count this - 1));;
  ret lastElement.

End Stack.
End Stack.

Module Queue.
Section Queue.
Context {T : Type}.
Variable fresh : T.

Abbreviation Queue := (DynamicArray.DynamicArray T).

(** [T Front()]: [*(this->end() - 1)], an unchecked access *)
Definition Front : M Queue T :=
  this <- get_state;;
  Array.data (DynamicArray.array this) (DynamicArray.count this - 1).

(** [T Back()]: [*(this->begin())], an unchecked access *)
Definition Back : M Queue T :=
  this <- get_state;;
  Array.data (DynamicArray.array this) 0.

(** [void Push(T element)] *)
Definition Push (element : T) : M Queue unit := DynamicArray.Add fresh element.

(** [T Pop()] *)
Definition Pop : M Queue T :=
  lastElement <- Back;;
  _ <- DynamicArray.RemoveAt 0;;
  ret lastElement.

End Queue.
End Queue.

(** * Vocabulary of the properties *)

(** ** Chains built by [Add]

    A list that was only ever extended by [Add(T value)] has its nodes in
    the store in the order of the chain: the list is determined by the
    sequence of its data. *)

Module Chain.
Section Chain.
Context {T : Type}.

(** The pointer to position [i] of a chain of [n] nodes: [nullptr] past
    the end. *)
Definition position (n i : nat) : LinkedList.pointer :=
  if (i <? n)%nat then Some i else None.

(** The node at position [i] of a chain of [n] nodes built by [Add]. *)
Definition node_at (n i : nat) (x : T) : LinkedList.Node T :=
  {| LinkedList.Data := x;
     LinkedList.previous := match i with O => None | S j => Some j end;
     LinkedList.next := position n (S i);
     LinkedList.isConstructed := true |}.

(** The list that [Add] builds from the empty list for the data [xs]. *)
Definition chain (xs : list T) : LinkedList.LinkedList T :=
  {| LinkedList.count := Z.of_nat (length xs);
     LinkedList.head := position (length xs) 0;
     LinkedList.tail := match length xs with O => None | S j => Some j end;
     LinkedList.ImprovableSearch := false;
     LinkedList.store := imap (node_at (length xs)) xs |}.

(** The position of the first element that satisfies [p]. *)
Fixpoint first_index (p : T -> bool) (xs : list T) : option nat :=
  match xs with
  | [] => None
  | x :: rest => if p x then Some 0%nat else S <$> first_index p rest
  end.

End Chain.
End Chain.

(** ** The hash table over chains *)

Module Table.
Section Table.
Context {TKey TValue : Type}.
Variable TKey_eqb : TKey -> TKey -> bool.
Variable sizeof_TKey : Z.

Abbreviation HashTable := (HashTable.HashTable TKey TValue).
Abbreviation reference := (HashTable.reference TKey).

(** The bucket that [Set] and [Get] compute for a key. *)
Definition bucket_of (t : HashTable) (key : reference) : nat :=
  Z.to_nat
    (to_size_t
       (HashTable.HashingAlgorithm t (HashTable.rawHashing sizeof_TKey key)
          (HashTable.hashingSeed t))
     mod DynamicArray.capacity (HashTable.values t)).

(** [represents t ks vs]: the table has at least one bucket, and bucket [i]
    of [keys] (of [values]) is the chain that holds [ks !! i] ([vs !! i]). *)
Record represents (t : HashTable) (ks : list (list TKey)) (vs : list (list TValue))
  : Prop := Represents {
  rep_keys : DynamicArray.array (HashTable.keys t) = Chain.chain <$> ks;
  rep_values : DynamicArray.array (HashTable.values t) = Chain.chain <$> vs;
  rep_capacity : 0 < DynamicArray.capacity (HashTable.values t);
  rep_keys_length : length ks = Z.to_nat (DynamicArray.capacity (HashTable.values t));
  rep_values_length : length vs = Z.to_nat (DynamicArray.capacity (HashTable.values t))
}.

(** The key chain and the value chain of every bucket have equal length. *)
Definition lockstep (ks : list (list TKey)) (vs : list (list TValue)) : Prop :=
  forall i kl vl, ks !! i = Some kl -> vs !! i = Some vl -> length kl = length vl.

(** What [Set] does to the two chains of one bucket. *)
Definition set_pair (key : TKey) (value : TValue)
    (chains : list TKey * list TValue) : list TKey * list TValue :=
  match Chain.first_index (fun k => TKey_eqb k key) (fst chains) with
  | Some j => (fst chains, <[ j := value ]> (snd chains))
  | None => (fst chains ++ [key], snd chains ++ [value])
  end.

(** The parameters of a table that [Set] does not touch. *)
Definition same_parameters (t t' : HashTable) : Prop :=
  DynamicArray.capacity (HashTable.keys t') = DynamicArray.capacity (HashTable.keys t)
  /\ DynamicArray.capacity (HashTable.values t') = DynamicArray.capacity (HashTable.values t)
  /\ DynamicArray.capacityModifier (HashTable.keys t')
     = DynamicArray.capacityModifier (HashTable.keys t)
  /\ HashTable.threshold t' = HashTable.threshold t
  /\ HashTable.HashingAlgorithm t' = HashTable.HashingAlgorithm t
  /\ HashTable.hashingSeed t' = HashTable.hashingSeed t.

(** A sequence of [Set] calls, one after the other. *)
Fixpoint Set_all (calls : list (reference * TValue)) : M HashTable unit :=
  match calls with
  | [] => ret tt
  | call :: rest =>
      _ <- HashTable.Set_ TKey_eqb sizeof_TKey (fst call) (snd call);;
      Set_all rest
  end.

(** What one [Set] call does to the chains of all buckets. *)
Definition set_buckets (t : HashTable)
    (state : list (list TKey) * list (list TValue)) (call : reference * TValue)
  : list (list TKey) * list (list TValue) :=
  let i := bucket_of t (fst call) in
  let chains :=
    set_pair (HashTable.object (fst call)) (snd call) (fst state !!! i, snd state !!! i) in
  (<[ i := fst chains ]> (fst state), <[ i := snd chains ]> (snd state)).

(** The value of the last call that went to bucket [i] with a key equal to
    [k]. *)
Definition last_value (t : HashTable) (i : nat) (k : TKey)
    (calls : list (reference * TValue)) : option TValue :=
  fold_left
    (fun found call =>
       if (bucket_of t (fst call) =? i)%nat && TKey_eqb k (HashTable.object (fst call))
       then Some (snd call) else found)
    calls None.

(** The two chains of a bucket after the calls: no key twice, a value for
    each key, and that value is the one last set for the key in this
    bucket. *)
Record bucket_invariant (t : HashTable) (calls : list (reference * TValue))
    (i : nat) (kl : list TKey) (vl : list TValue) : Prop := BucketInvariant {
  inv_length : length kl = length vl;
  inv_NoDup : NoDup kl;
  inv_value : forall j k, kl !! j = Some k -> vl !! j = last_value t i k calls;
  inv_member : forall k, k ∈ kl <-> is_Some (last_value t i k calls)
}.

(** A table as one of the two constructors returns it. *)
Definition constructed (t : HashTable) : Prop :=
  t = HashTable.create_default
  \/ exists max_length capacity threshold capacityModifier hashingAlgorithm
            hashingSeed,
       HashTable.create max_length capacity threshold capacityModifier
         hashingAlgorithm hashingSeed tt
       = Returns t tt.

(** The number of buckets, as [Capacity()] reports it. *)
Definition bucket_count (t : HashTable) : nat := Z.to_nat (HashTable.Capacity t).

(** The value most recently set for a key, whatever the bucket. *)
Definition last_set (k : TKey) (calls : list (reference * TValue)) : option TValue :=
  fold_left
    (fun found call =>
       if TKey_eqb k (HashTable.object (fst call)) then Some (snd call) else found)
    calls None.

End Table.
End Table.

(** ** Observations *)

(** The outcome of an operation without the state it leaves. *)
Definition result {S A : Type} (o : outcome S A) : outcome unit A :=
  match o with
  | Returns a _ => Returns a tt
  | Throws e _ => Throws e tt
  | Undefined => Undefined
  | Diverges => Diverges
  end.

Section Buckets.
Context {TKey TValue : Type}.

Abbreviation HashTable := (HashTable.HashTable TKey TValue).

(** The bucket arrays of [t'] are as long as those of [t]. *)
Definition same_buckets (t t' : HashTable) : Prop :=
  HashTable.Capacity t' = HashTable.Capacity t
  /\ DynamicArray.capacity (HashTable.values t') = DynamicArray.capacity (HashTable.values t)
  /\ length (DynamicArray.array (HashTable.keys t'))
     = length (DynamicArray.array (HashTable.keys t))
  /\ length (DynamicArray.array (HashTable.values t'))
     = length (DynamicArray.array (HashTable.values t)).

(** An operation that, when it returns or throws, leaves the bucket arrays
    at their length. *)
Definition keeps_buckets {A : Type} (m : M HashTable A) : Prop :=
  forall t,
    match m t with
    | Returns _ t' | Throws _ t' => same_buckets t t'
    | Undefined | Diverges => True
    end.

End Buckets.

(** ** Chains after [Reverse] *)

(** The chain 1, 2, 3 after [Reverse]. *)
Definition reversed_123 : LinkedList.LinkedList Z :=
  {| LinkedList.count := 3;
     LinkedList.head := Some 2%nat;
     LinkedList.tail := Some 0%nat;
     LinkedList.ImprovableSearch := false;
     LinkedList.store :=
       [ {| LinkedList.Data := 1; LinkedList.previous := Some 1%nat;
            LinkedList.next := None; LinkedList.isConstructed := true |};
         {| LinkedList.Data := 2; LinkedList.previous := Some 0%nat;
            LinkedList.next := Some 0%nat; LinkedList.isConstructed := true |};
         {| LinkedList.Data := 3; LinkedList.previous := None;
            LinkedList.next := Some 1%nat; LinkedList.isConstructed := true |} ] |}.

Section Reversed.
Context {T : Type}.

(** The pointer to the position before [i]: [nullptr] before the first. *)
Definition before (i : nat) : LinkedList.pointer :=
  match i with O => None | S j => Some j end.

(** The store after [k] rounds of the loop of [Reverse]. *)
Definition half_reversed (xs : list T) (k : nat) : list (LinkedList.Node T) :=
  imap (fun i x =>
          if (i <? k)%nat
          then LinkedList.with_next (before i) (Chain.node_at (length xs) i x)
          else Chain.node_at (length xs) i x) xs.

(** The node at position [i] when [Reverse] has returned. *)
Definition reversed_node (n i : nat) (x : T) : LinkedList.Node T :=
  {| LinkedList.Data := x;
     LinkedList.previous :=
       if (i =? 0)%nat then Chain.position n 1
       else if (S i =? n)%nat then None else before i;
     LinkedList.next := before i;
     LinkedList.isConstructed := true |}.

(** The list that [Reverse] leaves of the chain of [xs]. *)
Definition reversed (xs : list T) : LinkedList.LinkedList T :=
  {| LinkedList.count := Z.of_nat (length xs);
     LinkedList.head := before (length xs);
     LinkedList.tail := Chain.position (length xs) 0;
     LinkedList.ImprovableSearch := false;
     LinkedList.store := imap (reversed_node (length xs)) xs |}.

End Reversed.

(** ** Dynamic arrays *)

Module Dynamic.
Section Dynamic.
Context {T : Type}.

(** The elements of a dynamic array: the first [count] slots of its
    array. *)
Definition contents (d : DynamicArray.DynamicArray T) : list T :=
  take (Z.to_nat (DynamicArray.count d)) (DynamicArray.array d).

(** What the constructors establish and the members keep: the array has
    [capacity] slots, of which [count] are in use, and the capacity
    modifier is not zero. *)
Record well_formed (d : DynamicArray.DynamicArray T) : Prop := WellFormed {
  wf_count : 0 <= DynamicArray.count d <= DynamicArray.capacity d;
  wf_array : Z.of_nat (length (DynamicArray.array d)) = DynamicArray.capacity d;
  wf_modifier : 0 < DynamicArray.capacityModifier d;
  wf_capacity : DynamicArray.capacity d <= SIZE_MAX
}.


End Dynamic.
End Dynamic.

(** * Properties *)

(** ** Machine integers *)

Lemma to_size_t_id (z : Z) : 0 <= z < 2 ^ 64 -> to_size_t z = z.
Proof. intros H. unfold to_size_t. apply Z.mod_small. exact H. Qed.

Lemma to_long_id (z : Z) : - 2 ^ 63 <= z < 2 ^ 63 -> to_long z = z.
Proof. intros H. unfold to_long. rewrite Z.mod_small; lia. Qed.

Lemma to_short_id (z : Z) : - 2 ^ 15 <= z < 2 ^ 15 -> to_short z = z.
Proof. intros H. unfold to_short. rewrite Z.mod_small; lia. Qed.

Lemma to_size_t_range (z : Z) : 0 <= to_size_t z < 2 ^ 64.
Proof. unfold to_size_t. apply Z.mod_pos_bound. lia. Qed.

(** ** Array: [Resize] *)

Section ArrayFacts.
Context {T : Type}.
Variable fresh : T.

Lemma length_create (n : nat) : length (Array.create fresh n) = n.
Proof. apply length_replicate. Qed.

(** The copying loop, stopped after [k] rounds. *)
Lemma Resize_loop (this : list T) (k : nat) (resized : list T) :
  (k <= length this)%nat -> (k <= length resized)%nat ->
  fold_left
    (fun resizedArray i =>
       match this !! i with
       | Some x => <[ i := x ]> resizedArray
       | None => resizedArray
       end) (seq 0 k) resized
  = take k this ++ drop k resized.
Proof.
  induction k as [|k IH]; intros Hthis Hres.
  - simpl. rewrite drop_0. reflexivity.
  - rewrite seq_S, fold_left_app. simpl. rewrite IH by lia.
    destruct (lookup_lt_is_Some_2 this k ltac:(lia)) as [x Hx].
    rewrite Hx.
    rewrite (take_S_r _ _ _ Hx).
    assert (Hlen : length (take k this) = k) by (rewrite length_take; lia).
    rewrite insert_app_r_alt by lia. rewrite Hlen, Nat.sub_diag.
    destruct (lookup_lt_is_Some_2 resized k ltac:(lia)) as [y Hy].
    rewrite (drop_S _ _ _ Hy). simpl. rewrite <- app_assoc. reflexivity.
Qed.

Lemma Resize_eq (this : list T) (n : nat) :
  Array.Resize fresh this n = take n this ++ replicate (n - length this) fresh.
Proof.
  unfold Array.Resize, Array.create.
  rewrite Resize_loop by (rewrite ?length_replicate; lia).
  rewrite drop_replicate.
  destruct (Nat.le_gt_cases (length this) n) as [Hle|Hgt].
  - rewrite Nat.min_l by lia. rewrite !take_ge by lia. reflexivity.
  - rewrite Nat.min_r by lia.
    replace (n - n)%nat with 0%nat by lia.
    replace (n - length this)%nat with 0%nat by lia. reflexivity.
Qed.

Lemma length_Resize (this : list T) (n : nat) :
  length (Array.Resize fresh this n) = n.
Proof.
  rewrite Resize_eq, length_app, length_take, length_replicate. lia.
Qed.

Lemma Resize_lookup_prefix (this : list T) (n i : nat) :
  (i < n)%nat -> (i < length this)%nat ->
  Array.Resize fresh this n !! i = this !! i.
Proof.
  intros Hn Hi. rewrite Resize_eq.
  rewrite lookup_app_l by (rewrite length_take; lia).
  apply lookup_take_lt. lia.
Qed.

Lemma Resize_lookup_trailing (this : list T) (n i : nat) :
  (length this <= i < n)%nat ->
  Array.Resize fresh this n !! i = Some fresh.
Proof.
  intros Hi. rewrite Resize_eq.
  rewrite lookup_app_r by (rewrite length_take; lia).
  apply lookup_replicate_2. rewrite length_take. lia.
Qed.

(** The default value never reaches the result. *)
Lemma Resize_with_default_eq (this : list T) (n : nat) (defaultValue : T) :
  Array.Resize_with_default fresh this n defaultValue = Array.Resize fresh this n.
Proof.
  unfold Array.Resize_with_default. rewrite Nat.leb_refl. reflexivity.
Qed.

End ArrayFacts.

(** C6.  [Resize(newLength, default)] returns an array of length
    [newLength] whose overlapping prefix is copied from the source, but
    its trailing slots are not set to the default value: whatever the
    default, they hold what [new T[newLength]] left there.  On the array
    of strings ["a"], [Resize(3, "x")] returns ["a"; ""; ""], not
    ["a"; "x"; "x"]. *)
Theorem C6_Resize_with_default_never_writes_the_default :
  (forall (T : Type) (fresh : T) (this : list T) (newLength : nat) (defaultValue : T),
      Array.Resize_with_default fresh this newLength defaultValue
      = take newLength this ++ replicate (newLength - length this) fresh)
  /\ Array.Resize_with_default ""%string ["a"%string] 3 "x"%string
     = ["a"%string; ""%string; ""%string].
Proof.
  split.
  - intros T fresh this newLength defaultValue.
    rewrite Resize_with_default_eq. apply Resize_eq.
  - reflexivity.
Qed.

(** ** Construction: default parameters and allocated capacity *)

Section Construction.
Context {TKey TValue : Type}.
Variable sizeof_TKey : Z.

Lemma ValidateThreshold_ok (threshold : Q) :
  (0 < threshold)%Q -> (threshold <= 1)%Q ->
  HashTable.ValidateThreshold threshold tt = Returns tt tt.
Proof.
  intros Hpos Hle. unfold HashTable.ValidateThreshold, HashTable.Qlt_bool.
  destruct (Qle_bool threshold 0) eqn:H0.
  - apply Qle_bool_iff in H0. exfalso. exact (Qlt_not_le _ _ Hpos H0).
  - apply Qle_bool_iff in Hle. rewrite Hle. reflexivity.
Qed.

Lemma round_up_exact (n m : Z) :
  0 <= n -> 0 < m -> (n / m + 1) * m <= SIZE_MAX ->
  DynamicArray.round_up n m = (n / m + 1) * m.
Proof.
  intros Hn Hm Hfit. unfold DynamicArray.round_up, SIZE_MAX in *.
  assert (0 <= n / m) by (apply Z.div_pos; lia).
  assert (n / m + 1 <= (n / m + 1) * m) by nia.
  rewrite (to_size_t_id (n / m + 1)) by lia.
  apply to_size_t_id. nia.
Qed.

Lemma round_up_above (n m : Z) : 0 < m -> n < (n / m + 1) * m.
Proof.
  intros Hm. pose proof (Z.div_mod n m ltac:(lia)).
  pose proof (Z.mod_pos_bound n m Hm). nia.
Qed.

Lemma round_up_of_multiple (n m : Z) :
  0 < m -> n mod m = 0 -> (n / m + 1) * m = n + m.
Proof.
  intros Hm Hmod. pose proof (Z.div_mod n m ltac:(lia)). nia.
Qed.

Lemma DynamicArray_create_ok {T : Type} (fresh : T) (max_length c m : Z) :
  0 <= c -> 0 < m -> (c / m + 1) * m <= SIZE_MAX ->
  (c / m + 1) * m <= max_length ->
  DynamicArray.create fresh max_length c m tt
  = Returns
      {| DynamicArray.capacity := (c / m + 1) * m;
         DynamicArray.capacityModifier := m;
         DynamicArray.count := 0;
         DynamicArray.array := Array.create fresh (Z.to_nat ((c / m + 1) * m)) |}
      tt.
Proof.
  intros Hc Hm Hfit Hroom. unfold DynamicArray.create, Array.new_array, bind.
  destruct (Z.eqb_spec m 0) as [->|_]; [lia|].
  rewrite round_up_exact by assumption.
  destruct (Z.ltb_spec max_length ((c / m + 1) * m)); [lia|]. reflexivity.
Qed.

Lemma DynamicArray_create_too_long {T : Type} (fresh : T) (max_length c m : Z) :
  0 <= c -> 0 < m -> (c / m + 1) * m <= SIZE_MAX ->
  max_length < (c / m + 1) * m ->
  DynamicArray.create fresh max_length c m tt = Throws bad_alloc tt.
Proof.
  intros Hc Hm Hfit Hlong. unfold DynamicArray.create, Array.new_array, bind.
  destruct (Z.eqb_spec m 0) as [->|_]; [lia|].
  rewrite round_up_exact by assumption.
  destruct (Z.ltb_spec max_length ((c / m + 1) * m)); [reflexivity|lia].
Qed.

End Construction.

(** C8, as stated, fails: the table the default constructor builds has 200
    buckets, not 500. *)
Lemma C8_default_bucket_count_is_not_500 :
  ~ (HashTable.Capacity (@HashTable.create_default Z Z) = 500
     /\ HashTable.CapacityModifier (@HashTable.create_default Z Z) = 200
     /\ HashTable.Threshold (@HashTable.create_default Z Z) = (3 # 4)%Q).
Proof. intros [H _]. discriminate H. Qed.

(** C8, amended.  A hash table built by the default constructor has 200
    buckets (in both parallel arrays), a growth increment of 200 and a
    load-factor threshold of 0.75; 500 is the growth increment that the
    other constructor takes when only a capacity is given (it then
    returns a table with that increment and the threshold 0.75, unless
    the machine does not provide the arrays). *)
Theorem C8_default_parameters (TKey TValue : Type) :
  let table := @HashTable.create_default TKey TValue in
  HashTable.Capacity table = 200
  /\ length (DynamicArray.array (HashTable.keys table)) = 200%nat
  /\ length (DynamicArray.array (HashTable.values table)) = 200%nat
  /\ HashTable.CapacityModifier table = 200
  /\ HashTable.Threshold table = (3 # 4)%Q
  /\ HashTable.INITIAL_THRESHOLD = (3 # 4)%Q
  /\ HashTable.INITIAL_CAPACITY = 500
  /\ forall max_length capacity : Z,
       if max_length <? DynamicArray.round_up capacity HashTable.INITIAL_CAPACITY
       then
         HashTable.create (TKey := TKey) (TValue := TValue) max_length capacity
           HashTable.INITIAL_THRESHOLD HashTable.INITIAL_CAPACITY
           Murmur.MurmurHashingAlgorithm 0 tt = Throws bad_alloc tt
       else
         exists table',
           HashTable.create (TKey := TKey) (TValue := TValue) max_length capacity
             HashTable.INITIAL_THRESHOLD HashTable.INITIAL_CAPACITY
             Murmur.MurmurHashingAlgorithm 0 tt = Returns table' tt
           /\ HashTable.CapacityModifier table' = 500
           /\ HashTable.Threshold table' = (3 # 4)%Q.
Proof.
  cbv zeta. do 7 (split; [reflexivity|]).
  intros max_length capacity.
  unfold HashTable.create, DynamicArray.create, Array.new_array, bind.
  change (HashTable.ValidateThreshold HashTable.INITIAL_THRESHOLD tt)
    with (Returns (S := unit) tt tt).
  change (HashTable.INITIAL_CAPACITY =? 0) with false. cbv iota.
  destruct (max_length <? DynamicArray.round_up capacity HashTable.INITIAL_CAPACITY).
  - reflexivity.
  - eexists. split; [reflexivity|]. split; reflexivity.
Qed.

(** C10, as stated, fails: asked for 2^64 - 1 slots with increment 1, the
    constructor computes a capacity of 0 (the [size_t] sum wraps around),
    which is not above the requested capacity.  (The machine of this
    example provides arrays of up to 2^32 elements; the array of length 0
    is provided by any.) *)
Lemma C10_capacity_wraps_around :
  exists a,
    DynamicArray.create (T := Z) 0 (2 ^ 32) (2 ^ 64 - 1) 1 tt = Returns a tt
    /\ DynamicArray.capacity a = 0
    /\ ~ (2 ^ 64 - 1 < DynamicArray.capacity a)
    /\ DynamicArray.capacity a <> ((2 ^ 64 - 1) / 1 + 1) * 1.
Proof.
  eexists. split; [reflexivity|].
  split; [reflexivity|]. split.
  - intros H. vm_compute in H. discriminate H.
  - intros H. vm_compute in H. discriminate H.
Qed.

(** C10, amended.  For every requested capacity [c] and growth increment
    [m >= 1] such that [(floor(c/m) + 1) * m] fits in [size_t], that
    number is strictly greater than [c] (a full extra increment when [c]
    is a multiple of [m]).  Where the machine provides an array of that
    many elements, the constructor of the growable array allocates
    exactly this capacity, and the hash table built on it reduces every
    bucket index modulo this capacity, not modulo [c]; where it does not,
    both constructors leave by the exception of the allocation and no
    container is built. *)
Theorem C10_allocated_capacity (TKey TValue : Type) (sizeof_TKey : Z)
    (max_length c m : Z) (threshold : Q) (hashingAlgorithm : Z -> Z -> Z)
    (hashingSeed : Z) :
  0 <= c -> 0 < m -> (c / m + 1) * m <= SIZE_MAX ->
  (0 < threshold)%Q -> (threshold <= 1)%Q ->
  let actual := (c / m + 1) * m in
  c < actual
  /\ (c mod m = 0 -> actual = c + m)
  /\ (actual <= max_length ->
      (exists a,
          DynamicArray.create (LinkedList.create (T := TKey) false) max_length c m tt
          = Returns a tt
          /\ DynamicArray.capacity a = actual
          /\ length (DynamicArray.array a) = Z.to_nat actual)
      /\ exists table,
           HashTable.create (TKey := TKey) (TValue := TValue) max_length c threshold m
             hashingAlgorithm hashingSeed tt = Returns table tt
           /\ HashTable.Capacity table = actual
           /\ length (DynamicArray.array (HashTable.keys table)) = Z.to_nat actual
           /\ length (DynamicArray.array (HashTable.values table)) = Z.to_nat actual
           /\ forall key : HashTable.reference TKey,
                HashTable.bucket_index sizeof_TKey key table
                = Returns
                    (to_size_t
                       (hashingAlgorithm (HashTable.rawHashing sizeof_TKey key) hashingSeed)
                     mod actual)
                    table)
  /\ (max_length < actual ->
      DynamicArray.create (LinkedList.create (T := TKey) false) max_length c m tt
      = Throws bad_alloc tt
      /\ HashTable.create (TKey := TKey) (TValue := TValue) max_length c threshold m
           hashingAlgorithm hashingSeed tt = Throws bad_alloc tt).
Proof.
  intros Hc Hm Hfit Hpos Hle actual.
  pose proof (round_up_above c m Hm) as Habove.
  split; [exact Habove|]. split; [apply round_up_of_multiple; exact Hm|]. split.
  - intros Hroom. split.
    + eexists. split; [apply DynamicArray_create_ok; assumption|].
      split; [reflexivity|]. simpl. apply length_create.
    + unfold HashTable.create, bind.
      rewrite ValidateThreshold_ok by assumption.
      rewrite !DynamicArray_create_ok by assumption.
      eexists. split; [reflexivity|].
      split; [reflexivity|].
      split; [apply length_create|]. split; [apply length_create|].
      intros key. unfold HashTable.bucket_index, bind, get_state. simpl.
      fold actual.
      destruct (Z.eqb_spec actual 0) as [E|_]; [lia|]. reflexivity.
  - intros Hlong. split.
    + apply DynamicArray_create_too_long; assumption.
    + unfold HashTable.create, bind.
      rewrite ValidateThreshold_ok by assumption.
      rewrite DynamicArray_create_too_long by assumption. reflexivity.
Qed.

Lemma C10_allocated_capacity_witness :
  (exists table,
      HashTable.create (TKey := Z) (TValue := Z) (2 ^ 32) 400 (3 # 4) 200
        Murmur.MurmurHashingAlgorithm 0 tt = Returns table tt
      /\ HashTable.Capacity table = 600)
  /\ HashTable.create (TKey := Z) (TValue := Z) (2 ^ 32) (2 ^ 62) (3 # 4) 1
       Murmur.MurmurHashingAlgorithm 0 tt = Throws bad_alloc tt.
Proof.
  split.
  - destruct (C10_allocated_capacity Z Z 8 (2 ^ 32) 400 200 (3 # 4)
                Murmur.MurmurHashingAlgorithm 0
                ltac:(lia) ltac:(lia) ltac:(vm_compute; discriminate)
                ltac:(reflexivity) ltac:(discriminate))
      as (_ & _ & Hroom & _).
    destruct (Hroom ltac:(vm_compute; discriminate))
      as (_ & table & Hcreate & Hcapacity & _).
    exists table. split; [exact Hcreate | exact Hcapacity].
  - destruct (C10_allocated_capacity Z Z 8 (2 ^ 32) (2 ^ 62) 1 (3 # 4)
                Murmur.MurmurHashingAlgorithm 0
                ltac:(lia) ltac:(lia) ltac:(vm_compute; discriminate)
                ltac:(reflexivity) ltac:(discriminate))
      as (_ & _ & _ & Hlong).
    exact (proj2 (Hlong ltac:(vm_compute; reflexivity))).
Defined.

(** ** The hash: from the text manipulation to the digits *)

Module MurmurFacts.
Import Murmur.

Lemma bits_text_snoc (bits : list bool) (b : bool) (acc : string) :
  (bits_text (bits ++ [b]) ++ acc)%string
  = (bits_text bits ++ String (bit_char b) acc)%string.
Proof.
  induction bits as [|b' bits IH]; simpl; [reflexivity|]. rewrite IH. reflexivity.
Qed.

Lemma length_bits_text (bits : list bool) :
  String.length (bits_text bits) = length bits.
Proof. induction bits as [|b bits IH]; simpl; congruence. Qed.

Lemma ToBinary_loop_zero (fuel : nat) (acc : string) :
  ToBinary_loop fuel 0 acc = acc.
Proof. destruct fuel; reflexivity. Qed.

Lemma ToBinary_loop_positive (p : positive) :
  forall (fuel : nat) (acc : string),
    (length (bits_of_positive p) <= fuel)%nat ->
    ToBinary_loop fuel (Zpos p) acc
    = (bits_text (bits_of_positive p) ++ acc)%string.
Proof.
  induction p as [q IH|q IH|]; intros fuel acc Hfuel; simpl in Hfuel;
    rewrite ?length_app in Hfuel; simpl in Hfuel.
  - destruct fuel as [|fuel]; [lia|]. simpl ToBinary_loop.
    assert (Hq : Z.quot (Zpos q~1) BASE = Zpos q)
      by (symmetry; apply Z.quot_unique with (r := 1); unfold BASE; lia).
    assert (Hr : Z.rem (Zpos q~1) BASE = 1)
      by (symmetry; apply Z.rem_unique with (q := Zpos q); unfold BASE; lia).
    rewrite Hq, Hr, IH by lia. simpl bits_of_positive.
    rewrite bits_text_snoc. reflexivity.
  - destruct fuel as [|fuel]; [lia|]. simpl ToBinary_loop.
    assert (Hq : Z.quot (Zpos q~0) BASE = Zpos q)
      by (symmetry; apply Z.quot_unique with (r := 0); unfold BASE; lia).
    assert (Hr : Z.rem (Zpos q~0) BASE = 0)
      by (symmetry; apply Z.rem_unique with (q := Zpos q); unfold BASE; lia).
    rewrite Hq, Hr, IH by lia. simpl bits_of_positive.
    rewrite bits_text_snoc. reflexivity.
  - destruct fuel as [|fuel]; [lia|]. simpl.
    rewrite ToBinary_loop_zero. reflexivity.
Qed.

Lemma length_bits_of_positive (p : positive) :
  length (bits_of_positive p) = S (Z.to_nat (Z.log2 (Zpos p))).
Proof.
  induction p as [q IH|q IH|]; simpl bits_of_positive;
    rewrite ?length_app, ?IH; simpl length.
  - change (Zpos q~1) with (2 * Zpos q + 1).
    rewrite Z.log2_succ_double by lia.
    pose proof (Z.log2_nonneg (Zpos q)). lia.
  - change (Zpos q~0) with (2 * Zpos q).
    rewrite Z.log2_double by lia.
    pose proof (Z.log2_nonneg (Zpos q)). lia.
  - reflexivity.
Qed.

Lemma length_binary_representation (v : Z) :
  0 <= v <= LONG_MAX -> (length (binary_representation v) <= 63)%nat.
Proof.
  intros Hv. destruct v as [|p|p]; simpl; try lia.
  rewrite length_bits_of_positive.
  assert (Z.log2 (Zpos p) < 63)
    by (apply Z.log2_lt_pow2; unfold LONG_MAX in Hv; lia).
  pose proof (Z.log2_nonneg (Zpos p)). lia.
Qed.

(** The binary text of a non-negative number is its binary
    representation, most significant bit first. *)
Lemma ToBinary_nonneg (v : Z) :
  0 <= v -> ToBinary v = bits_text (binary_representation v).
Proof.
  intros Hv. unfold ToBinary. destruct v as [|p|p]; [reflexivity| |lia].
  change (Z.abs (Zpos p)) with (Zpos p). rewrite ToBinary_loop_positive.
  - simpl. generalize (bits_text (bits_of_positive p)).
    intros s. induction s as [|c s IH]; simpl; congruence.
  - rewrite length_bits_of_positive. apply Nat.le_refl.
Qed.

Lemma substring_bits_text (bits : list bool) :
  forall n m : nat,
    String.substring n m (bits_text bits) = bits_text (take m (drop n bits)).
Proof.
  induction bits as [|b bits IH]; intros n m.
  - destruct n, m; reflexivity.
  - destruct n as [|n].
    + destruct m as [|m]; [reflexivity|]. simpl. rewrite IH. reflexivity.
    + simpl. apply IH.
Qed.

Lemma fold_left_add_shift {A : Type} (F : A -> Z) (l : list A) (a : Z) :
  fold_left (fun acc i => acc + F i) l a
  = a + fold_left (fun acc i => acc + F i) l 0.
Proof.
  revert a. induction l as [|x l IH]; intros a; simpl; [lia|].
  rewrite (IH (a + F x)), (IH (0 + F x)). lia.
Qed.

Lemma group_value_cons (b : bool) (group : list bool) :
  group_value (b :: group)
  = Z.b2z b * 2 ^ Z.of_nat (length group) + group_value group.
Proof.
  unfold group_value. simpl fold_left.
  generalize (Z.b2z b). intros a.
  change (2 * 0 + a) with a.
  revert a. induction group as [|c group IH] using rev_ind; intros a.
  - simpl. lia.
  - rewrite !fold_left_app. simpl fold_left. rewrite IH.
    rewrite length_app. simpl length.
    rewrite Nat2Z.inj_add, Z.pow_add_r by lia. lia.
Qed.

Lemma ToDecimal_bits_text (group : list bool) :
  ToDecimal (bits_text group) = group_value group.
Proof.
  induction group as [|b group IH]; [reflexivity|].
  rewrite group_value_cons, <- IH. unfold ToDecimal.
  simpl String.length. rewrite <- cons_seq. simpl fold_left.
  rewrite fold_left_add_shift. rewrite <- seq_shift.
  rewrite length_bits_text.
  f_equal.
  - unfold char_code. simpl String.get. rewrite ?Nat.sub_0_r.
    destruct b; simpl bit_char; simpl Z.b2z;
      change (Z.of_nat (nat_of_ascii "1")) with 49;
      change (Z.of_nat (nat_of_ascii "0")) with 48; lia.
  - generalize 0 at 1 2. generalize (seq 0%nat (length group)).
    intros l. induction l as [|i l IHl]; intros a; [reflexivity|].
    simpl map. simpl fold_left. rewrite <- IHl. reflexivity.
Qed.

(** Writing slot after slot is a [map]. *)
Lemma fill_slots {A : Type} (F : nat -> A) (k : nat) :
  forall slots : list A,
    (k <= length slots)%nat ->
    fold_left (fun slots i => <[ i := F i ]> slots) (seq 0 k) slots
    = map F (seq 0 k) ++ drop k slots.
Proof.
  induction k as [|k IH]; intros slots Hk.
  - simpl. rewrite drop_0. reflexivity.
  - rewrite seq_S, fold_left_app, map_app. simpl. rewrite IH by lia.
    rewrite insert_app_r_alt by (rewrite length_map, length_seq; lia).
    rewrite length_map, length_seq, Nat.sub_diag.
    destruct (lookup_lt_is_Some_2 slots k ltac:(lia)) as [y Hy].
    rewrite (drop_S _ _ _ Hy). simpl. rewrite <- app_assoc. reflexivity.
Qed.

Lemma four_bit_groups_eq (bits : list bool) :
  forall n : nat,
    (length bits <= 4 * n)%nat ->
    four_bit_groups bits
    = map (fun i => take 4 (drop (i * 4) bits)) (seq 0 ((length bits + 3) / 4)).
Proof.
  intros n. revert bits.
  induction n as [|n IH]; intros bits Hlen.
  - destruct bits; [reflexivity|simpl in Hlen; lia].
  - destruct bits as [|b3 [|b2 [|b1 [|b0 rest]]]]; try reflexivity.
    simpl four_bit_groups. simpl length.
    replace (S (S (S (S (length rest)))) + 3)%nat
      with (length rest + 3 + 1 * 4)%nat by lia.
    rewrite Nat.div_add by lia.
    rewrite Nat.add_1_r, <- cons_seq. simpl map at 1.
    f_equal. rewrite <- seq_shift, map_map.
    rewrite IH by (simpl in Hlen; lia).
    apply map_ext. intros i.
    replace (S i * 4)%nat with (4 + i * 4)%nat by lia.
    reflexivity.
Qed.

Lemma group_value_bound (group : list bool) :
  0 <= group_value group < 2 ^ Z.of_nat (length group).
Proof.
  induction group as [|b group IH].
  - simpl. unfold group_value. simpl. lia.
  - rewrite group_value_cons. simpl length.
    rewrite Nat2Z.inj_succ, Z.pow_succ_r by lia.
    destruct b; simpl Z.b2z; lia.
Qed.

(** The slots that [ToByteArray] fills hold the 4-bit digits. *)
Lemma ToByteArray_digits (v : Z) :
  0 <= v <= LONG_MAX -> ToByteArray v = digits v.
Proof.
  intros Hv. unfold ToByteArray, digits.
  rewrite ToBinary_nonneg by lia.
  pose proof (length_binary_representation v Hv) as Hlen.
  set (bits := binary_representation v) in *.
  rewrite length_bits_text.
  change (BIT_COUNT_IN_BYTE - 1)%nat with 3%nat.
  change BIT_COUNT_IN_BYTE with 4%nat.
  assert (Hcount : ((length bits + 3) / 4 < 17)%nat).
  { apply Nat.Div0.div_lt_upper_bound. lia. }
  rewrite to_short_id by lia. rewrite Nat2Z.id.
  rewrite fill_slots by (rewrite length_replicate; lia).
  rewrite drop_replicate, Nat.sub_diag. simpl replicate. rewrite app_nil_r.
  rewrite (four_bit_groups_eq bits 16) by lia.
  rewrite map_map. apply map_ext. intros i.
  rewrite substring_bits_text, ToDecimal_bits_text.
  apply to_short_id.
  pose proof (group_value_bound (take 4 (drop (i * 4) bits))) as Hb.
  assert (length (take 4 (drop (i * 4) bits)) <= 4)%nat
    by (rewrite length_take; lia).
  assert (2 ^ Z.of_nat (length (take 4 (drop (i * 4) bits))) <= 2 ^ 4)
    by (apply Z.pow_le_mono_r; lia).
  lia.
Qed.

End MurmurFacts.

Module MurmurRefinement.
Import Murmur MurmurFacts.

Lemma land_LONG_MAX (x : Z) : Z.land x LONG_MAX = x mod 2 ^ 63.
Proof. change LONG_MAX with (Z.ones 63). apply Z.land_ones. lia. Qed.

Lemma to_long_mod (y : Z) : to_long y mod 2 ^ 63 = y mod 2 ^ 63.
Proof.
  unfold to_long.
  pose proof (Z.div_mod (y + 2 ^ 63) (2 ^ 64) ltac:(lia)) as H.
  replace ((y + 2 ^ 63) mod 2 ^ 64 - 2 ^ 63)
    with (y + (- 2 * ((y + 2 ^ 63) / 2 ^ 64)) * 2 ^ 63) by lia.
  apply Z.mod_add. lia.
Qed.

Lemma round_at (h : Z) (pre : list Z) (x : Z) (post : list Z) :
  round (h, pre ++ x :: post) (length pre)
  = (fold_digit h x, (pre ++ [mix_digit x]) ++ post).
Proof.
  unfold round, fold_digit, mix_digit.
  rewrite list_lookup_total_middle by reflexivity.
  rewrite !land_LONG_MAX, to_long_mod.
  f_equal.
  rewrite <- (Nat.add_0_r (length pre)), insert_app_r. simpl.
  rewrite <- app_assoc. reflexivity.
Qed.

(** The range-for loop over the slots is a left fold over the digits. *)
Lemma rounds_fold (post : list Z) :
  forall (pre : list Z) (h : Z),
    fst (fold_left round (seq (length pre) (length post)) (h, pre ++ post))
    = fold_left fold_digit post h.
Proof.
  induction post as [|x post IH]; intros pre h; [reflexivity|].
  cbn [length]. rewrite <- cons_seq. cbn [fold_left].
  rewrite round_at.
  replace (S (length pre)) with (length (pre ++ [mix_digit x]))
    by (rewrite length_app; simpl; lia).
  apply IH.
Qed.

Lemma avalanche_eq (h : Z) :
  (let hashValue := Z.lxor h (Z.shiftr h SHIFTING_RATE) in
   let hashValue := Z.land (to_long (hashValue * PRIME)) LONG_MAX in
   Z.lxor hashValue (Z.shiftr hashValue SHIFTING_RATE))
  = avalanche h.
Proof. cbv zeta. unfold avalanche. rewrite land_LONG_MAX, to_long_mod. reflexivity. Qed.

Lemma MurmurHashingAlgorithm_fold (rawHashing seed : Z) :
  MurmurHashingAlgorithm rawHashing seed
  = avalanche
      (fold_left fold_digit (ToByteArray rawHashing)
         (to_long (Z.lxor seed (decimal_length rawHashing)))).
Proof.
  unfold MurmurHashingAlgorithm. cbv zeta.
  pose proof (rounds_fold (ToByteArray rawHashing) []
                (to_long (Z.lxor seed (Z.of_nat (String.length (to_string rawHashing))))))
    as H.
  simpl app in H. simpl length in H at 1.
  destruct (fold_left round _ _) as [h bytes]. simpl in H. subst h.
  rewrite land_LONG_MAX, to_long_mod. reflexivity.
Qed.

(** The hash is never negative. *)
Lemma avalanche_nonneg (h : Z) : 0 <= avalanche h < 2 ^ 63.
Proof.
  unfold avalanche. cbv zeta.
  set (a := (Z.lxor h (Z.shiftr h SHIFTING_RATE) * PRIME) mod 2 ^ 63).
  assert (Ha : 0 <= a < 2 ^ 63) by (apply Z.mod_pos_bound; lia).
  assert (Hs : 0 <= Z.shiftr a SHIFTING_RATE < 2 ^ 63).
  { rewrite Z.shiftr_div_pow2 by (unfold SHIFTING_RATE; lia). split.
    - apply Z.div_pos; [lia|]. unfold SHIFTING_RATE. lia.
    - apply Z.div_lt_upper_bound; unfold SHIFTING_RATE; lia. }
  split.
  - apply Z.lxor_nonneg. lia.
  - destruct (Z.eq_dec (Z.lxor a (Z.shiftr a SHIFTING_RATE)) 0) as [->|Hne]; [lia|].
    apply Z.log2_lt_pow2.
    + assert (0 <= Z.lxor a (Z.shiftr a SHIFTING_RATE)) by (apply Z.lxor_nonneg; lia).
      lia.
    + eapply Z.le_lt_trans; [apply Z.log2_lxor; lia|].
      apply Z.max_lub_lt.
      * destruct (Z.eq_dec a 0) as [->|]; [simpl; lia|].
        apply Z.log2_lt_pow2; lia.
      * destruct (Z.eq_dec (Z.shiftr a SHIFTING_RATE) 0) as [->|]; [simpl; lia|].
        apply Z.log2_lt_pow2; lia.
Qed.

Lemma MurmurHashingAlgorithm_range (rawHashing seed : Z) :
  0 <= MurmurHashingAlgorithm rawHashing seed < 2 ^ 63.
Proof. rewrite MurmurHashingAlgorithm_fold. apply avalanche_nonneg. Qed.

End MurmurRefinement.

(** C5, as stated, fails: for the raw value 0 there is no 4-bit digit, so
    an accumulator started from [seed XOR digit count] gives 0 with seed
    0, while the code returns 2003. *)
Lemma C5_hash_of_zero_differs :
  Murmur.MurmurHashingAlgorithm 0 0 = 2003
  /\ Murmur.Hash_seeded_by_digit_count 0 0 = 0
  /\ Murmur.MurmurHashingAlgorithm 0 0 <> Murmur.Hash_seeded_by_digit_count 0 0.
Proof. vm_compute. repeat split. discriminate. Qed.

(** C5, amended.  For every non-negative raw value (a [long]) and every
    seed, the hash equals the computation that splits the binary
    representation of the raw value into 4-bit digits, initialises the
    accumulator to the seed XOR the number of characters of the decimal
    text of the raw value, folds each digit in from the most significant
    to the least significant by the prime-multiply, mask and shift-XOR
    steps (a digit being mixed in its 16-bit slot), and finishes with the
    avalanche. *)
Theorem C5_hash_refines_digit_fold (rawValue seed : Z) :
  0 <= rawValue <= LONG_MAX ->
  Murmur.MurmurHashingAlgorithm rawValue seed
  = Murmur.Hash_seeded_by_decimal_length rawValue seed.
Proof.
  intros Hraw.
  rewrite MurmurRefinement.MurmurHashingAlgorithm_fold.
  rewrite MurmurFacts.ToByteArray_digits by exact Hraw.
  reflexivity.
Qed.

Lemma C5_hash_refines_digit_fold_witness :
  0 <= 1000 <= LONG_MAX
  /\ Murmur.MurmurHashingAlgorithm 1000 7
     = Murmur.Hash_seeded_by_decimal_length 1000 7.
Proof.
  split.
  - unfold LONG_MAX. lia.
  - apply (C5_hash_refines_digit_fold 1000 7). unfold LONG_MAX. lia.
Defined.

(** A negative raw value has no such digits: the text that [ToBinary]
    builds for it contains minus signs, which [ToDecimal] reads as the
    digit -3. *)
Example hash_of_a_negative_raw_value :
  Murmur.ToBinary (-5) = "-10-1"%string
  /\ Murmur.ToByteArray (-5) = [-23; 1]
  /\ Murmur.MurmurHashingAlgorithm (-5) 0
     <> Murmur.Hash_seeded_by_decimal_length (-5) 0.
Proof. vm_compute. repeat split. discriminate. Qed.

(** A digit does not keep its product: with raw value 1 the digit count
    and the decimal length agree, and the hash still differs from the one
    computed without the reduction of the digit to 16 bits. *)
Example digit_is_reduced_to_16_bits :
  Murmur.mix_digit 1 = 14313
  /\ ((1 * Murmur.PRIME) mod 2 ^ 63 * Murmur.PRIME) mod 2 ^ 63 = 4012009.
Proof. vm_compute. split; reflexivity. Qed.

(** ** Running an operation step by step *)

Section Steps.
Context {S A B : Type}.

Lemma bind_ret (a : A) (k : A -> M S B) (s : S) : bind (ret a) k s = k a s.
Proof. reflexivity. Qed.

Lemma bind_get_state (k : S -> M S B) (s : S) : bind get_state k s = k s s.
Proof. reflexivity. Qed.

Lemma bind_put_state (s' : S) (k : unit -> M S B) (s : S) :
  bind (put_state s') k s = k tt s'.
Proof. reflexivity. Qed.

Lemma bind_throw (e : exception) (k : A -> M S B) (s : S) :
  bind (throw e) k s = Throws e s.
Proof. reflexivity. Qed.

Lemma bind_Returns (m : M S A) (k : A -> M S B) (s s' : S) (a : A) :
  m s = Returns a s' -> bind m k s = k a s'.
Proof. intros H. unfold bind. rewrite H. reflexivity. Qed.

Lemma bind_Throws (m : M S A) (k : A -> M S B) (s s' : S) (e : exception) :
  m s = Throws e s' -> bind m k s = Throws e s'.
Proof. intros H. unfold bind. rewrite H. reflexivity. Qed.

End Steps.

Lemma bind_assoc {S A B C : Type} (m : M S A) (k : A -> M S B) (k' : B -> M S C)
    (s : S) :
  bind (bind m k) k' s = bind m (fun a => bind (k a) k') s.
Proof. unfold bind. destruct (m s); reflexivity. Qed.

Section ListSteps.
Context {T B : Type}.

Lemma bind_modify (f : LinkedList.LinkedList T -> LinkedList.LinkedList T)
    (k : unit -> M (LinkedList.LinkedList T) B) (s : LinkedList.LinkedList T) :
  bind (LinkedList.modify f) k s = k tt (f s).
Proof. reflexivity. Qed.

Lemma bind_deref (i : nat) (n : LinkedList.Node T)
    (k : LinkedList.Node T -> M (LinkedList.LinkedList T) B)
    (s : LinkedList.LinkedList T) :
  LinkedList.store s !! i = Some n ->
  bind (LinkedList.deref (Some i)) k s = k n s.
Proof. intros H. unfold bind, LinkedList.deref. rewrite H. reflexivity. Qed.

Lemma bind_update (i : nat) (n : LinkedList.Node T)
    (f : LinkedList.Node T -> LinkedList.Node T)
    (k : unit -> M (LinkedList.LinkedList T) B) (s : LinkedList.LinkedList T) :
  LinkedList.store s !! i = Some n ->
  bind (LinkedList.update (Some i) f) k s
  = k tt (LinkedList.with_store (<[ i := f n ]> (LinkedList.store s)) s).
Proof. intros H. unfold bind, LinkedList.update. rewrite H. reflexivity. Qed.

End ListSteps.

(** ** Operations on chains built by [Add] *)

Module ChainFacts.
Import Chain.
Section ChainFacts.
Context {T : Type}.

Lemma position_lt (n i : nat) : (i < n)%nat -> position n i = Some i.
Proof. intros H. unfold position. destruct (Nat.ltb_spec i n); [reflexivity|lia]. Qed.

Lemma position_ge (n i : nat) : (n <= i)%nat -> position n i = None.
Proof. intros H. unfold position. destruct (Nat.ltb_spec i n); [lia|reflexivity]. Qed.

Lemma chain_nil : chain (@nil T) = LinkedList.create false.
Proof. reflexivity. Qed.

Lemma store_chain_lookup (xs : list T) (i : nat) :
  LinkedList.store (chain xs) !! i = node_at (length xs) i <$> xs !! i.
Proof. unfold chain. simpl. apply list_lookup_imap. Qed.

Lemma deref_chain (xs : list T) (i : nat) (x : T) :
  xs !! i = Some x ->
  LinkedList.deref (Some i) (chain xs) = Returns (node_at (length xs) i x) (chain xs).
Proof.
  intros H. unfold LinkedList.deref. rewrite store_chain_lookup, H. reflexivity.
Qed.

Lemma first_index_Some (p : T -> bool) (xs : list T) (i : nat) :
  first_index p xs = Some i ->
  exists x, xs !! i = Some x /\ p x = true
            /\ forall j y, (j < i)%nat -> xs !! j = Some y -> p y = false.
Proof.
  revert i. induction xs as [|x xs IH]; intros i H; simpl in H; [discriminate|].
  destruct (p x) eqn:Hp.
  - injection H as <-. exists x. repeat split; [exact Hp|]. intros j y Hj. lia.
  - destruct (first_index p xs) as [k|] eqn:Hk; simpl in H; [|discriminate].
    injection H as <-. destruct (IH k eq_refl) as (y & Hy & Hpy & Hbefore).
    exists y. repeat split; [exact Hy|exact Hpy|].
    intros [|j] z Hj Hz; simpl in Hz.
    + congruence.
    + apply (Hbefore j z); [lia|exact Hz].
Qed.

Lemma first_index_None (p : T -> bool) (xs : list T) :
  first_index p xs = None <-> forall x, x ∈ xs -> p x = false.
Proof.
  induction xs as [|x xs IH]; simpl.
  - split; [|reflexivity]. intros _ y Hy. inversion Hy.
  - destruct (p x) eqn:Hp.
    + split; [discriminate|]. intros H.
      assert (p x = false) by (apply H; apply elem_of_cons; left; reflexivity).
      congruence.
    + destruct (first_index p xs) as [k|]; simpl.
      * split; [discriminate|]. intros H.
        assert (Some k = None); [|discriminate].
        apply IH. intros y Hy. apply H. apply elem_of_cons. right. exact Hy.
      * split; [|reflexivity]. intros _ y Hy.
        apply elem_of_cons in Hy as [->|Hy]; [exact Hp|].
        destruct IH as [IH _]. apply (IH eq_refl). exact Hy.
Qed.

Lemma first_index_app_l (p : T -> bool) (xs ys : list T) (i : nat) :
  first_index p xs = Some i -> first_index p (xs ++ ys) = Some i.
Proof.
  revert i. induction xs as [|x xs IH]; intros i H; simpl in *; [discriminate|].
  destruct (p x); [exact H|].
  destruct (first_index p xs) as [k|]; simpl in *; [|discriminate].
  rewrite (IH k eq_refl). exact H.
Qed.

Lemma first_index_app_r (p : T -> bool) (xs ys : list T) :
  first_index p xs = None ->
  first_index p (xs ++ ys) = (fun j => (length xs + j)%nat) <$> first_index p ys.
Proof.
  induction xs as [|x xs IH]; intros H; simpl in *.
  - destruct (first_index p ys); reflexivity.
  - destruct (p x); [discriminate|].
    destruct (first_index p xs) as [k|]; simpl in *; [discriminate|].
    rewrite (IH eq_refl). destruct (first_index p ys); reflexivity.
Qed.

Lemma first_index_lt (p : T -> bool) (xs : list T) (i : nat) :
  first_index p xs = Some i -> (i < length xs)%nat.
Proof.
  intros H. destruct (first_index_Some p xs i H) as (x & Hx & _).
  exact (lookup_lt_Some _ _ _ Hx).
Qed.

(** *** [Add] appends *)

Lemma store_Add_eq (xs : list T) (x : T) :
  let n := length xs in
  match n with
  | O => [ {| LinkedList.Data := x; LinkedList.previous := None;
              LinkedList.next := None; LinkedList.isConstructed := true |} ]
  | S m =>
      <[ m := LinkedList.with_next (Some n)
                (node_at n m (default x (xs !! m))) ]>
        (<[ n := LinkedList.with_previous (Some m)
                   {| LinkedList.Data := x; LinkedList.previous := None;
                      LinkedList.next := None; LinkedList.isConstructed := true |} ]>
           (imap (node_at n) xs ++
              [ {| LinkedList.Data := x; LinkedList.previous := None;
                   LinkedList.next := None; LinkedList.isConstructed := true |} ]))
  end
  = imap (node_at (length (xs ++ [x]))) (xs ++ [x]).
Proof.
  intros n. subst n. destruct (length xs) as [|m] eqn:Hlen.
  - destruct xs; [reflexivity|discriminate].
  - rewrite length_app, Hlen. simpl length. rewrite Nat.add_1_r.
    apply list_eq. intros i.
    rewrite list_lookup_imap.
    destruct (Nat.eq_dec i m) as [->|Him].
    + rewrite list_lookup_insert_eq
        by (rewrite length_insert, length_app, length_imap; simpl; lia).
      destruct (lookup_lt_is_Some_2 xs m ltac:(lia)) as [y Hy].
      rewrite lookup_app_l by lia. rewrite Hy. simpl.
      unfold node_at, LinkedList.with_next. simpl.
      rewrite (position_lt (S (S m)) (S m)) by lia. reflexivity.
    + rewrite list_lookup_insert_ne by lia.
      destruct (Nat.eq_dec i (S m)) as [->|HiS].
      * rewrite list_lookup_insert_eq by (rewrite length_app, length_imap; simpl; lia).
        rewrite lookup_app_r by lia. rewrite Hlen, Nat.sub_diag. simpl.
        unfold node_at, LinkedList.with_previous. simpl.
        rewrite position_ge by lia. reflexivity.
      * rewrite list_lookup_insert_ne by lia.
        destruct (Nat.lt_ge_cases i m) as [Hlt|Hge].
        -- rewrite !lookup_app_l by (rewrite ?length_imap; lia).
           rewrite list_lookup_imap.
           destruct (xs !! i) as [y|]; [|reflexivity]. simpl.
           unfold node_at. rewrite !position_lt by lia. reflexivity.
        -- rewrite !lookup_ge_None_2
             by (rewrite ?length_app, ?length_imap; simpl; lia).
           reflexivity.
Qed.

Lemma Add_loop_null (fuel : nat) :
  LinkedList.Add_loop (T := T) fuel None = ret tt.
Proof. destruct fuel; reflexivity. Qed.

Lemma Add_chain (xs : list T) (x : T) :
  LinkedList.Add x (chain xs) = Returns tt (chain (xs ++ [x])).
Proof.
  pose proof (store_Add_eq xs x) as Hstore. cbv zeta in Hstore.
  unfold LinkedList.Add.
  rewrite bind_get_state, bind_modify.
  unfold LinkedList.Add_node. cbn [negb]. rewrite bind_get_state.
  cbn [LinkedList.Add_loop].
  rewrite bind_get_state.
  set (fresh := {| LinkedList.Data := x; LinkedList.previous := None;
                   LinkedList.next := None; LinkedList.isConstructed := true |}) in *.
  cbn [chain LinkedList.with_store LinkedList.count LinkedList.store
       LinkedList.head LinkedList.tail LinkedList.ImprovableSearch].
  rewrite length_imap.
  destruct (length xs) as [|m] eqn:Hlen.
  - destruct xs; [|discriminate]. reflexivity.
  - destruct (Z.eqb_spec (Z.of_nat (S m)) 0) as [E|_]; [lia|].
    destruct (lookup_lt_is_Some_2 xs m ltac:(lia)) as [y Hy].
    rewrite Hy in Hstore. simpl default in Hstore.
    rewrite bind_assoc.
    rewrite (bind_deref (S m) fresh).
    2:{ cbn [LinkedList.store LinkedList.with_store].
        rewrite lookup_app_r by (rewrite length_imap; lia).
        rewrite length_imap, Hlen, Nat.sub_diag. reflexivity. }
    cbn [LinkedList.previous LinkedList.is_null fresh].
    rewrite !bind_assoc.
    rewrite (bind_update (S m) fresh).
    2:{ cbn [LinkedList.store LinkedList.with_store].
        rewrite lookup_app_r by (rewrite length_imap; lia).
        rewrite length_imap, Hlen, Nat.sub_diag. reflexivity. }
    rewrite ?bind_assoc.
    rewrite (bind_update m (node_at (S m) m y)).
    2:{ cbn [LinkedList.store LinkedList.with_store].
        rewrite list_lookup_insert_ne by lia.
        rewrite lookup_app_l by (rewrite length_imap; lia).
        rewrite list_lookup_imap, Hy. reflexivity. }
    rewrite bind_modify.
    rewrite (bind_deref (S m) (LinkedList.with_previous (Some m) fresh)).
    2:{ cbn [LinkedList.store LinkedList.with_store LinkedList.with_tail].
        rewrite list_lookup_insert_ne by lia.
        apply list_lookup_insert_eq. rewrite length_app, length_imap. simpl. lia. }
    rewrite bind_modify.
    cbn [LinkedList.next LinkedList.with_previous fresh].
    rewrite Add_loop_null. unfold ret. f_equal.
    unfold chain, LinkedList.with_count, LinkedList.with_tail, LinkedList.with_store.
    cbn [LinkedList.count LinkedList.store LinkedList.head LinkedList.tail
         LinkedList.ImprovableSearch].
    rewrite Hstore. rewrite length_app, Hlen. cbn [length]. rewrite Nat.add_1_r.
    f_equal. lia.
Qed.

(** *** Searching a chain *)

Lemma EveryNode_loop_chain (p : T -> bool) (xs : list T) :
  forall (k i fuel : nat),
    (i + k = length xs)%nat -> (k < fuel)%nat ->
    LinkedList.EveryNode_loop fuel (fun node => p (LinkedList.Data node)) true 1
      [None] 0 (position (length xs) i) (chain xs)
    = Returns
        (match first_index p (drop i xs) with
         | Some j => ([Some (i + j)%nat], 1)
         | None => ([None], 0)
         end)
        (chain xs).
Proof.
  induction k as [|k IH]; intros i fuel Hik Hfuel.
  - rewrite position_ge by lia. rewrite drop_ge by lia.
    destruct fuel; reflexivity.
  - destruct fuel as [|fuel]; [lia|].
    destruct (lookup_lt_is_Some_2 xs i ltac:(lia)) as [x Hx].
    rewrite position_lt by lia. rewrite (drop_S _ _ _ Hx).
    cbn [LinkedList.EveryNode_loop length Z.of_nat LinkedList.is_null negb andb
         first_index].
    change (0 <? Z.of_nat 1) with true. cbn [andb].
    rewrite (bind_deref i (node_at (length xs) i x)) by (rewrite store_chain_lookup, Hx; reflexivity).
    cbn [LinkedList.Data node_at LinkedList.next].
    destruct (p x) eqn:Hp; cbn [negb].
    + unfold Array.assign, Array.ValidateBoundaries.
      change (0 <? Z.of_nat (length [@None nat])) with true. cbv iota.
      rewrite !bind_assoc, !bind_ret, bind_get_state.
      change (negb (1 =? 0) && LinkedList.ImprovableSearch (chain xs)) with false.
      cbv iota. rewrite bind_ret.
      rewrite (bind_deref i (node_at (length xs) i x))
        by (rewrite store_chain_lookup, Hx; reflexivity).
      rewrite Nat.add_0_r.
      destruct fuel; reflexivity.
    + rewrite (IH (S i) fuel) by lia.
      destruct (first_index p (drop (S i) xs)) as [j|]; simpl;
        [rewrite Nat.add_succ_r|]; reflexivity.
Qed.

Section Equality.
Variable T_eqb : T -> T -> bool.

(** [FindFirstNode] returns the position of the first equal element and
    leaves the chain as it is. *)
Lemma FindFirstNode_chain (value : T) (xs : list T) :
  LinkedList.FindFirstNode T_eqb value (chain xs)
  = Returns (first_index (fun x => T_eqb x value) xs) (chain xs).
Proof.
  unfold LinkedList.FindFirstNode, LinkedList.FirstNode, LinkedList.EveryNode.
  rewrite !bind_assoc, bind_get_state.
  change (1 =? 0) with false. cbv iota.
  change (Array.create None (Z.to_nat 1)) with [@None nat].
  rewrite !bind_assoc.
  erewrite bind_Returns.
  2:{ cbn [chain LinkedList.head].
      apply (EveryNode_loop_chain (fun x => T_eqb x value) xs (length xs) 0).
      - lia.
      - cbn [chain LinkedList.store length]. rewrite length_imap. lia. }
  rewrite drop_0, bind_ret.
  destruct (first_index (fun x => T_eqb x value) xs) as [j|]; reflexivity.
Qed.

End Equality.

Lemma IndexOf_loop_chain (xs : list T) (i : nat) :
  forall (k j fuel : nat),
    (j + k = i)%nat -> (i < length xs)%nat -> (k < fuel)%nat ->
    LinkedList.IndexOf_loop fuel (Some i) (Some j) (Z.of_nat j) (chain xs)
    = Returns (Z.of_nat i) (chain xs).
Proof.
  induction k as [|k IH]; intros j fuel Hjk Hi Hfuel.
  - replace j with i by lia. destruct fuel; cbn [LinkedList.IndexOf_loop LinkedList.pointer_eqb];
      rewrite Nat.eqb_refl; reflexivity.
  - destruct fuel as [|fuel]; [lia|].
    cbn [LinkedList.IndexOf_loop LinkedList.pointer_eqb].
    destruct (Nat.eqb_spec j i) as [E|_]; [lia|].
    destruct (lookup_lt_is_Some_2 xs j ltac:(lia)) as [x Hx].
    rewrite (bind_deref j (node_at (length xs) j x))
      by (rewrite store_chain_lookup, Hx; reflexivity).
    cbn [LinkedList.next node_at]. rewrite position_lt by lia.
    replace (Z.of_nat j + 1) with (Z.of_nat (S j)) by lia.
    apply IH; lia.
Qed.

Lemma IndexOf_chain (xs : list T) (i : nat) :
  (i < length xs)%nat ->
  LinkedList.IndexOf (Some i) (chain xs) = Returns (Z.of_nat i) (chain xs).
Proof.
  intros Hi. unfold LinkedList.IndexOf. rewrite bind_get_state.
  cbn [chain LinkedList.head LinkedList.store]. rewrite position_lt by lia.
  apply (IndexOf_loop_chain xs i i 0); [lia|exact Hi|].
  rewrite length_imap. lia.
Qed.

Lemma walk_chain (xs : list T) :
  forall (k j : nat),
    (j + k < length xs)%nat ->
    LinkedList.walk k true (Some j) (chain xs) = Returns (Some (j + k)%nat) (chain xs).
Proof.
  induction k as [|k IH]; intros j Hjk.
  - rewrite Nat.add_0_r. reflexivity.
  - cbn [LinkedList.walk].
    destruct (lookup_lt_is_Some_2 xs j ltac:(lia)) as [x Hx].
    rewrite (bind_deref j (node_at (length xs) j x))
      by (rewrite store_chain_lookup, Hx; reflexivity).
    cbn [LinkedList.next node_at]. rewrite position_lt by lia.
    rewrite IH by lia. f_equal. f_equal. lia.
Qed.

Lemma NodeAt_chain (xs : list T) (index : Z) :
  0 <= index < Z.of_nat (length xs) ->
  LinkedList.NodeAt index true (chain xs)
  = Returns (Some (Z.to_nat index)) (chain xs).
Proof.
  intros Hi. unfold LinkedList.NodeAt, LinkedList.ValidateBoundaries.
  rewrite !bind_assoc, bind_get_state.
  cbn [chain LinkedList.count].
  destruct (Z.ltb_spec index (Z.of_nat (length xs))) as [_|E]; [|lia].
  rewrite bind_ret, bind_get_state.
  change (LinkedList.head (chain xs)) with (position (length xs) 0).
  rewrite position_lt by lia.
  apply (walk_chain xs (Z.to_nat index) 0). lia.
Qed.

Lemma NodeAt_chain_out_of_range (xs : list T) (index : Z) :
  Z.of_nat (length xs) <= index ->
  exists what, LinkedList.NodeAt index true (chain xs) = Throws (out_of_range what) (chain xs).
Proof.
  intros Hi. unfold LinkedList.NodeAt, LinkedList.ValidateBoundaries.
  rewrite !bind_assoc, bind_get_state.
  cbn [chain LinkedList.count].
  destruct (Z.ltb_spec index (Z.of_nat (length xs))) as [E|_]; [lia|].
  eexists. reflexivity.
Qed.

(** [node->Data = value] *)
Lemma update_Data_chain (xs : list T) (i : nat) (value : T) :
  (i < length xs)%nat ->
  LinkedList.update (Some i) (LinkedList.with_Data value) (chain xs)
  = Returns tt (chain (<[ i := value ]> xs)).
Proof.
  intros Hi. destruct (lookup_lt_is_Some_2 xs i Hi) as [x Hx].
  unfold LinkedList.update. rewrite store_chain_lookup, Hx. cbn [fmap option_fmap option_map].
  f_equal. unfold chain, LinkedList.with_store.
  cbn [LinkedList.count LinkedList.head LinkedList.tail LinkedList.ImprovableSearch
       LinkedList.store].
  rewrite length_insert. f_equal.
  apply list_eq. intros j. rewrite list_lookup_imap.
  destruct (Nat.eq_dec j i) as [->|Hne].
  - rewrite !list_lookup_insert_eq by (rewrite ?length_imap; lia). reflexivity.
  - rewrite !list_lookup_insert_ne by lia. rewrite list_lookup_imap. reflexivity.
Qed.

Lemma Data_deref_chain (xs : list T) (i : nat) (x : T) :
  xs !! i = Some x ->
  bind (LinkedList.deref (Some i)) (fun n => ret (LinkedList.Data n)) (chain xs)
  = Returns x (chain xs).
Proof.
  intros Hx. rewrite (bind_deref i (node_at (length xs) i x))
    by (rewrite store_chain_lookup, Hx; reflexivity).
  reflexivity.
Qed.

Lemma chain_inj (xs ys : list T) : chain xs = chain ys -> xs = ys.
Proof.
  intros H. apply (f_equal LinkedList.store) in H. cbn [chain LinkedList.store] in H.
  apply list_eq. intros i.
  apply (f_equal (fun l => LinkedList.Data <$> l !! i)) in H.
  rewrite !list_lookup_imap in H.
  destruct (xs !! i), (ys !! i); simpl in H; congruence.
Qed.

End ChainFacts.
End ChainFacts.

(** ** The operations of the hash table on chains *)

Module TableFacts.
Section TableFacts.
Context {TKey TValue : Type}.
Variable TKey_eqb : TKey -> TKey -> bool.
Variable sizeof_TKey : Z.

Abbreviation HashTable := (HashTable.HashTable TKey TValue).
Abbreviation reference := (HashTable.reference TKey).

Abbreviation bucket_of := (Table.bucket_of sizeof_TKey).
Abbreviation represents := Table.represents.
Abbreviation lockstep := Table.lockstep.
Abbreviation set_pair := (Table.set_pair TKey_eqb).
Abbreviation same_parameters := Table.same_parameters.
Abbreviation Set_all := (Table.Set_all TKey_eqb sizeof_TKey).
Abbreviation set_buckets := (Table.set_buckets TKey_eqb sizeof_TKey).
Abbreviation last_value := (Table.last_value TKey_eqb sizeof_TKey).
Abbreviation last_set := (Table.last_set TKey_eqb).
Abbreviation bucket_invariant := (Table.bucket_invariant TKey_eqb sizeof_TKey).
Abbreviation constructed := Table.constructed.
Abbreviation bucket_count := Table.bucket_count.

Lemma bucket_of_same_parameters (t t' : HashTable) (key : reference) :
  same_parameters t t' -> bucket_of t' key = bucket_of t key.
Proof.
  intros (_ & Hc & _ & _ & Hh & Hs). unfold Table.bucket_of. rewrite Hc, Hh, Hs. reflexivity.
Qed.

Lemma bucket_of_lt (t : HashTable) (key : reference) :
  0 < DynamicArray.capacity (HashTable.values t) ->
  (bucket_of t key < Z.to_nat (DynamicArray.capacity (HashTable.values t)))%nat.
Proof.
  intros Hc. unfold Table.bucket_of.
  pose proof (Z.mod_pos_bound
                (to_size_t
                   (HashTable.HashingAlgorithm t (HashTable.rawHashing sizeof_TKey key)
                      (HashTable.hashingSeed t)))
                _ Hc).
  lia.
Qed.

Lemma bucket_index_eq (t : HashTable) (key : reference) :
  0 < DynamicArray.capacity (HashTable.values t) ->
  HashTable.bucket_index sizeof_TKey key t = Returns (Z.of_nat (bucket_of t key)) t.
Proof.
  intros Hc. unfold HashTable.bucket_index. rewrite bind_get_state.
  destruct (Z.eqb_spec (DynamicArray.capacity (HashTable.values t)) 0) as [E|_]; [lia|].
  unfold ret, Table.bucket_of. f_equal.
  rewrite Z2Nat.id; [reflexivity|].
  apply Z.mod_pos_bound. exact Hc.
Qed.

Lemma ValidateBoundaries_ok {S T : Type} (a : list T) (index : Z) (s : S) :
  index < Z.of_nat (length a) ->
  Array.ValidateBoundaries a index s = Returns tt s.
Proof.
  intros H. unfold Array.ValidateBoundaries.
  destruct (Z.ltb_spec index (Z.of_nat (length a))); [reflexivity|lia].
Qed.

Lemma keyPocket_Returns {A : Type} (index : Z)
    (m : M (LinkedList.LinkedList TKey) A) (t : HashTable)
    (pocket pocket' : LinkedList.LinkedList TKey) (a : A) :
  DynamicArray.array (HashTable.keys t) !! Z.to_nat index = Some pocket ->
  m pocket = Returns a pocket' ->
  HashTable.keyPocket index m t
  = Returns a
      (HashTable.with_keys_array
         (<[ Z.to_nat index := pocket' ]> (DynamicArray.array (HashTable.keys t))) t).
Proof. intros H Hm. unfold HashTable.keyPocket. rewrite H, Hm. reflexivity. Qed.

Lemma valuePocket_Returns {A : Type} (index : Z)
    (m : M (LinkedList.LinkedList TValue) A) (t : HashTable)
    (pocket pocket' : LinkedList.LinkedList TValue) (a : A) :
  DynamicArray.array (HashTable.values t) !! Z.to_nat index = Some pocket ->
  m pocket = Returns a pocket' ->
  HashTable.valuePocket index m t
  = Returns a
      (HashTable.with_values_array
         (<[ Z.to_nat index := pocket' ]> (DynamicArray.array (HashTable.values t))) t).
Proof. intros H Hm. unfold HashTable.valuePocket. rewrite H, Hm. reflexivity. Qed.

Lemma with_keys_array_id (t : HashTable) :
  HashTable.with_keys_array (DynamicArray.array (HashTable.keys t)) t = t.
Proof. destruct t as [[] ? ? ? ? ?]. reflexivity. Qed.

Lemma with_values_array_id (t : HashTable) :
  HashTable.with_values_array (DynamicArray.array (HashTable.values t)) t = t.
Proof. destruct t as [? [] ? ? ? ?]. reflexivity. Qed.

Section Represented.
Variables (t : HashTable) (ks : list (list TKey)) (vs : list (list TValue)).
Hypothesis Hrep : represents t ks vs.
Hypothesis Hlock : lockstep ks vs.

Lemma bucket_chains (key : reference) :
  exists kl vl,
    ks !! bucket_of t key = Some kl /\ vs !! bucket_of t key = Some vl
    /\ length kl = length vl
    /\ DynamicArray.array (HashTable.keys t) !! bucket_of t key = Some (Chain.chain kl)
    /\ DynamicArray.array (HashTable.values t) !! bucket_of t key = Some (Chain.chain vl).
Proof.
  destruct Hrep as [Hk Hv Hc Hkl Hvl].
  pose proof (bucket_of_lt t key Hc) as Hlt.
  destruct (lookup_lt_is_Some_2 ks (bucket_of t key) ltac:(lia)) as [kl Hkl'].
  destruct (lookup_lt_is_Some_2 vs (bucket_of t key) ltac:(lia)) as [vl Hvl'].
  exists kl, vl. repeat split; try assumption.
  - exact (Hlock _ _ _ Hkl' Hvl').
  - rewrite Hk, list_lookup_fmap, Hkl'. reflexivity.
  - rewrite Hv, list_lookup_fmap, Hvl'. reflexivity.
Qed.

(** [Get] looks the key up in the key chain of its bucket and reads the
    value chain at the position found; the table is left as it is. *)
Lemma Get_represented (key : reference) (kl : list TKey) (vl : list TValue) :
  ks !! bucket_of t key = Some kl -> vs !! bucket_of t key = Some vl ->
  HashTable.Get TKey_eqb sizeof_TKey key t
  = match Chain.first_index (fun k => TKey_eqb k (HashTable.object key)) kl with
    | Some j =>
        match vl !! j with
        | Some v => Returns v t
        | None => Undefined
        end
    | None => Throws HashTable.key_not_found t
    end.
Proof.
  intros Hkl Hvl.
  destruct (bucket_chains key) as (kl' & vl' & Hkl' & Hvl' & Hlen & Hka & Hva).
  rewrite Hkl in Hkl'. injection Hkl' as <-.
  rewrite Hvl in Hvl'. injection Hvl' as <-.
  destruct Hrep as [Hk Hv Hc Hklen Hvlen].
  pose proof (bucket_of_lt t key Hc) as Hlt.
  unfold HashTable.Get.
  rewrite (bind_Returns _ _ _ _ _ (bucket_index_eq t key Hc)).
  rewrite bind_get_state.
  rewrite (bind_Returns _ _ t t tt)
    by (apply ValidateBoundaries_ok; rewrite Hk, length_fmap; lia).
  rewrite (bind_Returns _ _ t t tt)
    by (apply ValidateBoundaries_ok; rewrite Hv, length_fmap; lia).
  erewrite bind_Returns.
  2:{ eapply keyPocket_Returns.
      - rewrite Nat2Z.id. exact Hka.
      - apply ChainFacts.FindFirstNode_chain. }
  rewrite Nat2Z.id, (list_insert_id _ _ _ Hka), with_keys_array_id.
  destruct (Chain.first_index (fun k => TKey_eqb k (HashTable.object key)) kl)
    as [j|] eqn:Hfind; cbn [LinkedList.is_null negb]; [|reflexivity].
  pose proof (ChainFacts.first_index_lt _ _ _ Hfind) as Hj.
  erewrite bind_Returns.
  2:{ eapply keyPocket_Returns.
      - rewrite Nat2Z.id. exact Hka.
      - apply ChainFacts.IndexOf_chain. exact Hj. }
  rewrite Nat2Z.id, (list_insert_id _ _ _ Hka), with_keys_array_id.
  destruct (lookup_lt_is_Some_2 vl j ltac:(lia)) as [v Hvj]. rewrite Hvj.
  erewrite valuePocket_Returns.
  2:{ rewrite Nat2Z.id. exact Hva. }
  2:{ erewrite bind_Returns.
      2:{ apply ChainFacts.NodeAt_chain.
          unfold HashTable.size_t_of_int.
          destruct (Z.ltb_spec (Z.of_nat j) 0); lia. }
      unfold HashTable.size_t_of_int.
      destruct (Z.ltb_spec (Z.of_nat j) 0) as [E|_]; [lia|].
      rewrite Nat2Z.id. apply ChainFacts.Data_deref_chain. exact Hvj. }
  rewrite Nat2Z.id, (list_insert_id _ _ _ Hva), with_values_array_id.
  reflexivity.
Qed.

(** [Set] overwrites the value at the position of the key when the key
    chain of the bucket holds it, and otherwise appends the key and the
    value to the two chains of the bucket; nothing else changes but the
    pair counter. *)
Lemma Set_represented (key : reference) (value : TValue)
    (kl : list TKey) (vl : list TValue) :
  ks !! bucket_of t key = Some kl -> vs !! bucket_of t key = Some vl ->
  let chains := set_pair (HashTable.object key) value (kl, vl) in
  exists t',
    HashTable.Set_ TKey_eqb sizeof_TKey key value t = Returns tt t'
    /\ represents t' (<[ bucket_of t key := fst chains ]> ks)
                     (<[ bucket_of t key := snd chains ]> vs)
    /\ lockstep (<[ bucket_of t key := fst chains ]> ks)
                (<[ bucket_of t key := snd chains ]> vs)
    /\ same_parameters t t'
    /\ HashTable.hashedPairCount t'
       = match Chain.first_index (fun k => TKey_eqb k (HashTable.object key)) kl with
         | Some _ => HashTable.hashedPairCount t
         | None => to_long (HashTable.hashedPairCount t + 1)
         end.
Proof.
  intros Hkl Hvl chains.
  destruct (bucket_chains key) as (kl' & vl' & Hkl' & Hvl' & Hlen & Hka & Hva).
  rewrite Hkl in Hkl'. injection Hkl' as <-.
  rewrite Hvl in Hvl'. injection Hvl' as <-.
  destruct Hrep as [Hk Hv Hc Hklen Hvlen].
  pose proof (bucket_of_lt t key Hc) as Hlt.
  assert (Hlock' : lockstep (<[ bucket_of t key := fst chains ]> ks)
                            (<[ bucket_of t key := snd chains ]> vs)).
  { intros i kl' vl' Hi1 Hi2.
    destruct (Nat.eq_dec i (bucket_of t key)) as [->|Hne].
    - rewrite list_lookup_insert_eq in Hi1 by lia.
      rewrite list_lookup_insert_eq in Hi2 by lia.
      injection Hi1 as <-. injection Hi2 as <-.
      subst chains. unfold Table.set_pair. cbn [fst snd].
      destruct (Chain.first_index _ kl); cbn [fst snd].
      + rewrite length_insert. exact Hlen.
      + rewrite !length_app. simpl. lia.
    - rewrite list_lookup_insert_ne in Hi1 by lia.
      rewrite list_lookup_insert_ne in Hi2 by lia.
      exact (Hlock _ _ _ Hi1 Hi2). }
  unfold HashTable.Set_.
  rewrite (bind_Returns _ _ _ _ _ (bucket_index_eq t key Hc)).
  rewrite bind_get_state.
  rewrite (bind_Returns _ _ t t tt)
    by (apply ValidateBoundaries_ok; rewrite Hk, length_fmap; lia).
  rewrite (bind_Returns _ _ t t tt)
    by (apply ValidateBoundaries_ok; rewrite Hv, length_fmap; lia).
  erewrite bind_Returns.
  2:{ eapply keyPocket_Returns.
      - rewrite Nat2Z.id. exact Hka.
      - apply ChainFacts.FindFirstNode_chain. }
  rewrite Nat2Z.id, (list_insert_id _ _ _ Hka), with_keys_array_id.
  subst chains. unfold Table.set_pair in *. cbn [fst snd] in *.
  destruct (Chain.first_index (fun k => TKey_eqb k (HashTable.object key)) kl)
    as [j|] eqn:Hfind; cbn [LinkedList.is_null fst snd] in *.
  - pose proof (ChainFacts.first_index_lt _ _ _ Hfind) as Hj.
    erewrite bind_Returns.
    2:{ eapply keyPocket_Returns.
        - rewrite Nat2Z.id. exact Hka.
        - apply ChainFacts.IndexOf_chain. exact Hj. }
    rewrite Nat2Z.id, (list_insert_id _ _ _ Hka), with_keys_array_id.
    eexists. split.
    { eapply valuePocket_Returns.
      - rewrite Nat2Z.id. exact Hva.
      - erewrite bind_Returns.
        2:{ apply ChainFacts.NodeAt_chain.
            unfold HashTable.size_t_of_int.
            destruct (Z.ltb_spec (Z.of_nat j) 0); lia. }
        unfold HashTable.size_t_of_int.
        destruct (Z.ltb_spec (Z.of_nat j) 0) as [E|_]; [lia|].
        rewrite Nat2Z.id. apply ChainFacts.update_Data_chain. lia. }
    rewrite Nat2Z.id.
    split; [|split; [exact Hlock'|split; [|reflexivity]]].
    + constructor; cbn [HashTable.with_values_array HashTable.keys HashTable.values
                        DynamicArray.array DynamicArray.capacity].
      * rewrite (list_insert_id ks) by exact Hkl. exact Hk.
      * rewrite Hv. rewrite list_fmap_insert. reflexivity.
      * exact Hc.
      * rewrite length_insert. exact Hklen.
      * rewrite length_insert. exact Hvlen.
    + repeat split.
  - erewrite bind_Returns.
    2:{ eapply keyPocket_Returns.
        - rewrite Nat2Z.id. exact Hka.
        - apply ChainFacts.Add_chain. }
    erewrite bind_Returns.
    2:{ eapply valuePocket_Returns.
        - rewrite Nat2Z.id. exact Hva.
        - apply ChainFacts.Add_chain. }
    rewrite bind_get_state. unfold put_state.
    eexists. split; [reflexivity|].
    rewrite Nat2Z.id.
    split; [|split; [exact Hlock'|split; [|reflexivity]]].
    + constructor; cbn [HashTable.with_values_array HashTable.with_keys_array
                        HashTable.with_hashedPairCount HashTable.keys HashTable.values
                        DynamicArray.array DynamicArray.capacity].
      * rewrite Hk. rewrite list_fmap_insert. reflexivity.
      * rewrite Hv. rewrite list_fmap_insert. reflexivity.
      * exact Hc.
      * rewrite length_insert. exact Hklen.
      * rewrite length_insert. exact Hvlen.
    + repeat split.
Qed.

End Represented.

Lemma same_parameters_refl (t : HashTable) : same_parameters t t.
Proof. repeat split. Qed.

Lemma same_parameters_trans (t1 t2 t3 : HashTable) :
  same_parameters t1 t2 -> same_parameters t2 t3 -> same_parameters t1 t3.
Proof.
  intros (A1 & A2 & A3 & A4 & A5 & A6) (B1 & B2 & B3 & B4 & B5 & B6).
  repeat split; congruence.
Qed.

Lemma Set_step (t : HashTable) (ks : list (list TKey)) (vs : list (list TValue))
    (call : reference * TValue) :
  represents t ks vs -> lockstep ks vs ->
  exists t',
    HashTable.Set_ TKey_eqb sizeof_TKey (fst call) (snd call) t = Returns tt t'
    /\ represents t' (fst (set_buckets t (ks, vs) call)) (snd (set_buckets t (ks, vs) call))
    /\ lockstep (fst (set_buckets t (ks, vs) call)) (snd (set_buckets t (ks, vs) call))
    /\ same_parameters t t'
    /\ HashTable.hashedPairCount t'
       = match Chain.first_index (fun k => TKey_eqb k (HashTable.object (fst call)))
                 (ks !!! bucket_of t (fst call)) with
         | Some _ => HashTable.hashedPairCount t
         | None => to_long (HashTable.hashedPairCount t + 1)
         end.
Proof.
  intros Hrep Hlock.
  destruct (bucket_chains t ks vs Hrep Hlock (fst call))
    as (kl & vl & Hkl & Hvl & _ & _ & _).
  unfold Table.set_buckets. cbn [fst snd].
  rewrite (list_lookup_total_correct _ _ _ Hkl), (list_lookup_total_correct _ _ _ Hvl).
  exact (Set_represented t ks vs Hrep Hlock (fst call) (snd call) kl vl Hkl Hvl).
Qed.

Lemma fold_set_buckets_same_parameters (t t1 : HashTable) :
  same_parameters t t1 ->
  forall calls st,
    fold_left (set_buckets t1) calls st = fold_left (set_buckets t) calls st.
Proof.
  intros Hsame calls. induction calls as [|c calls IH]; intros st; [reflexivity|].
  cbn [fold_left]. rewrite IH. unfold Table.set_buckets.
  rewrite (bucket_of_same_parameters t t1) by exact Hsame. reflexivity.
Qed.

(** A sequence of [Set] calls on a table in lockstep returns, and leaves
    the chains that the calls build one after the other. *)
Lemma Set_all_represented (calls : list (reference * TValue)) :
  forall (t : HashTable) (ks : list (list TKey)) (vs : list (list TValue)),
    represents t ks vs -> lockstep ks vs ->
    exists t',
      Set_all calls t = Returns tt t'
      /\ represents t' (fst (fold_left (set_buckets t) calls (ks, vs)))
                       (snd (fold_left (set_buckets t) calls (ks, vs)))
      /\ lockstep (fst (fold_left (set_buckets t) calls (ks, vs)))
                  (snd (fold_left (set_buckets t) calls (ks, vs)))
      /\ same_parameters t t'.
Proof.
  induction calls as [|call calls IH]; intros t ks vs Hrep Hlock.
  - exists t. cbn. repeat split; try assumption; apply Hrep.
  - destruct (Set_step t ks vs call Hrep Hlock) as (t1 & Hset & Hrep1 & Hlock1 & Hsame1 & _).
    destruct (IH t1 _ _ Hrep1 Hlock1) as (t' & Hall & Hrep' & Hlock' & Hsame').
    exists t'. cbn [Table.Set_all fold_left].
    rewrite (bind_Returns _ _ _ _ _ Hset).
    rewrite <- surjective_pairing in Hrep', Hlock'.
    rewrite (fold_set_buckets_same_parameters t t1 Hsame1) in Hrep', Hlock'.
    split; [exact Hall|]. split; [exact Hrep'|]. split; [exact Hlock'|].
    exact (same_parameters_trans _ _ _ Hsame1 Hsame').
Qed.

(** A table that the constructor returns has empty chains in all its
    buckets. *)
Lemma create_represents (max_length c m : Z) (threshold : Q)
    (hashingAlgorithm : Z -> Z -> Z) (hashingSeed : Z) :
  0 <= c -> 0 < m -> (c / m + 1) * m <= SIZE_MAX ->
  (c / m + 1) * m <= max_length ->
  (0 < threshold)%Q -> (threshold <= 1)%Q ->
  exists t : HashTable,
    HashTable.create max_length c threshold m hashingAlgorithm hashingSeed tt
    = Returns t tt
    /\ represents t (replicate (Z.to_nat ((c / m + 1) * m)) [])
                    (replicate (Z.to_nat ((c / m + 1) * m)) [])
    /\ HashTable.Capacity t = (c / m + 1) * m
    /\ HashTable.hashedPairCount t = 0
    /\ HashTable.HashingAlgorithm t = hashingAlgorithm
    /\ HashTable.hashingSeed t = hashingSeed.
Proof.
  intros Hc Hm Hfit Hroom Hpos Hle.
  unfold HashTable.create, bind.
  rewrite ValidateThreshold_ok by assumption.
  rewrite !DynamicArray_create_ok by assumption.
  eexists. split; [reflexivity|].
  pose proof (round_up_above c m Hm).
  split; [|repeat split].
  constructor; cbn [HashTable.keys HashTable.values DynamicArray.array
                    DynamicArray.capacity].
  - unfold Array.create. rewrite fmap_replicate. reflexivity.
  - unfold Array.create. rewrite fmap_replicate. reflexivity.
  - lia.
  - apply length_replicate.
  - apply length_replicate.
Qed.

Lemma create_default_represents :
  represents (HashTable.create_default : HashTable) (replicate 200 []) (replicate 200 []).
Proof.
  constructor; cbn [HashTable.create_default HashTable.keys HashTable.values
                    DynamicArray.create_default DynamicArray.array
                    DynamicArray.capacity].
  - unfold Array.create. rewrite fmap_replicate. reflexivity.
  - unfold Array.create. rewrite fmap_replicate. reflexivity.
  - reflexivity.
  - apply length_replicate.
  - apply length_replicate.
Qed.

Lemma lockstep_empty (n : nat) :
  lockstep (replicate n (@nil TKey)) (replicate n (@nil TValue)).
Proof.
  intros i kl vl Hk Hv.
  apply lookup_replicate in Hk as [-> _]. apply lookup_replicate in Hv as [-> _].
  reflexivity.
Qed.

(** *** What the chains hold after a sequence of [Set] calls *)

Lemma last_value_snoc (t : HashTable) (i : nat) (k : TKey)
    (calls : list (reference * TValue)) (call : reference * TValue) :
  last_value t i k (calls ++ [call])
  = if (bucket_of t (fst call) =? i)%nat && TKey_eqb k (HashTable.object (fst call))
    then Some (snd call) else last_value t i k calls.
Proof. unfold Table.last_value. rewrite fold_left_app. reflexivity. Qed.

Lemma last_value_is_Some (t : HashTable) (i : nat) (k : TKey)
    (calls : list (reference * TValue)) :
  is_Some (last_value t i k calls) ->
  exists call, call ∈ calls /\ bucket_of t (fst call) = i
               /\ TKey_eqb k (HashTable.object (fst call)) = true.
Proof.
  induction calls as [|call calls IH] using rev_ind; intros [v Hv].
  - discriminate.
  - rewrite last_value_snoc in Hv.
    destruct (Nat.eqb_spec (bucket_of t (fst call)) i) as [Hb|Hb]; cbn [andb] in Hv.
    + destruct (TKey_eqb k (HashTable.object (fst call))) eqn:Hk.
      * exists call. split; [|split; assumption].
        apply elem_of_app. right. apply list_elem_of_singleton. reflexivity.
      * destruct (IH (ex_intro _ v Hv)) as (c & Hc & Hbc & Hkc).
        exists c. split; [|split; assumption]. apply elem_of_app. left. exact Hc.
    + destruct (IH (ex_intro _ v Hv)) as (c & Hc & Hbc & Hkc).
      exists c. split; [|split; assumption]. apply elem_of_app. left. exact Hc.
Qed.

Section Equality.
Hypothesis TKey_eqb_eq : forall x y : TKey, TKey_eqb x y = true <-> x = y.

Lemma TKey_eqb_refl (x : TKey) : TKey_eqb x x = true.
Proof. apply TKey_eqb_eq. reflexivity. Qed.

Lemma TKey_eqb_neq (x y : TKey) : x <> y -> TKey_eqb x y = false.
Proof.
  intros H. destruct (TKey_eqb x y) eqn:E; [|reflexivity].
  apply TKey_eqb_eq in E. contradiction.
Qed.

Lemma first_index_key (key : TKey) (kl : list TKey) (j : nat) :
  Chain.first_index (fun k => TKey_eqb k key) kl = Some j -> kl !! j = Some key.
Proof.
  intros H. destruct (ChainFacts.first_index_Some _ _ _ H) as (x & Hx & Hp & _).
  apply TKey_eqb_eq in Hp. subst x. exact Hx.
Qed.

Lemma first_index_absent (key : TKey) (kl : list TKey) :
  Chain.first_index (fun k => TKey_eqb k key) kl = None <-> key ∉ kl.
Proof.
  rewrite ChainFacts.first_index_None. split.
  - intros H Hin. specialize (H key Hin). rewrite TKey_eqb_refl in H. discriminate.
  - intros H x Hx. apply TKey_eqb_neq. intros ->. contradiction.
Qed.

Lemma bucket_invariant_other (t : HashTable) (calls : list (reference * TValue))
    (call : reference * TValue) (i : nat) (kl : list TKey) (vl : list TValue) :
  bucket_of t (fst call) <> i ->
  bucket_invariant t calls i kl vl ->
  bucket_invariant t (calls ++ [call]) i kl vl.
Proof.
  intros Hne [Hlen Hnd Hval Hmem].
  assert (Hlast : forall k, last_value t i k (calls ++ [call]) = last_value t i k calls).
  { intros k. rewrite last_value_snoc.
    destruct (Nat.eqb_spec (bucket_of t (fst call)) i); [contradiction|reflexivity]. }
  constructor; try assumption.
  - intros j k Hk. rewrite Hlast. apply Hval. exact Hk.
  - intros k. rewrite Hlast. apply Hmem.
Qed.

Lemma bucket_invariant_set (t : HashTable) (calls : list (reference * TValue))
    (call : reference * TValue) (kl : list TKey) (vl : list TValue) :
  bucket_invariant t calls (bucket_of t (fst call)) kl vl ->
  bucket_invariant t (calls ++ [call]) (bucket_of t (fst call))
    (fst (set_pair (HashTable.object (fst call)) (snd call) (kl, vl)))
    (snd (set_pair (HashTable.object (fst call)) (snd call) (kl, vl))).
Proof.
  intros [Hlen Hnd Hval Hmem].
  set (key := HashTable.object (fst call)).
  set (i := bucket_of t (fst call)).
  assert (Hlast_key : last_value t i key (calls ++ [call]) = Some (snd call)).
  { rewrite last_value_snoc. fold key. fold i.
    rewrite Nat.eqb_refl, TKey_eqb_refl. reflexivity. }
  assert (Hlast_other : forall k, k <> key ->
            last_value t i k (calls ++ [call]) = last_value t i k calls).
  { intros k Hk. rewrite last_value_snoc. fold key.
    rewrite (TKey_eqb_neq k key Hk), andb_false_r. reflexivity. }
  unfold Table.set_pair. cbn [fst snd]. fold key.
  destruct (Chain.first_index (fun k => TKey_eqb k key) kl) as [j|] eqn:Hfind;
    cbn [fst snd].
  - pose proof (first_index_key _ _ _ Hfind) as Hj.
    pose proof (lookup_lt_Some _ _ _ Hj) as Hjlt.
    constructor.
    + rewrite length_insert. exact Hlen.
    + exact Hnd.
    + intros j' k Hk. destruct (Nat.eq_dec j' j) as [->|Hne].
      * rewrite Hj in Hk. injection Hk as <-.
        rewrite list_lookup_insert_eq by lia. symmetry. exact Hlast_key.
      * rewrite list_lookup_insert_ne by lia.
        rewrite Hlast_other; [apply Hval; exact Hk|].
        intros ->. apply Hne. exact (NoDup_lookup _ _ _ _ Hnd Hk Hj).
    + intros k. destruct (TKey_eqb k key) eqn:Ek.
      * apply TKey_eqb_eq in Ek. subst k.
        rewrite Hlast_key. split; [eauto|]. intros _.
        exact (list_elem_of_lookup_2 _ _ _ Hj).
      * assert (Hk : k <> key) by (intros ->; rewrite TKey_eqb_refl in Ek; discriminate).
        rewrite Hlast_other by exact Hk. apply Hmem.
  - pose proof (proj1 (first_index_absent key kl) Hfind) as Habsent.
    constructor.
    + rewrite !length_app. simpl. lia.
    + apply NoDup_app. split; [exact Hnd|]. split.
      * intros x Hx Hx'. apply list_elem_of_singleton in Hx'. subst x. contradiction.
      * apply NoDup_singleton.
    + intros j k Hk. apply lookup_app_Some in Hk as [Hk|[Hge Hk]].
      * rewrite lookup_app_l by (rewrite <- Hlen; exact (lookup_lt_Some _ _ _ Hk)).
        rewrite Hlast_other; [apply Hval; exact Hk|].
        intros ->. apply Habsent. exact (list_elem_of_lookup_2 _ _ _ Hk).
      * apply list_lookup_singleton_Some in Hk as [Hj <-].
        rewrite Hlast_key.
        replace j with (length vl + 0)%nat by lia.
        rewrite lookup_app_r by lia.
        replace (length vl + 0 - length vl)%nat with 0%nat by lia. reflexivity.
    + intros k. rewrite elem_of_app, list_elem_of_singleton.
      destruct (TKey_eqb k key) eqn:Ek.
      * apply TKey_eqb_eq in Ek. subst k.
        rewrite Hlast_key. split; eauto.
      * assert (Hk : k <> key) by (intros ->; rewrite TKey_eqb_refl in Ek; discriminate).
        rewrite Hlast_other by exact Hk. pose proof (Hmem k) as Hmk.
        subst i. split; [intros [Hin|Heq]; [tauto|contradiction]|tauto].
Qed.

Lemma chains_after_calls (t : HashTable) (n : nat) (calls : list (reference * TValue)) :
  let state := fold_left (set_buckets t) calls (replicate n [], replicate n []) in
  length (fst state) = n /\ length (snd state) = n
  /\ forall i kl vl,
       fst state !! i = Some kl -> snd state !! i = Some vl ->
       bucket_invariant t calls i kl vl.
Proof.
  induction calls as [|call calls IH] using rev_ind; cbv zeta.
  - cbn [fold_left fst snd]. rewrite !length_replicate.
    split; [reflexivity|]. split; [reflexivity|].
    intros i kl vl Hk Hv.
    apply lookup_replicate in Hk as [-> _]. apply lookup_replicate in Hv as [-> _].
    constructor.
    + reflexivity.
    + apply NoDup_nil_2.
    + intros j k Hk. discriminate.
    + intros k. split; [intros H; inversion H|intros [v Hv]; discriminate].
  - rewrite fold_left_app. cbn [fold_left].
    cbv zeta in IH. destruct IH as (Hkn & Hvn & IH).
    set (state := fold_left (set_buckets t) calls (replicate n [], replicate n [])) in *.
    unfold Table.set_buckets. cbn [fst snd]. rewrite !length_insert.
    split; [exact Hkn|]. split; [exact Hvn|].
    intros i kl vl Hk Hv.
    destruct (Nat.eq_dec (bucket_of t (fst call)) i) as [<-|Hne].
    + pose proof (lookup_lt_Some _ _ _ Hk) as Hlt. rewrite length_insert in Hlt.
      rewrite list_lookup_insert_eq in Hk by lia.
      rewrite list_lookup_insert_eq in Hv by lia.
      injection Hk as <-. injection Hv as <-.
      destruct (lookup_lt_is_Some_2 (fst state) (bucket_of t (fst call)) ltac:(lia))
        as [kl0 Hkl0].
      destruct (lookup_lt_is_Some_2 (snd state) (bucket_of t (fst call)) ltac:(lia))
        as [vl0 Hvl0].
      rewrite (list_lookup_total_correct _ _ _ Hkl0).
      rewrite (list_lookup_total_correct _ _ _ Hvl0).
      apply bucket_invariant_set. exact (IH _ _ _ Hkl0 Hvl0).
    + rewrite list_lookup_insert_ne in Hk by exact Hne.
      rewrite list_lookup_insert_ne in Hv by exact Hne.
      apply bucket_invariant_other; [exact Hne|]. exact (IH _ _ _ Hk Hv).
Qed.

End Equality.

(** *** Tables that a constructor returns *)

Lemma constructed_represents (t : HashTable) :
  constructed t -> 0 < HashTable.Capacity t ->
  represents t (replicate (bucket_count t) []) (replicate (bucket_count t) [])
  /\ HashTable.hashedPairCount t = 0.
Proof.
  intros [->|(max_length & c & th & m & alg & seed & Hcreate)] Hcap.
  - split; [exact create_default_represents|reflexivity].
  - unfold HashTable.create, bind in Hcreate.
    destruct (HashTable.ValidateThreshold th tt) as [[] []| | |]; try discriminate.
    unfold DynamicArray.create, Array.new_array, bind in Hcreate.
    destruct (m =? 0); [discriminate|].
    destruct (max_length <? DynamicArray.round_up c m); [discriminate|].
    cbn [ret] in Hcreate.
    injection Hcreate as <-.
    unfold Table.bucket_count, HashTable.Capacity in *.
    cbn [HashTable.keys DynamicArray.capacity] in *.
    split; [|reflexivity].
    constructor; cbn [HashTable.keys HashTable.values DynamicArray.array
                      DynamicArray.capacity].
    + unfold Array.create. rewrite fmap_replicate. reflexivity.
    + unfold Array.create. rewrite fmap_replicate. reflexivity.
    + exact Hcap.
    + apply length_replicate.
    + apply length_replicate.
Qed.

Lemma Set_all_app (calls1 calls2 : list (reference * TValue)) (t : HashTable) :
  Set_all (calls1 ++ calls2) t = bind (Set_all calls1) (fun _ => Set_all calls2) t.
Proof.
  revert t. induction calls1 as [|call calls1 IH]; intros t; [reflexivity|].
  cbn [app Table.Set_all]. rewrite bind_assoc.
  destruct (HashTable.Set_ TKey_eqb sizeof_TKey (fst call) (snd call) t)
    as [[] t'|e t'| |] eqn:Hset.
  - rewrite !(bind_Returns _ _ _ _ _ Hset). apply IH.
  - rewrite !(bind_Throws _ _ _ _ _ Hset). reflexivity.
  - unfold bind. rewrite Hset. reflexivity.
  - unfold bind. rewrite Hset. reflexivity.
Qed.

Lemma last_set_snoc (k : TKey) (calls : list (reference * TValue))
    (call : reference * TValue) :
  last_set k (calls ++ [call])
  = if TKey_eqb k (HashTable.object (fst call)) then Some (snd call)
    else last_set k calls.
Proof. unfold Table.last_set. rewrite fold_left_app. reflexivity. Qed.

Lemma bucket_of_address (t : HashTable) (r r' : reference) :
  HashTable.address r = HashTable.address r' -> bucket_of t r = bucket_of t r'.
Proof.
  intros H. unfold Table.bucket_of, HashTable.rawHashing. rewrite H. reflexivity.
Qed.

(** A table reached from a constructed one by [Set] calls. *)
Section Reached.
Hypothesis TKey_eqb_eq : forall x y : TKey, TKey_eqb x y = true <-> x = y.
Variables (t0 : HashTable) (calls : list (reference * TValue)).
Hypothesis Hconstructed : constructed t0.
Hypothesis Hcapacity : 0 < HashTable.Capacity t0.

Lemma reached :
  exists t ks vs,
    Set_all calls t0 = Returns tt t
    /\ represents t ks vs /\ lockstep ks vs /\ same_parameters t0 t
    /\ length ks = bucket_count t0
    /\ forall i kl vl,
         ks !! i = Some kl -> vs !! i = Some vl -> bucket_invariant t0 calls i kl vl.
Proof.
  destruct (constructed_represents t0 Hconstructed Hcapacity) as [Hrep0 _].
  destruct (Set_all_represented calls t0 _ _ Hrep0 (lockstep_empty _))
    as (t & Hall & Hrep & Hlock & Hsame).
  destruct (chains_after_calls TKey_eqb_eq t0 (bucket_count t0) calls) as (Hkn & _ & Hinv).
  cbv zeta in Hkn, Hinv.
  eexists t, _, _.
  split; [exact Hall|]. split; [exact Hrep|]. split; [exact Hlock|].
  split; [exact Hsame|]. split; [exact Hkn|exact Hinv].
Qed.

Lemma last_value_last_set (i : nat) (k : TKey) :
  (forall call, call ∈ calls -> HashTable.object (fst call) = k ->
                bucket_of t0 (fst call) = i) ->
  last_value t0 i k calls = last_set k calls.
Proof.
  clear Hconstructed Hcapacity.
  induction calls as [|call calls' IH] using rev_ind; intros Hhome; [reflexivity|].
  rewrite last_value_snoc, last_set_snoc.
  destruct (TKey_eqb k (HashTable.object (fst call))) eqn:Hk.
  - apply TKey_eqb_eq in Hk.
    assert (Hb : bucket_of t0 (fst call) = i).
    { apply Hhome; [|symmetry; exact Hk].
      apply elem_of_app. right. apply list_elem_of_singleton. reflexivity. }
    rewrite Hb, Nat.eqb_refl. reflexivity.
  - rewrite andb_false_r. apply IH. intros c Hc. apply Hhome.
    apply elem_of_app. left. exact Hc.
Qed.

(** After the calls, [Get] returns the value last set in the bucket of
    the key for that key, and fails with key-not-found when there is none. *)
Lemma Get_reached (t : HashTable) (key : reference) :
  Set_all calls t0 = Returns tt t ->
  HashTable.Get TKey_eqb sizeof_TKey key t
  = match last_value t0 (bucket_of t0 key) (HashTable.object key) calls with
    | Some v => Returns v t
    | None => Throws HashTable.key_not_found t
    end.
Proof.
  intros Hall.
  destruct reached as (t' & ks & vs & Hall' & Hrep & Hlock & Hsame & Hlen & Hinv).
  rewrite Hall in Hall'. injection Hall' as <-.
  destruct (bucket_chains t ks vs Hrep Hlock key) as (kl & vl & Hkl & Hvl & _).
  rewrite (Get_represented t ks vs Hrep Hlock key kl vl Hkl Hvl).
  rewrite (bucket_of_same_parameters t0 t key Hsame) in Hkl, Hvl.
  destruct (Hinv _ _ _ Hkl Hvl) as [Hlength Hnd Hval Hmem].
  destruct (Chain.first_index (fun k => TKey_eqb k (HashTable.object key)) kl)
    as [j|] eqn:Hfind.
  - pose proof (first_index_key TKey_eqb_eq _ _ _ Hfind) as Hj.
    rewrite (Hval _ _ Hj).
    destruct (proj1 (Hmem _) (list_elem_of_lookup_2 _ _ _ Hj)) as [v Hv].
    rewrite Hv. reflexivity.
  - apply (first_index_absent TKey_eqb_eq) in Hfind.
    destruct (last_value t0 (bucket_of t0 key) (HashTable.object key) calls) as [v|] eqn:Hv;
      [|reflexivity].
    exfalso. apply Hfind. apply Hmem. eauto.
Qed.

End Reached.

(** *** [Has] *)

Lemma Has_of_Get (t : HashTable) (key : reference) :
  HashTable.Has TKey_eqb sizeof_TKey key t
  = match HashTable.Get TKey_eqb sizeof_TKey key t with
    | Returns _ t' => Returns true t'
    | Throws _ t' => Returns false t'
    | Undefined => Undefined
    | Diverges => Diverges
    end.
Proof.
  unfold HashTable.Has, try_catch_all, bind.
  destruct (HashTable.Get TKey_eqb sizeof_TKey key t); reflexivity.
Qed.

End TableFacts.
End TableFacts.

(** ** The claims on [Set], [Get] and [Has] *)

(** C3.  For every hash table (one that a constructor returned with at
    least one bucket) and every sequence of [Set] calls on it, the calls
    return, and for every bucket index [i] in range the key chain and the
    value chain of bucket [i] have equal length, and the value at position
    [j] of the value chain is the value of the last call that went to
    bucket [i] with the key found at position [j] of the key chain. *)
Theorem C3_lockstep_invariant (TKey TValue : Type) (TKey_eqb : TKey -> TKey -> bool)
    (sizeof_TKey : Z) (t0 : HashTable.HashTable TKey TValue)
    (calls : list (HashTable.reference TKey * TValue)) :
  (forall x y : TKey, TKey_eqb x y = true <-> x = y) ->
  Table.constructed t0 -> 0 < HashTable.Capacity t0 ->
  exists t,
    Table.Set_all TKey_eqb sizeof_TKey calls t0 = Returns tt t
    /\ HashTable.Capacity t = HashTable.Capacity t0
    /\ forall i, (i < Table.bucket_count t0)%nat ->
         exists kl vl,
           DynamicArray.array (HashTable.keys t) !! i = Some (Chain.chain kl)
           /\ DynamicArray.array (HashTable.values t) !! i = Some (Chain.chain vl)
           /\ length kl = length vl
           /\ forall j k, kl !! j = Some k ->
                vl !! j = Table.last_value TKey_eqb sizeof_TKey t0 i k calls.
Proof.
  intros Heq Hconstructed Hcapacity.
  destruct (TableFacts.reached TKey_eqb sizeof_TKey Heq t0 calls Hconstructed Hcapacity)
    as (t & ks & vs & Hall & Hrep & Hlock & Hsame & Hlen & Hinv).
  exists t. split; [exact Hall|]. split; [apply Hsame|].
  intros i Hi.
  destruct Hrep as [Hk Hv Hc Hkl Hvl].
  destruct (lookup_lt_is_Some_2 ks i ltac:(lia)) as [kl Hkli].
  destruct (lookup_lt_is_Some_2 vs i ltac:(lia)) as [vl Hvli].
  destruct (Hinv _ _ _ Hkli Hvli) as [Hlength _ Hval _].
  exists kl, vl. split; [|split; [|split; [exact Hlength|exact Hval]]].
  - rewrite Hk, list_lookup_fmap, Hkli. reflexivity.
  - rewrite Hv, list_lookup_fmap, Hvli. reflexivity.
Qed.

Lemma C3_lockstep_invariant_witness :
  exists t,
    Table.Set_all Z.eqb 8
      [(HashTable.Ref 1000 11, 1); (HashTable.Ref 2000 22, 2); (HashTable.Ref 1000 11, 3)]
      (@HashTable.create_default Z Z) = Returns tt t
    /\ HashTable.Capacity t = 200.
Proof.
  destruct (C3_lockstep_invariant Z Z Z.eqb 8 HashTable.create_default
              [(HashTable.Ref 1000 11, 1); (HashTable.Ref 2000 22, 2);
               (HashTable.Ref 1000 11, 3)]
              Z.eqb_eq (or_introl eq_refl) eq_refl)
    as (t & Hall & Hcapacity & _).
  exists t. split; [exact Hall | exact Hcapacity].
Defined.

(** C7, as stated, fails: asked for 2^64 - 1 buckets with increment 1, the
    constructor returns a table without a bucket (the [size_t] capacity
    wraps around to 0).  On this empty table [Get] and [Has] reduce the
    hash modulo zero, which has no defined behaviour: [Get] does not fail
    with the key-not-found error and [Has] does not return false. *)
Lemma C7_Get_on_a_table_without_buckets :
  exists t,
    HashTable.create (TKey := Z) (TValue := Z) (2 ^ 32) (2 ^ 64 - 1) (3 # 4) 1
      Murmur.MurmurHashingAlgorithm 0 tt = Returns t tt
    /\ HashTable.Capacity t = 0
    /\ HashTable.hashedPairCount t = 0
    /\ HashTable.Get Z.eqb 8 (HashTable.Ref 1000 11) t = Undefined
    /\ HashTable.Has Z.eqb 8 (HashTable.Ref 1000 11) t = Undefined
    /\ HashTable.Get Z.eqb 8 (HashTable.Ref 1000 11) t
       <> Throws HashTable.key_not_found t
    /\ HashTable.Has Z.eqb 8 (HashTable.Ref 1000 11) t <> Returns false t.
Proof.
  eexists. split; [reflexivity|].
  split; [reflexivity|]. split; [reflexivity|].
  split; [reflexivity|]. split; [reflexivity|].
  split; discriminate.
Qed.

(** C7, amended.  For every hash table with at least one bucket (reached
    from a constructed one by [Set] calls) and every key that no entry of
    the table matches, [Get] fails with the key-not-found error and [Has]
    returns false; in particular so for any key on the empty table.  For
    every key [Has] returns a boolean, never an error, and it returns true
    exactly when [Get] returns a value. *)
Theorem C7_key_not_found (TKey TValue : Type) (TKey_eqb : TKey -> TKey -> bool)
    (sizeof_TKey : Z) (t0 : HashTable.HashTable TKey TValue)
    (calls : list (HashTable.reference TKey * TValue)) :
  Table.constructed t0 -> 0 < HashTable.Capacity t0 ->
  (forall key,
      HashTable.Get TKey_eqb sizeof_TKey key t0 = Throws HashTable.key_not_found t0
      /\ HashTable.Has TKey_eqb sizeof_TKey key t0 = Returns false t0)
  /\ exists t ks vs,
       Table.Set_all TKey_eqb sizeof_TKey calls t0 = Returns tt t
       /\ Table.represents t ks vs
       /\ forall key,
            ((forall i kl k, ks !! i = Some kl -> k ∈ kl ->
                             TKey_eqb k (HashTable.object key) = false) ->
             HashTable.Get TKey_eqb sizeof_TKey key t = Throws HashTable.key_not_found t
             /\ HashTable.Has TKey_eqb sizeof_TKey key t = Returns false t)
            /\ ((HashTable.Has TKey_eqb sizeof_TKey key t = Returns true t
                 /\ exists v, HashTable.Get TKey_eqb sizeof_TKey key t = Returns v t)
                \/ (HashTable.Has TKey_eqb sizeof_TKey key t = Returns false t
                    /\ HashTable.Get TKey_eqb sizeof_TKey key t
                       = Throws HashTable.key_not_found t)).
Proof.
  intros Hconstructed Hcapacity.
  destruct (TableFacts.constructed_represents t0 Hconstructed Hcapacity) as [Hrep0 _].
  pose proof (TableFacts.lockstep_empty (TKey := TKey) (TValue := TValue)
                (Table.bucket_count t0)) as Hlock0.
  assert (Hget : forall (t : HashTable.HashTable TKey TValue) ks vs key,
             Table.represents t ks vs -> Table.lockstep ks vs ->
             (exists kl, ks !! Table.bucket_of sizeof_TKey t key = Some kl
                /\ Chain.first_index (fun k => TKey_eqb k (HashTable.object key)) kl = None
                /\ HashTable.Get TKey_eqb sizeof_TKey key t = Throws HashTable.key_not_found t
                /\ HashTable.Has TKey_eqb sizeof_TKey key t = Returns false t)
             \/ (exists v, HashTable.Get TKey_eqb sizeof_TKey key t = Returns v t
                   /\ HashTable.Has TKey_eqb sizeof_TKey key t = Returns true t)).
  { intros t ks vs key Hrep Hlock.
    destruct (TableFacts.bucket_chains sizeof_TKey t ks vs Hrep Hlock key)
      as (kl & vl & Hkl & Hvl & Hlen & _).
    pose proof (TableFacts.Get_represented TKey_eqb sizeof_TKey t ks vs Hrep Hlock key kl vl Hkl Hvl)
      as Hg.
    rewrite TableFacts.Has_of_Get.
    destruct (Chain.first_index (fun k => TKey_eqb k (HashTable.object key)) kl)
      as [j|] eqn:Hfind.
    - right. pose proof (ChainFacts.first_index_lt _ _ _ Hfind) as Hj.
      destruct (lookup_lt_is_Some_2 vl j ltac:(lia)) as [v Hv]. rewrite Hv in Hg.
      exists v. rewrite Hg. split; reflexivity.
    - left. exists kl. rewrite Hg. repeat split; assumption. }
  split.
  - intros key. destruct (Hget t0 _ _ key Hrep0 Hlock0) as [(kl & _ & _ & Hg & Hh)|(v & Hg & _)].
    + split; assumption.
    + exfalso.
      destruct (TableFacts.bucket_chains sizeof_TKey t0 _ _ Hrep0 Hlock0 key)
        as (kl & vl & Hkl & Hvl & _).
      pose proof Hkl as Hnil. apply lookup_replicate in Hnil as [-> _].
      rewrite (TableFacts.Get_represented TKey_eqb sizeof_TKey t0 _ _ Hrep0 Hlock0 key [] vl Hkl Hvl)
        in Hg.
      discriminate.
  - destruct (TableFacts.Set_all_represented TKey_eqb sizeof_TKey calls t0 _ _ Hrep0 Hlock0)
      as (t & Hall & Hrep & Hlock & _).
    eexists t, _, _. split; [exact Hall|]. split; [exact Hrep|].
    intros key.
    destruct (Hget t _ _ key Hrep Hlock) as [(kl & Hkl & Hnone & Hg & Hh)|(v & Hg & Hh)].
    + split; [intros _; split; assumption|]. right. split; assumption.
    + split; [|left; split; [exact Hh|exists v; exact Hg]].
      intros Hno. exfalso.
      destruct (TableFacts.bucket_chains sizeof_TKey t _ _ Hrep Hlock key)
        as (kl & vl & Hkl & Hvl & _).
      rewrite (TableFacts.Get_represented TKey_eqb sizeof_TKey t _ _ Hrep Hlock key kl vl Hkl Hvl)
        in Hg.
      assert (Hnone : Chain.first_index (fun k => TKey_eqb k (HashTable.object key)) kl = None).
      { apply ChainFacts.first_index_None. intros k Hk. exact (Hno _ _ _ Hkl Hk). }
      rewrite Hnone in Hg. discriminate.
Qed.

Lemma C7_key_not_found_witness :
  HashTable.Get Z.eqb 8 (HashTable.Ref 1000 11) (@HashTable.create_default Z Z)
  = Throws HashTable.key_not_found HashTable.create_default
  /\ HashTable.Has Z.eqb 8 (HashTable.Ref 1000 11) (@HashTable.create_default Z Z)
     = Returns false HashTable.create_default.
Proof.
  exact (proj1 (C7_key_not_found Z Z Z.eqb 8 HashTable.create_default []
                  (or_introl eq_refl) eq_refl) (HashTable.Ref 1000 11)).
Defined.

(** C1.  The code on the default table: after [Set(11, 1)] and
    [Set(22, 2)], with the key 11 passed from address 1000, [Get(11)]
    with the key passed from address 1008 (another variable that holds
    11) does not return 1, the value last set for 11: it fails with
    key-not-found.  [Set] and [Get] compare the keys of a chain by value,
    but take the bucket from the address of their argument: here bucket
    26 for address 1000 and bucket 31 for address 1008.  From address
    1000 [Get(11)] returns 1. *)
Theorem C1_Get_from_another_address :
  result
    ((_ <- Table.Set_all Z.eqb 8 [(HashTable.Ref 1000 11, 1); (HashTable.Ref 2000 22, 2)];;
      HashTable.Get Z.eqb 8 (HashTable.Ref 1008 11))
       (@HashTable.create_default Z Z))
  = Throws HashTable.key_not_found tt
  /\ result
       ((_ <- Table.Set_all Z.eqb 8 [(HashTable.Ref 1000 11, 1); (HashTable.Ref 2000 22, 2)];;
         HashTable.Get Z.eqb 8 (HashTable.Ref 1000 11))
          (@HashTable.create_default Z Z))
     = Returns 1 tt
  /\ Table.bucket_of 8 (@HashTable.create_default Z Z) (HashTable.Ref 1000 11) = 26%nat
  /\ Table.bucket_of 8 (@HashTable.create_default Z Z) (HashTable.Ref 1008 11) = 31%nat.
Proof. repeat split; vm_compute; reflexivity. Qed.

(** What the lookup by value achieves where the bucket is the same: for
    two distinct keys [k1] and [k2], each passed from one memory location
    in every call, after any sequence of [Set] calls on a constructed
    table [Get(k1)] returns the value most recently set for [k1] and
    [Get(k2)] the value most recently set for [k2], whatever the order of
    the calls and whether or not the two keys fall into the same bucket. *)
Lemma Get_returns_the_last_value_set_from_one_address (TKey TValue : Type)
    (TKey_eqb : TKey -> TKey -> bool)
    (sizeof_TKey : Z) (t0 : HashTable.HashTable TKey TValue)
    (calls : list (HashTable.reference TKey * TValue))
    (key1 key2 : HashTable.reference TKey) (v1 v2 : TValue) :
  (forall x y : TKey, TKey_eqb x y = true <-> x = y) ->
  Table.constructed t0 -> 0 < HashTable.Capacity t0 ->
  HashTable.object key1 <> HashTable.object key2 ->
  (forall call, call ∈ calls ->
     HashTable.object (fst call) = HashTable.object key1 ->
     HashTable.address (fst call) = HashTable.address key1) ->
  (forall call, call ∈ calls ->
     HashTable.object (fst call) = HashTable.object key2 ->
     HashTable.address (fst call) = HashTable.address key2) ->
  Table.last_set TKey_eqb (HashTable.object key1) calls = Some v1 ->
  Table.last_set TKey_eqb (HashTable.object key2) calls = Some v2 ->
  exists t,
    Table.Set_all TKey_eqb sizeof_TKey calls t0 = Returns tt t
    /\ HashTable.Get TKey_eqb sizeof_TKey key1 t = Returns v1 t
    /\ HashTable.Get TKey_eqb sizeof_TKey key2 t = Returns v2 t.
Proof.
  intros Heq Hconstructed Hcapacity _ Hhome1 Hhome2 Hlast1 Hlast2.
  destruct (TableFacts.reached TKey_eqb sizeof_TKey Heq t0 calls Hconstructed Hcapacity)
    as (t & _ & _ & Hall & _).
  exists t. split; [exact Hall|].
  rewrite !(TableFacts.Get_reached TKey_eqb sizeof_TKey Heq t0 calls Hconstructed Hcapacity t _ Hall).
  rewrite !(TableFacts.last_value_last_set TKey_eqb sizeof_TKey Heq t0 calls).
  - rewrite Hlast1, Hlast2. split; reflexivity.
  - intros call Hin Hobj. apply TableFacts.bucket_of_address. exact (Hhome2 call Hin Hobj).
  - intros call Hin Hobj. apply TableFacts.bucket_of_address. exact (Hhome1 call Hin Hobj).
Qed.

(** The keys 11 (at address 1000) and 22 (at address 1232) fall into the
    same bucket of the default table. *)
Example colliding_keys :
  Table.bucket_of 8 (@HashTable.create_default Z Z) (HashTable.Ref 1000 11) = 26%nat
  /\ Table.bucket_of 8 (@HashTable.create_default Z Z) (HashTable.Ref 1232 22) = 26%nat.
Proof. split; vm_compute; reflexivity. Qed.

Lemma home_of_three_calls (a1 a2 k1 k2 v1 v2 v3 a k : Z)
    (call : HashTable.reference Z * Z) :
  k1 <> k2 ->
  call ∈ [(HashTable.Ref a1 k1, v1); (HashTable.Ref a2 k2, v2); (HashTable.Ref a1 k1, v3)] ->
  (k = k1 /\ a = a1) \/ (k = k2 /\ a = a2) ->
  HashTable.object (fst call) = k -> HashTable.address (fst call) = a.
Proof.
  intros Hne Hin Hka Hobj.
  repeat (apply elem_of_cons in Hin as [->|Hin]); cbn [fst HashTable.object HashTable.address] in *;
    try (inversion Hin; fail); destruct Hka as [[-> ->]|[-> ->]]; congruence.
Qed.

Example Get_of_two_colliding_keys :
  exists t,
    Table.Set_all Z.eqb 8
      [(HashTable.Ref 1000 11, 1); (HashTable.Ref 1232 22, 2); (HashTable.Ref 1000 11, 3)]
      (@HashTable.create_default Z Z) = Returns tt t
    /\ HashTable.Get Z.eqb 8 (HashTable.Ref 1000 11) t = Returns 3 t
    /\ HashTable.Get Z.eqb 8 (HashTable.Ref 1232 22) t = Returns 2 t.
Proof.
  apply (Get_returns_the_last_value_set_from_one_address Z Z Z.eqb 8
           HashTable.create_default
           [(HashTable.Ref 1000 11, 1); (HashTable.Ref 1232 22, 2); (HashTable.Ref 1000 11, 3)]
           (HashTable.Ref 1000 11) (HashTable.Ref 1232 22) 3 2
           Z.eqb_eq (or_introl eq_refl) eq_refl).
  - discriminate.
  - intros call Hin.
    apply (home_of_three_calls 1000 1232 11 22 1 2 3 1000 11 call); [discriminate|exact Hin|].
    left. split; reflexivity.
  - intros call Hin.
    apply (home_of_three_calls 1000 1232 11 22 1 2 3 1232 22 call); [discriminate|exact Hin|].
    right. split; reflexivity.
  - reflexivity.
  - reflexivity.
Defined.

(** C2.  The code on the default table: [Set(11, 1)] with the key passed
    from address 1000, then [Set(11, 2)] with the same key passed from
    address 1008 (another variable that holds 11).  The second call does
    not overwrite: it takes its bucket from the address of its argument,
    finds no key 11 in that bucket and adds a second entry, raising the
    pair counter from 1 to 2; [Get(11)] from address 1000 still returns
    1. *)
Theorem C2_second_Set_from_another_address :
  result
    ((_ <- HashTable.Set_ Z.eqb 8 (HashTable.Ref 1000 11) 1;;
      t1 <- get_state;;
      _ <- HashTable.Set_ Z.eqb 8 (HashTable.Ref 1008 11) 2;;
      t2 <- get_state;;
      v <- HashTable.Get Z.eqb 8 (HashTable.Ref 1000 11);;
      ret (HashTable.hashedPairCount t1, HashTable.hashedPairCount t2, v))
       (@HashTable.create_default Z Z))
  = Returns (1, 2, 1) tt.
Proof. vm_compute. reflexivity. Qed.

(** What the lookup by value achieves where the bucket is the same: for
    every hash table (reached from a constructed one by [Set] calls), key
    [k] and values [v1], [v2], the key being passed from one memory
    location in every call, [Set(k, v1)] and then [Set(k, v2)] leave
    exactly one entry for [k] in the table, a subsequent [Get(k)] returns
    [v2], and the second [Set] leaves the pair counter unchanged. *)
Lemma Set_overwrites_from_one_address (TKey TValue : Type) (TKey_eqb : TKey -> TKey -> bool)
    (sizeof_TKey : Z) (t0 : HashTable.HashTable TKey TValue)
    (calls : list (HashTable.reference TKey * TValue))
    (key : HashTable.reference TKey) (v1 v2 : TValue) :
  (forall x y : TKey, TKey_eqb x y = true <-> x = y) ->
  Table.constructed t0 -> 0 < HashTable.Capacity t0 ->
  (forall call, call ∈ calls ->
     HashTable.object (fst call) = HashTable.object key ->
     HashTable.address (fst call) = HashTable.address key) ->
  exists t t1 t2 ks vs,
    Table.Set_all TKey_eqb sizeof_TKey calls t0 = Returns tt t
    /\ HashTable.Set_ TKey_eqb sizeof_TKey key v1 t = Returns tt t1
    /\ HashTable.Set_ TKey_eqb sizeof_TKey key v2 t1 = Returns tt t2
    /\ HashTable.hashedPairCount t2 = HashTable.hashedPairCount t1
    /\ HashTable.Get TKey_eqb sizeof_TKey key t2 = Returns v2 t2
    /\ Table.represents t2 ks vs
    /\ exists i j kl,
         ks !! i = Some kl /\ kl !! j = Some (HashTable.object key)
         /\ forall i' j' kl',
              ks !! i' = Some kl' -> kl' !! j' = Some (HashTable.object key) ->
              i' = i /\ j' = j.
Proof.
  intros Heq Hconstructed Hcapacity Hhome.
  set (calls1 := calls ++ [(key, v1)]).
  set (calls2 := calls1 ++ [(key, v2)]).
  destruct (TableFacts.reached TKey_eqb sizeof_TKey Heq t0 calls Hconstructed Hcapacity)
    as (t & _ & _ & Hall & _).
  destruct (TableFacts.reached TKey_eqb sizeof_TKey Heq t0 calls1 Hconstructed Hcapacity)
    as (t1 & ks1 & vs1 & Hall1 & Hrep1 & Hlock1 & Hsame1 & Hlen1 & Hinv1).
  destruct (TableFacts.reached TKey_eqb sizeof_TKey Heq t0 calls2 Hconstructed Hcapacity)
    as (t2 & ks2 & vs2 & Hall2 & Hrep2 & Hlock2 & Hsame2 & Hlen2 & Hinv2).
  assert (Hset1 : HashTable.Set_ TKey_eqb sizeof_TKey key v1 t = Returns tt t1).
  { unfold calls1 in Hall1. rewrite TableFacts.Set_all_app in Hall1.
    rewrite (bind_Returns _ _ _ _ _ Hall) in Hall1. cbn [Table.Set_all fst snd] in Hall1.
    unfold bind, ret in Hall1.
    destruct (HashTable.Set_ TKey_eqb sizeof_TKey key v1 t) as [[] s| | |];
      congruence. }
  assert (Hset2 : HashTable.Set_ TKey_eqb sizeof_TKey key v2 t1 = Returns tt t2).
  { unfold calls2 in Hall2. rewrite TableFacts.Set_all_app in Hall2.
    rewrite (bind_Returns _ _ _ _ _ Hall1) in Hall2. cbn [Table.Set_all fst snd] in Hall2.
    unfold bind, ret in Hall2.
    destruct (HashTable.Set_ TKey_eqb sizeof_TKey key v2 t1) as [[] s| | |];
      congruence. }
  assert (Hhome2 : forall call, call ∈ calls2 ->
            HashTable.object (fst call) = HashTable.object key ->
            Table.bucket_of sizeof_TKey t0 (fst call) = Table.bucket_of sizeof_TKey t0 key).
  { intros call Hin Hobj. apply TableFacts.bucket_of_address.
    unfold calls2, calls1 in Hin.
    apply elem_of_app in Hin as [Hin|Hin]; [apply elem_of_app in Hin as [Hin|Hin]|].
    - exact (Hhome call Hin Hobj).
    - apply list_elem_of_singleton in Hin. subst call. reflexivity.
    - apply list_elem_of_singleton in Hin. subst call. reflexivity. }
  assert (Hlast1 : Table.last_value TKey_eqb sizeof_TKey t0
                     (Table.bucket_of sizeof_TKey t0 key) (HashTable.object key) calls1
                   = Some v1).
  { unfold calls1. rewrite TableFacts.last_value_snoc. cbn [fst snd].
    rewrite Nat.eqb_refl, (TableFacts.TKey_eqb_refl TKey_eqb Heq). reflexivity. }
  assert (Hlast2 : Table.last_value TKey_eqb sizeof_TKey t0
                     (Table.bucket_of sizeof_TKey t0 key) (HashTable.object key) calls2
                   = Some v2).
  { unfold calls2. rewrite TableFacts.last_value_snoc. cbn [fst snd].
    rewrite Nat.eqb_refl, (TableFacts.TKey_eqb_refl TKey_eqb Heq). reflexivity. }
  exists t, t1, t2, ks2, vs2.
  split; [exact Hall|]. split; [exact Hset1|]. split; [exact Hset2|].
  split; [|split; [|split; [exact Hrep2|]]].
  - (* the second call finds the key *)
    destruct (TableFacts.Set_step TKey_eqb sizeof_TKey t1 ks1 vs1 (key, v2) Hrep1 Hlock1)
      as (t2' & Hset2' & _ & _ & _ & Hcount).
    cbn [fst snd] in Hset2', Hcount. rewrite Hset2 in Hset2'. injection Hset2' as <-.
    rewrite Hcount.
    destruct (TableFacts.bucket_chains sizeof_TKey t1 ks1 vs1 Hrep1 Hlock1 key)
      as (kl & vl & Hkl & Hvl & _).
    rewrite (list_lookup_total_correct _ _ _ Hkl).
    rewrite (TableFacts.bucket_of_same_parameters sizeof_TKey t0 t1 key Hsame1) in Hkl, Hvl.
    destruct (Hinv1 _ _ _ Hkl Hvl) as [_ _ _ Hmem].
    destruct (Chain.first_index (fun k => TKey_eqb k (HashTable.object key)) kl) eqn:Hfind;
      [reflexivity|].
    exfalso. apply (TableFacts.first_index_absent TKey_eqb Heq) in Hfind.
    apply Hfind, Hmem. rewrite Hlast1. eauto.
  - rewrite (TableFacts.Get_reached TKey_eqb sizeof_TKey Heq t0 calls2 Hconstructed Hcapacity
               t2 key Hall2).
    rewrite Hlast2. reflexivity.
  - destruct (TableFacts.bucket_chains sizeof_TKey t2 ks2 vs2 Hrep2 Hlock2 key)
      as (kl & vl & Hkl & Hvl & _).
    rewrite (TableFacts.bucket_of_same_parameters sizeof_TKey t0 t2 key Hsame2) in Hkl, Hvl.
    destruct (Hinv2 _ _ _ Hkl Hvl) as [_ Hnd _ Hmem].
    assert (Hin : HashTable.object key ∈ kl) by (apply Hmem; rewrite Hlast2; eauto).
    apply list_elem_of_lookup in Hin as [j Hj].
    exists (Table.bucket_of sizeof_TKey t0 key), j, kl.
    split; [exact Hkl|]. split; [exact Hj|].
    intros i' j' kl' Hkl' Hj'.
    destruct (lookup_lt_is_Some_2 vs2 i') as [vl' Hvl'].
    { destruct Hrep2 as [_ _ _ Hk2 Hv2]. rewrite Hv2, <- Hk2.
      exact (lookup_lt_Some _ _ _ Hkl'). }
    destruct (Hinv2 _ _ _ Hkl' Hvl') as [_ _ _ Hmem'].
    destruct (TableFacts.last_value_is_Some TKey_eqb sizeof_TKey t0 i' (HashTable.object key) calls2
                (proj1 (Hmem' _) (list_elem_of_lookup_2 _ _ _ Hj')))
      as (call & Hcall & Hbucket & Hk).
    apply Heq in Hk.
    assert (Hi' : i' = Table.bucket_of sizeof_TKey t0 key)
      by (rewrite <- Hbucket; apply Hhome2; [exact Hcall|symmetry; exact Hk]).
    clear Hbucket. subst i'. split; [reflexivity|].
    rewrite Hkl in Hkl'. injection Hkl' as <-.
    exact (NoDup_lookup _ _ _ _ Hnd Hj' Hj).
Qed.

Example Set_twice_from_one_address :
  exists t t1 t2,
    Table.Set_all Z.eqb 8 [(HashTable.Ref 1232 22, 5)] (@HashTable.create_default Z Z)
    = Returns tt t
    /\ HashTable.Set_ Z.eqb 8 (HashTable.Ref 1000 11) 1 t = Returns tt t1
    /\ HashTable.Set_ Z.eqb 8 (HashTable.Ref 1000 11) 2 t1 = Returns tt t2
    /\ HashTable.hashedPairCount t2 = HashTable.hashedPairCount t1
    /\ HashTable.Get Z.eqb 8 (HashTable.Ref 1000 11) t2 = Returns 2 t2.
Proof.
  destruct (Set_overwrites_from_one_address Z Z Z.eqb 8 HashTable.create_default
              [(HashTable.Ref 1232 22, 5)] (HashTable.Ref 1000 11) 1 2
              Z.eqb_eq (or_introl eq_refl) eq_refl)
    as (t & t1 & t2 & ks & vs & H1 & H2 & H3 & H4 & H5 & _).
  - intros call Hin Hobj. apply list_elem_of_singleton in Hin. subst call.
    cbn in Hobj. discriminate Hobj.
  - exists t, t1, t2. repeat split; assumption.
Defined.

(** ** [Set] never grows the table *)

Section NoGrowth.
Context {TKey TValue : Type}.
Variable TKey_eqb : TKey -> TKey -> bool.
Variable sizeof_TKey : Z.

Abbreviation HashTable := (HashTable.HashTable TKey TValue).
Abbreviation same_buckets := (same_buckets (TKey := TKey) (TValue := TValue)).
Abbreviation keeps_buckets := (keeps_buckets (TKey := TKey) (TValue := TValue)).

Lemma same_buckets_refl (t : HashTable) : same_buckets t t.
Proof. repeat split. Qed.

Lemma same_buckets_trans (t1 t2 t3 : HashTable) :
  same_buckets t1 t2 -> same_buckets t2 t3 -> same_buckets t1 t3.
Proof.
  intros (A1 & A2 & A3 & A4) (B1 & B2 & B3 & B4). repeat split; congruence.
Qed.

Lemma keeps_ret {A : Type} (a : A) : keeps_buckets (ret a).
Proof. intros t. apply same_buckets_refl. Qed.

Lemma keeps_throw {A : Type} (e : exception) : keeps_buckets (throw (A := A) e).
Proof. intros t. apply same_buckets_refl. Qed.

Lemma keeps_undefined {A : Type} : keeps_buckets (undefined (A := A)).
Proof. intros t. exact I. Qed.

Lemma keeps_get_state : keeps_buckets get_state.
Proof. intros t. apply same_buckets_refl. Qed.

Lemma keeps_bind {A B : Type} (m : M HashTable A) (k : A -> M HashTable B) :
  keeps_buckets m -> (forall a, keeps_buckets (k a)) -> keeps_buckets (bind m k).
Proof.
  intros Hm Hk t. unfold bind. specialize (Hm t).
  destruct (m t) as [a t1|e t1| |]; try exact I; [|exact Hm].
  specialize (Hk a t1). destruct (k a t1); try exact I;
    exact (same_buckets_trans _ _ _ Hm Hk).
Qed.

Lemma keeps_ValidateBoundaries {T : Type} (a : list T) (index : Z) :
  keeps_buckets (Array.ValidateBoundaries a index).
Proof.
  unfold Array.ValidateBoundaries.
  destruct (index <? Z.of_nat (length a)); [apply keeps_ret|apply keeps_throw].
Qed.

Lemma keeps_bucket_index (key : HashTable.reference TKey) :
  keeps_buckets (HashTable.bucket_index sizeof_TKey key).
Proof.
  unfold HashTable.bucket_index. apply keeps_bind; [apply keeps_get_state|].
  intros this. destruct (_ =? 0); [apply keeps_undefined|apply keeps_ret].
Qed.

Lemma keeps_keyPocket {A : Type} (index : Z) (m : M (LinkedList.LinkedList TKey) A) :
  keeps_buckets (HashTable.keyPocket index m).
Proof.
  intros t. unfold HashTable.keyPocket.
  destruct (DynamicArray.array (HashTable.keys t) !! Z.to_nat index); [|exact I].
  destruct (m l); try exact I;
    (repeat split; cbn [HashTable.with_keys_array HashTable.keys DynamicArray.array];
     apply length_insert).
Qed.

Lemma keeps_valuePocket {A : Type} (index : Z) (m : M (LinkedList.LinkedList TValue) A) :
  keeps_buckets (HashTable.valuePocket index m).
Proof.
  intros t. unfold HashTable.valuePocket.
  destruct (DynamicArray.array (HashTable.values t) !! Z.to_nat index); [|exact I].
  destruct (m l); try exact I;
    (repeat split; cbn [HashTable.with_values_array HashTable.values DynamicArray.array];
     apply length_insert).
Qed.

Lemma keeps_count (f : HashTable -> Z) :
  keeps_buckets
    (bind get_state (fun this => put_state (HashTable.with_hashedPairCount (f this) this))).
Proof. intros t. repeat split. Qed.

(** Whatever the table, the key and the value, [Set] leaves the number of
    buckets as it was. *)
Lemma Set_keeps_buckets (key : HashTable.reference TKey) (value : TValue) :
  keeps_buckets (HashTable.Set_ TKey_eqb sizeof_TKey key value).
Proof.
  unfold HashTable.Set_.
  apply keeps_bind; [apply keeps_bucket_index|]. intros index.
  apply keeps_bind; [apply keeps_get_state|]. intros this.
  apply keeps_bind; [apply keeps_ValidateBoundaries|]. intros _.
  apply keeps_bind; [apply keeps_ValidateBoundaries|]. intros _.
  apply keeps_bind; [apply keeps_keyPocket|]. intros keyNode.
  destruct (LinkedList.is_null keyNode).
  - apply keeps_bind; [apply keeps_keyPocket|]. intros _.
    apply keeps_bind; [apply keeps_valuePocket|]. intros _.
    apply (keeps_count (fun this => to_long (HashTable.hashedPairCount this + 1))).
  - apply keeps_bind; [apply keeps_keyPocket|]. intros keyNodeIndex.
    apply keeps_valuePocket.
Qed.

End NoGrowth.

(** C4.  No [Set] call grows the table: whatever the occupancy, the call
    leaves both bucket arrays at their length and the capacity at its
    value ([AdapteCapacity] is never called).  A table constructed with
    one bucket and threshold 0.75 (on a machine that provides arrays of
    up to 2^32 chains) holds two pairs after two [Set] calls, still in
    one bucket: an occupancy of 2, above the threshold, with the bucket
    count it started with. *)
Theorem C4_Set_never_grows :
  (forall (TKey TValue : Type) (TKey_eqb : TKey -> TKey -> bool) (sizeof_TKey : Z)
          (key : HashTable.reference TKey) (value : TValue)
          (t : HashTable.HashTable TKey TValue),
      match HashTable.Set_ TKey_eqb sizeof_TKey key value t with
      | Returns _ t' | Throws _ t' =>
          HashTable.Capacity t' = HashTable.Capacity t
          /\ length (DynamicArray.array (HashTable.keys t'))
             = length (DynamicArray.array (HashTable.keys t))
          /\ length (DynamicArray.array (HashTable.values t'))
             = length (DynamicArray.array (HashTable.values t))
      | Undefined | Diverges => True
      end)
  /\ result
       ((t0 <- HashTable.create (TKey := Z) (TValue := Z) (2 ^ 32) 0 (3 # 4) 1
                 Murmur.MurmurHashingAlgorithm 0;;
         fun _ =>
           result
             ((_ <- HashTable.Set_ Z.eqb 8 (HashTable.Ref 1000 11) 1;;
               _ <- HashTable.Set_ Z.eqb 8 (HashTable.Ref 1232 22) 2;;
               t <- get_state;;
               ret (HashTable.Capacity t0, HashTable.Capacity t,
                    length (DynamicArray.array (HashTable.keys t)),
                    HashTable.hashedPairCount t,
                    HashTable.Qlt_bool (HashTable.threshold t)
                      (inject_Z (HashTable.hashedPairCount t)
                       / inject_Z (HashTable.Capacity t)))) t0)) tt)
     = Returns (1, 1, 1%nat, 2, true) tt.
Proof.
  split.
  - intros TKey TValue TKey_eqb sizeof_TKey key value t.
    pose proof (Set_keeps_buckets TKey_eqb sizeof_TKey key value t) as H.
    destruct (HashTable.Set_ TKey_eqb sizeof_TKey key value t); try exact I;
      destruct H as (H1 & _ & H2 & H3); repeat split; assumption.
  - vm_compute. reflexivity.
Qed.

(** ** [Reverse] *)

Lemma backwards_from_the_tail_never_ends (fuel : nat) :
  LinkedList.along fuel false (Some 0%nat) reversed_123 = Diverges
  /\ LinkedList.along fuel false (Some 1%nat) reversed_123 = Diverges.
Proof.
  induction fuel as [|fuel [IH0 IH1]]; [split; reflexivity|].
  split; cbn [LinkedList.along].
  - rewrite (bind_deref 0 {| LinkedList.Data := 1; LinkedList.previous := Some 1%nat;
                             LinkedList.next := None; LinkedList.isConstructed := true |})
      by reflexivity.
    cbn [LinkedList.previous]. unfold bind. rewrite IH1. reflexivity.
  - rewrite (bind_deref 1 {| LinkedList.Data := 2; LinkedList.previous := Some 0%nat;
                             LinkedList.next := Some 0%nat;
                             LinkedList.isConstructed := true |})
      by reflexivity.
    cbn [LinkedList.previous]. unfold bind. rewrite IH0. reflexivity.
Qed.

(** *** [Reverse] on any chain built by [Add] *)

Section ReverseChain.
Context {T : Type}.

Lemma half_reversed_0 (xs : list T) :
  half_reversed xs 0 = LinkedList.store (Chain.chain xs).
Proof. reflexivity. Qed.

Lemma half_reversed_step (xs : list T) (k : nat) (x : T) :
  xs !! k = Some x ->
  <[ k := LinkedList.with_next (before k) (Chain.node_at (length xs) k x) ]>
    (half_reversed xs k)
  = half_reversed xs (S k).
Proof.
  intros Hx. apply list_eq. intros i. unfold half_reversed.
  rewrite list_lookup_imap.
  destruct (Nat.eq_dec i k) as [->|Hne].
  - rewrite list_lookup_insert_eq by (rewrite length_imap; exact (lookup_lt_Some _ _ _ Hx)).
    rewrite Hx. cbn [fmap option_fmap option_map].
    destruct (Nat.ltb_spec k (S k)); [reflexivity|lia].
  - rewrite list_lookup_insert_ne by lia. rewrite list_lookup_imap.
    destruct (xs !! i) as [y|]; [|reflexivity]. cbn [fmap option_fmap option_map].
    destruct (Nat.ltb_spec i k), (Nat.ltb_spec i (S k)); try lia; reflexivity.
Qed.

Lemma Reverse_loop_chain (xs : list T) :
  forall (m k fuel : nat),
    (k + m = length xs)%nat -> (m < fuel)%nat ->
    LinkedList.Reverse_loop fuel (before k) (Chain.position (length xs) k)
      (LinkedList.with_store (half_reversed xs k) (Chain.chain xs))
    = Returns tt (LinkedList.with_store (half_reversed xs (length xs)) (Chain.chain xs)).
Proof.
  induction m as [|m IH]; intros k fuel Hk Hfuel.
  - replace k with (length xs) by lia. rewrite ChainFacts.position_ge by lia.
    destruct fuel; reflexivity.
  - destruct fuel as [|fuel]; [lia|].
    destruct (lookup_lt_is_Some_2 xs k ltac:(lia)) as [x Hx].
    rewrite ChainFacts.position_lt by lia. cbn [LinkedList.Reverse_loop].
    assert (Hnode : LinkedList.store
                      (LinkedList.with_store (half_reversed xs k) (Chain.chain xs)) !! k
                    = Some (Chain.node_at (length xs) k x)).
    { cbn [LinkedList.store LinkedList.with_store]. unfold half_reversed.
      rewrite list_lookup_imap, Hx. cbn [fmap option_fmap option_map].
      destruct (Nat.ltb_spec k k); [lia|reflexivity]. }
    rewrite (bind_deref k _ _ _ Hnode).
    rewrite (bind_update k _ _ _ _ Hnode).
    cbn [LinkedList.store LinkedList.with_store LinkedList.next Chain.node_at].
    rewrite (half_reversed_step xs k x Hx).
    change (Some k) with (before (S k)).
    apply (IH (S k) fuel); lia.
Qed.

Lemma reversed_store (xs : list T) (x : T) (rest : list T) :
  xs = x :: rest ->
  <[ 0%nat := LinkedList.with_previous (Chain.position (length xs) 1)
                (default (Chain.node_at (length xs) 0%nat x)
                   (<[ length rest := LinkedList.with_previous None
                         (default (Chain.node_at (length xs) 0%nat x)
                            (half_reversed xs (length xs) !! length rest)) ]>
                      (half_reversed xs (length xs)) !! 0%nat)) ]>
    (<[ length rest := LinkedList.with_previous None
          (default (Chain.node_at (length xs) 0%nat x)
             (half_reversed xs (length xs) !! length rest)) ]>
       (half_reversed xs (length xs)))
  = imap (reversed_node (length xs)) xs.
Proof.
  intros Hxs.
  assert (Hn : length xs = S (length rest)) by (subst xs; reflexivity).
  assert (Hhalf : forall i, half_reversed xs (length xs) !! i
                            = (fun y => LinkedList.with_next (before i)
                                          (Chain.node_at (length xs) i y)) <$> xs !! i).
  { intros i. unfold half_reversed. rewrite list_lookup_imap.
    destruct (xs !! i) as [y|] eqn:Hy; [|reflexivity].
    cbn [fmap option_fmap option_map].
    pose proof (lookup_lt_Some _ _ _ Hy).
    destruct (Nat.ltb_spec i (length xs)); [reflexivity|lia]. }
  assert (Hlen : length (half_reversed xs (length xs)) = length xs)
    by (unfold half_reversed; apply length_imap).
  apply list_eq. intros i. rewrite list_lookup_imap.
  destruct (lookup_lt_is_Some_2 xs (length rest) ltac:(lia)) as [z Hz].
  destruct (Nat.eq_dec i 0%nat) as [->|Hi0].
  - rewrite list_lookup_insert_eq by (rewrite length_insert; lia).
    assert (H0 : xs !! 0%nat = Some x) by (subst xs; reflexivity).
    rewrite H0. cbn [fmap option_fmap option_map]. f_equal.
    destruct (Nat.eq_dec (length rest) 0%nat) as [Hr|Hr].
    + rewrite Hr. rewrite list_lookup_insert_eq by lia.
      rewrite Hhalf, H0. reflexivity.
    + rewrite list_lookup_insert_ne by lia. rewrite Hhalf, H0. reflexivity.
  - rewrite list_lookup_insert_ne by lia.
    destruct (Nat.eq_dec i (length rest)) as [->|Hir].
    + rewrite list_lookup_insert_eq by lia.
      rewrite Hhalf, Hz. cbn [fmap option_fmap option_map default]. f_equal.
      unfold reversed_node, LinkedList.with_previous, LinkedList.with_next.
      cbn [LinkedList.Data LinkedList.next LinkedList.isConstructed Chain.node_at].
      destruct (Nat.eqb_spec (length rest) 0%nat); [lia|].
      rewrite Hn, Nat.eqb_refl. reflexivity.
    + rewrite list_lookup_insert_ne by lia. rewrite Hhalf.
      destruct (xs !! i) as [y|] eqn:Hy; [|reflexivity].
      cbn [fmap option_fmap option_map]. f_equal.
      pose proof (lookup_lt_Some _ _ _ Hy).
      unfold reversed_node, LinkedList.with_next.
      cbn [LinkedList.Data LinkedList.previous LinkedList.isConstructed Chain.node_at].
      destruct (Nat.eqb_spec i 0%nat); [lia|].
      destruct (Nat.eqb_spec (S i) (length xs)); [lia|].
      destruct i; [lia|reflexivity].
Qed.

(** [Reverse] on a chain built by [Add]: every [next] is turned back;
    [previous] is cleared at the new head and set to the old second node
    at the new tail, and left as it was everywhere else. *)
Lemma Reverse_chain (x : T) (rest : list T) :
  LinkedList.Reverse (Chain.chain (x :: rest)) = Returns tt (reversed (x :: rest)).
Proof.
  set (xs := x :: rest).
  assert (Hn : length xs = S (length rest)) by reflexivity.
  unfold LinkedList.Reverse. rewrite bind_get_state.
  change (LinkedList.count (Chain.chain xs)) with (Z.of_nat (length xs)).
  destruct (Z.eqb_spec (Z.of_nat (length xs)) 0) as [E|_]; [lia|].
  change (LinkedList.head (Chain.chain xs)) with (Chain.position (length xs) 0%nat).
  rewrite (ChainFacts.position_lt (length xs) 0%nat) by lia.
  rewrite (bind_deref 0%nat (Chain.node_at (length xs) 0%nat x)) by reflexivity.
  cbn [LinkedList.next Chain.node_at].
  erewrite bind_Returns.
  2:{ pose proof (Reverse_loop_chain xs (length xs) 0%nat (S (2 * length (LinkedList.store (Chain.chain xs))))) as H.
      rewrite (ChainFacts.position_lt (length xs) 0%nat) in H by lia.
      change (LinkedList.with_store (half_reversed xs 0) (Chain.chain xs))
        with (Chain.chain xs) in H.
      apply H; [lia|]. cbn [Chain.chain LinkedList.store]. rewrite length_imap. lia. }
  rewrite bind_modify, bind_get_state.
  set (state := LinkedList.with_tail _ (LinkedList.with_head _ _)).
  change (LinkedList.head state) with (Some (length rest)).
  change (LinkedList.tail state) with (Some 0%nat).
  destruct (lookup_lt_is_Some_2 (half_reversed xs (length xs)) (length rest)) as [nr Hnr].
  { unfold half_reversed. rewrite length_imap. lia. }
  rewrite (bind_update (length rest) nr) by exact Hnr.
  destruct (lookup_lt_is_Some_2
              (<[ length rest := LinkedList.with_previous None nr ]>
                 (half_reversed xs (length xs))) 0%nat) as [n0 Hn0].
  { rewrite length_insert. unfold half_reversed. rewrite length_imap. lia. }
  unfold LinkedList.update.
  change (LinkedList.store (LinkedList.with_store ?a state)) with a.
  cbn [LinkedList.store LinkedList.with_store].
  change (LinkedList.store state) with (half_reversed xs (length xs)).
  rewrite Hn0.
  f_equal. unfold reversed, LinkedList.with_store.
  cbn [LinkedList.count LinkedList.head LinkedList.tail LinkedList.ImprovableSearch
       LinkedList.store].
  pose proof (reversed_store xs x rest eq_refl) as Hstore.
  rewrite Hnr in Hstore. unfold default in Hstore. cbn [from_option id] in Hstore.
  rewrite Hn0 in Hstore. cbn [from_option id] in Hstore.
  f_equal. exact Hstore.
Qed.

Lemma along_next_reversed (xs : list T) :
  forall (i fuel : nat),
    (i < length xs)%nat -> (i < fuel)%nat ->
    LinkedList.along fuel true (Some i) (reversed xs)
    = Returns (rev (take (S i) xs)) (reversed xs).
Proof.
  induction i as [|i IH]; intros fuel Hi Hfuel;
    (destruct fuel as [|fuel]; [lia|]);
    destruct (lookup_lt_is_Some_2 xs _ Hi) as [y Hy];
    cbn [LinkedList.along];
    (rewrite (bind_deref _ (reversed_node (length xs) _ y))
      by (cbn [reversed LinkedList.store]; rewrite list_lookup_imap, Hy; reflexivity));
    cbn [LinkedList.next reversed_node before].
  - replace (LinkedList.along fuel true None) with (ret (S := LinkedList.LinkedList T) (@nil T))
      by (destruct fuel; reflexivity).
    rewrite bind_ret. unfold ret. f_equal.
    destruct xs as [|x xs']; [discriminate|]. simpl in Hy. injection Hy as ->.
    reflexivity.
  - rewrite (bind_Returns _ _ _ _ _ (IH fuel ltac:(lia) ltac:(lia))).
    unfold ret. f_equal.
    rewrite (take_S_r _ _ _ Hy), rev_app_distr. reflexivity.
Qed.

Lemma along_previous_reversed_cycles (x0 x1 x2 : T) (rest : list T) (fuel : nat) :
  LinkedList.along fuel false (Some 0%nat) (reversed (x0 :: x1 :: x2 :: rest)) = Diverges
  /\ LinkedList.along fuel false (Some 1%nat) (reversed (x0 :: x1 :: x2 :: rest)) = Diverges.
Proof.
  induction fuel as [|fuel [IH0 IH1]]; [split; reflexivity|].
  split; cbn [LinkedList.along].
  - rewrite (bind_deref 0%nat (reversed_node (length (x0 :: x1 :: x2 :: rest)) 0 x0))
      by reflexivity.
    change (LinkedList.previous (reversed_node (length (x0 :: x1 :: x2 :: rest)) 0 x0))
      with (Some 1%nat).
    unfold bind. rewrite IH1. reflexivity.
  - rewrite (bind_deref 1%nat (reversed_node (length (x0 :: x1 :: x2 :: rest)) 1 x1))
      by reflexivity.
    change (LinkedList.previous (reversed_node (length (x0 :: x1 :: x2 :: rest)) 1 x1))
      with (Some 0%nat).
    unfold bind. rewrite IH0. reflexivity.
Qed.

End ReverseChain.

(** C9.  For every non-empty chain (built by [Add] calls), [Reverse]
    returns and reverses the [next] links: from the new head, [next]
    visits the elements in reverse order, [count] of them, and ends at the
    new tail.  The [previous] links are consistent only for chains of one
    or two nodes.  In every chain of three or more nodes (so on 1, 2, 3)
    the second node keeps the old head as its [previous] while the old
    head, now the tail, gets the second node as its [previous]: the walk
    from the tail along [previous] goes round these two nodes and never
    ends. *)
Theorem C9_Reverse_leaves_previous_links :
  (forall (T : Type) (x : T) (rest : list T),
      let xs := x :: rest in
      LinkedList.Reverse (Chain.chain xs) = Returns tt (reversed xs)
      /\ LinkedList.count (reversed xs) = Z.of_nat (length xs)
      /\ LinkedList.along (length xs) true (LinkedList.head (reversed xs)) (reversed xs)
         = Returns (rev xs) (reversed xs))
  /\ (forall (T : Type) (x0 x1 : T),
        LinkedList.along 1 false (LinkedList.tail (reversed [x0])) (reversed [x0])
        = Returns [x0] (reversed [x0])
        /\ LinkedList.along 2 false (LinkedList.tail (reversed [x0; x1])) (reversed [x0; x1])
           = Returns [x0; x1] (reversed [x0; x1]))
  /\ (forall (T : Type) (x0 x1 x2 : T) (rest : list T) (fuel : nat),
        let xs := x0 :: x1 :: x2 :: rest in
        LinkedList.walk 2 false (LinkedList.tail (reversed xs)) (reversed xs)
        = Returns (LinkedList.tail (reversed xs)) (reversed xs)
        /\ LinkedList.along fuel false (LinkedList.tail (reversed xs)) (reversed xs)
           = Diverges)
  /\ (_ <- LinkedList.Add 1;; _ <- LinkedList.Add 2;; LinkedList.Add 3)
       (LinkedList.create false) = Returns tt (Chain.chain [1; 2; 3])
  /\ LinkedList.Reverse (Chain.chain [1; 2; 3]) = Returns tt reversed_123
  /\ LinkedList.along 3 true (LinkedList.head reversed_123) reversed_123
     = Returns [3; 2; 1] reversed_123
  /\ forall fuel,
       LinkedList.along fuel false (LinkedList.tail reversed_123) reversed_123 = Diverges.
Proof.
  split; [|split; [|split]].
  - intros T x rest xs. split; [apply Reverse_chain|]. split; [reflexivity|].
    change (LinkedList.head (reversed xs)) with (Some (length rest)).
    rewrite (along_next_reversed xs (length rest) (length xs)) by (subst xs; simpl; lia).
    rewrite take_ge by (subst xs; simpl; lia). reflexivity.
  - intros T x0 x1. split; reflexivity.
  - intros T x0 x1 x2 rest fuel xs. split; [reflexivity|].
    exact (proj1 (along_previous_reversed_cycles x0 x1 x2 rest fuel)).
  - split; [reflexivity|]. split; [reflexivity|]. split; [reflexivity|].
    intros fuel. exact (proj1 (backwards_from_the_tail_never_ends fuel)).
Qed.

(** * Further properties of the code *)

(** ** Array: searching *)

Section ArraySearchFacts.
Context {T St : Type}.
Implicit Types (this : list T) (predicate : T -> bool) (s : St).

Lemma data_lookup this (i : nat) (x : T) s :
  this !! i = Some x -> Array.data this (Z.of_nat i) s = Returns x s.
Proof.
  intros H. unfold Array.data.
  pose proof (lookup_lt_Some _ _ _ H) as Hlt.
  destruct (Z.leb_spec 0 (Z.of_nat i)); [|lia].
  destruct (Z.ltb_spec (Z.of_nat i) (Z.of_nat (length this))); [|lia].
  cbn [andb]. rewrite Nat2Z.id, H. reflexivity.
Qed.

Lemma data_outside this (i : Z) s :
  i < 0 \/ Z.of_nat (length this) <= i -> Array.data (St := St) this i s = Undefined.
Proof.
  intros H. unfold Array.data.
  destruct (Z.leb_spec 0 i); destruct (Z.ltb_spec i (Z.of_nat (length this)));
    cbn [andb]; try reflexivity; lia.
Qed.

Lemma bound_eq this (end_ : Z) :
  0 <= end_ ->
  Array.bound this end_ = Z.of_nat (length (take (Z.to_nat end_) this)).
Proof.
  intros H. unfold Array.bound. rewrite length_take. lia.
Qed.

Lemma take_length_take this (n : nat) :
  take (length (take n this)) this = take n this.
Proof.
  rewrite length_take.
  destruct (Nat.le_gt_cases n (length this)) as [H|H].
  - rewrite Nat.min_l by exact H. reflexivity.
  - rewrite Nat.min_r by lia. rewrite !take_ge by lia. reflexivity.
Qed.

Lemma indices_from_0 (n : nat) :
  Array.indices_from 0 (Z.of_nat n) = seqZ 0 (Z.of_nat n).
Proof. unfold Array.indices_from. rewrite Z.sub_0_r. reflexivity. Qed.

Lemma drop_lookup_cons this (k : nat) (x : T) :
  this !! k = Some x -> drop k this = x :: drop (S k) this.
Proof. intros H. apply drop_S. exact H. Qed.

Lemma First_loop_seqZ this predicate s :
  forall (n k : nat),
    (k + n <= length this)%nat ->
    Array.First_loop this predicate (seqZ (Z.of_nat k) (Z.of_nat n)) s
    = Returns
        match Chain.first_index predicate (take n (drop k this)) with
        | Some j => Z.of_nat (k + j)
        | None => to_size_t (-1)
        end s.
Proof.
  induction n as [|n IH]; intros k Hk.
  - reflexivity.
  - rewrite seqZ_cons by lia.
    destruct (lookup_lt_is_Some_2 this k ltac:(lia)) as [x Hx].
    cbn [Array.First_loop].
    rewrite (bind_Returns _ _ _ _ _ (data_lookup _ _ _ _ Hx)).
    rewrite (drop_lookup_cons _ _ _ Hx). cbn [take Chain.first_index].
    destruct (predicate x).
    + rewrite Nat.add_0_r. reflexivity.
    + replace (Z.succ (Z.of_nat k)) with (Z.of_nat (S k)) by lia.
      replace (Z.pred (Z.of_nat (S n))) with (Z.of_nat n) by lia.
      rewrite IH by lia.
      destruct (Chain.first_index predicate (take n (drop (S k) this))) as [j|];
        cbn [fmap option_fmap option_map]; [|reflexivity].
      f_equal. lia.
Qed.

Lemma First_to_eq this predicate (end_ : Z) s :
  Array.First_to this predicate end_ s
  = Returns
      match Chain.first_index predicate (take (Z.to_nat end_) this) with
      | Some j => Z.of_nat j
      | None => to_size_t (-1)
      end s.
Proof.
  unfold Array.First_to, Array.indices_from. rewrite Z.sub_0_r.
  destruct (Z.le_gt_cases 0 end_) as [H|H].
  - rewrite bound_eq by exact H.
    rewrite (First_loop_seqZ this predicate s _ 0%nat)
      by (rewrite length_take; lia).
    rewrite drop_0, take_length_take. reflexivity.
  - rewrite seqZ_nil by (unfold Array.bound; lia).
    replace (Z.to_nat end_) with 0%nat by lia. reflexivity.
Qed.

Lemma All_loop_seqZ this predicate s :
  forall (n k : nat),
    (k + n <= length this)%nat ->
    Array.All_loop this predicate (seqZ (Z.of_nat k) (Z.of_nat n)) s
    = Returns (forallb predicate (take n (drop k this))) s.
Proof.
  induction n as [|n IH]; intros k Hk.
  - reflexivity.
  - rewrite seqZ_cons by lia.
    destruct (lookup_lt_is_Some_2 this k ltac:(lia)) as [x Hx].
    cbn [Array.All_loop].
    rewrite (bind_Returns _ _ _ _ _ (data_lookup _ _ _ _ Hx)).
    rewrite (drop_lookup_cons _ _ _ Hx). cbn [take forallb].
    destruct (predicate x); cbn [negb andb]; [|reflexivity].
    replace (Z.succ (Z.of_nat k)) with (Z.of_nat (S k)) by lia.
    replace (Z.pred (Z.of_nat (S n))) with (Z.of_nat n) by lia.
    apply IH. lia.
Qed.

Lemma All_to_eq this predicate (end_ : Z) s :
  Array.All_to this predicate end_ s
  = Returns (forallb predicate (take (Z.to_nat end_) this)) s.
Proof.
  unfold Array.All_to, Array.indices_from. rewrite Z.sub_0_r.
  destruct (Z.le_gt_cases 0 end_) as [H|H].
  - rewrite bound_eq by exact H.
    rewrite (All_loop_seqZ this predicate s _ 0%nat)
      by (rewrite length_take; lia).
    rewrite drop_0, take_length_take. reflexivity.
  - rewrite seqZ_nil by (unfold Array.bound; lia).
    replace (Z.to_nat end_) with 0%nat by lia. reflexivity.
Qed.

Lemma Last_loop_found this predicate s (i : nat) (x : T) :
  this !! i = Some x -> predicate x = true ->
  forall (d fuel : nat),
    (d < fuel)%nat ->
    (i + d < length this)%nat ->
    (forall j y, (i < j <= i + d)%nat -> this !! j = Some y -> predicate y = false) ->
    Z.of_nat (length this) <= SIZE_MAX ->
    Array.Last_loop fuel this predicate (Z.of_nat (i + d)) s = Returns (Z.of_nat i) s.
Proof.
  intros Hx Hp. induction d as [|d IH]; intros fuel Hfuel Hlen Hlater Hmax.
  - destruct fuel as [|fuel]; [lia|]. rewrite Nat.add_0_r. cbn [Array.Last_loop].
    destruct (Z.leb_spec 0 (Z.of_nat i)); [|lia].
    rewrite (bind_Returns _ _ _ _ _ (data_lookup _ _ _ _ Hx)). rewrite Hp. reflexivity.
  - destruct fuel as [|fuel]; [lia|]. cbn [Array.Last_loop].
    destruct (Z.leb_spec 0 (Z.of_nat (i + S d))); [|lia].
    destruct (lookup_lt_is_Some_2 this (i + S d) Hlen) as [y Hy].
    rewrite (bind_Returns _ _ _ _ _ (data_lookup _ _ _ _ Hy)).
    rewrite (Hlater (i + S d)%nat y) by (try exact Hy; lia).
    replace (to_size_t (Z.of_nat (i + S d) - 1)) with (Z.of_nat (i + d))
      by (rewrite to_size_t_id; unfold SIZE_MAX in Hmax; lia).
    apply IH; [lia|lia| |exact Hmax].
    intros j y' Hj. apply Hlater. lia.
Qed.

Lemma Last_loop_none this predicate s :
  Z.of_nat (length this) <= SIZE_MAX ->
  forall (n fuel : nat),
    (n < fuel)%nat ->
    (n <= length this)%nat ->
    (forall j y, (j < n)%nat -> this !! j = Some y -> predicate y = false) ->
    Array.Last_loop fuel this predicate (to_size_t (Z.of_nat n - 1)) s = Undefined.
Proof.
  intros Hmax. induction n as [|n IH]; intros fuel Hfuel Hlen Hnone.
  - destruct fuel as [|fuel]; [lia|]. cbn [Array.Last_loop].
    change (to_size_t (Z.of_nat 0 - 1)) with SIZE_MAX.
    change (0 <=? SIZE_MAX) with true. cbv iota.
    unfold bind. rewrite data_outside by lia. reflexivity.
  - destruct fuel as [|fuel]; [lia|].
    replace (to_size_t (Z.of_nat (S n) - 1)) with (Z.of_nat n)
      by (rewrite to_size_t_id; unfold SIZE_MAX in Hmax; lia).
    cbn [Array.Last_loop].
    destruct (Z.leb_spec 0 (Z.of_nat n)); [|lia].
    destruct (lookup_lt_is_Some_2 this n ltac:(lia)) as [y Hy].
    rewrite (bind_Returns _ _ _ _ _ (data_lookup _ _ _ _ Hy)).
    rewrite (Hnone n y) by (try exact Hy; lia).
    apply IH; [lia|lia|]. intros j y' Hj. apply Hnone. lia.
Qed.

(** The indices below [n] whose element satisfies the predicate. *)
Lemma Every_loop_seqZ this predicate s :
  forall (n k : nat) (found rest : list Z),
    (k + n <= length this)%nat ->
    (n <= length rest)%nat ->
    let matches :=
      Z.of_nat <$>
        List.filter
          (fun i => match this !! i with Some x => predicate x | None => false end)
          (seq k n) in
    Array.Every_loop this predicate (seqZ (Z.of_nat k) (Z.of_nat n))
      (found ++ rest) (Z.of_nat (length found)) s
    = Returns
        (found ++ matches ++ drop (length matches) rest,
         Z.of_nat (length found + length matches)) s.
Proof.
  induction n as [|n IH]; intros k found rest Hk Hrest matches.
  - subst matches. cbn. rewrite drop_0, Nat.add_0_r. reflexivity.
  - rewrite seqZ_cons by lia.
    destruct (lookup_lt_is_Some_2 this k ltac:(lia)) as [x Hx].
    cbn [Array.Every_loop].
    rewrite (bind_Returns _ _ _ _ _ (data_lookup _ _ _ _ Hx)).
    replace (Z.succ (Z.of_nat k)) with (Z.of_nat (S k)) by lia.
    replace (Z.pred (Z.of_nat (S n))) with (Z.of_nat n) by lia.
    subst matches. cbn [seq List.filter]. rewrite Hx.
    destruct (predicate x).
    + destruct rest as [|r rest]; [cbn in Hrest; lia|].
      unfold Array.assign, Array.ValidateBoundaries.
      destruct (Z.ltb_spec (Z.of_nat (length found))
                  (Z.of_nat (length (found ++ r :: rest))));
        [|rewrite length_app in *; cbn [length] in *; lia].
      rewrite bind_assoc, bind_ret, bind_ret.
      rewrite Nat2Z.id.
      replace (<[ length found := Z.of_nat k ]> (found ++ r :: rest))
        with ((found ++ [Z.of_nat k]) ++ rest)
        by (rewrite insert_app_r_alt by lia; rewrite Nat.sub_diag;
            rewrite <- app_assoc; reflexivity).
      replace (Z.of_nat (length found) + 1)
        with (Z.of_nat (length (found ++ [Z.of_nat k])))
        by (rewrite length_app; cbn [length]; lia).
      rewrite IH by (cbn [length] in Hrest; lia).
      cbn [fmap list_fmap length drop].
      rewrite <- !app_assoc. cbn [app].
      rewrite length_app. cbn [length].
      do 2 f_equal. lia.
    + apply IH; lia.
Qed.

Lemma Every_to_eq (fresh_index : Z) this predicate (end_ : Z) s :
  Array.Every_to fresh_index this predicate end_ s
  = Returns
      (Z.of_nat <$>
         List.filter
           (fun i => match this !! i with Some x => predicate x | None => false end)
           (seq 0 (length (take (Z.to_nat end_) this)))) s.
Proof.
  unfold Array.Every_to, Array.indices_from. rewrite Z.sub_0_r.
  destruct (Z.le_gt_cases 0 end_) as [H|H].
  - rewrite bound_eq by exact H. rewrite Nat2Z.id.
    set (n := length (take (Z.to_nat end_) this)).
    pose proof (Every_loop_seqZ this predicate s n 0 [] (Array.create fresh_index n))
      as Hloop.
    cbn [app length] in Hloop.
    rewrite (bind_Returns _ _ _ _ _
               (Hloop ltac:(subst n; rewrite length_take; lia)
                      ltac:(rewrite length_create; lia))).
    cbn [fst snd ret]. rewrite Nat.add_0_l, Nat2Z.id.
    rewrite Resize_eq. rewrite take_app_length.
    rewrite length_app.
    replace (_ - _)%nat with 0%nat by lia.
    cbn [replicate]. rewrite app_nil_r. reflexivity.
  - replace (Z.to_nat end_) with 0%nat by lia.
    rewrite seqZ_nil by (unfold Array.bound; lia).
    replace (Z.to_nat (Array.bound this end_)) with 0%nat
      by (unfold Array.bound; lia).
    reflexivity.
Qed.

End ArraySearchFacts.

Section ArrayReverseFacts.
Context {T : Type}.
Variable fresh : T.

Lemma Reverse_loop_eq (this : list T) (n : nat) :
  (n <= length this)%nat ->
  forall (k : nat) (slots : list T),
    (k <= n)%nat -> (k <= length slots)%nat ->
    fold_left
      (fun reversedArray i =>
         match this !! (n - i - 1)%nat with
         | Some element => <[ i := element ]> reversedArray
         | None => reversedArray
         end)
      (seq 0 k) slots
    = rev (take k (drop (n - k) this)) ++ drop k slots.
Proof.
  intros Hn. induction k as [|k IH]; intros slots Hk Hslots.
  - cbn. rewrite drop_0. reflexivity.
  - rewrite seq_S, fold_left_app, IH by lia. cbn [fold_left Nat.add].
    destruct (lookup_lt_is_Some_2 this (n - k - 1) ltac:(lia)) as [x Hx].
    rewrite Hx.
    replace (n - k)%nat with (S (n - S k)) by lia.
    replace (n - k - 1)%nat with (n - S k)%nat in Hx by lia.
    rewrite (drop_lookup_cons _ _ _ Hx). cbn [take rev].
    rewrite insert_app_r_alt by (rewrite length_rev, length_take, length_drop; lia).
    rewrite length_rev, length_take, length_drop.
    replace (k - Nat.min k (length this - S (n - S k)))%nat with 0%nat by lia.
    destruct (lookup_lt_is_Some_2 slots k ltac:(lia)) as [y Hy].
    rewrite (drop_lookup_cons _ _ _ Hy). cbn [insert list_insert].
    rewrite <- app_assoc. reflexivity.
Qed.

Lemma Reverse_to_eq (this : list T) (end_ : nat) :
  Array.Reverse_to fresh this end_ = rev (take end_ this).
Proof.
  unfold Array.Reverse_to.
  rewrite (Reverse_loop_eq this (Nat.min (length this) end_))
    by (try rewrite length_create; lia).
  rewrite Nat.sub_diag, drop_0.
  rewrite drop_ge by (rewrite length_create; lia).
  rewrite app_nil_r. f_equal.
  destruct (Nat.le_gt_cases end_ (length this)) as [H|H].
  - rewrite Nat.min_r by exact H. reflexivity.
  - rewrite Nat.min_l by lia. rewrite !take_ge by lia. reflexivity.
Qed.

End ArrayReverseFacts.

(** X1.  [First] returns the index of the first element below
    [min(length, end)] that satisfies the predicate, and [size_t(-1)] when
    no element below that bound satisfies it; it reads inside the array
    only. *)
Theorem Array_First_returns_the_first_match (T St : Type) (this : list T)
    (predicate : T -> bool) (end_ : Z) (s : St) :
  exists i,
    Array.First_to this predicate end_ s = Returns i s
    /\ ((0 <= i < Array.bound this end_
         /\ (exists x, this !! Z.to_nat i = Some x /\ predicate x = true)
         /\ forall j y, (j < Z.to_nat i)%nat -> this !! j = Some y -> predicate y = false)
        \/ (i = SIZE_MAX
            /\ forall j y, Z.of_nat j < Array.bound this end_ ->
                 this !! j = Some y -> predicate y = false)).
Proof.
  rewrite First_to_eq.
  destruct (Chain.first_index predicate (take (Z.to_nat end_) this)) as [i|] eqn:Hfirst.
  - exists (Z.of_nat i). split; [reflexivity|]. left.
    pose proof (ChainFacts.first_index_lt _ _ _ Hfirst) as Hlt.
    destruct (ChainFacts.first_index_Some _ _ _ Hfirst) as (x & Hx & Hp & Hearlier).
    rewrite length_take in Hlt. rewrite Nat2Z.id.
    split; [unfold Array.bound; lia|]. split.
    + exists x. split; [|exact Hp]. rewrite lookup_take_lt in Hx by lia. exact Hx.
    + intros j y Hj Hy. apply (Hearlier j y Hj).
      rewrite lookup_take_lt by lia. exact Hy.
  - exists SIZE_MAX. split; [reflexivity|]. right. split; [reflexivity|].
    intros j y Hj Hy.
    apply (proj1 (ChainFacts.first_index_None _ _) Hfirst).
    apply (list_elem_of_lookup_2 _ j).
    rewrite lookup_take_lt by (unfold Array.bound in Hj; lia). exact Hy.
Qed.

Lemma Last_to_spec {T St : Type} (this : list T) (predicate : T -> bool)
    (end_ : Z) (s : St) :
  0 <= end_ ->
  Z.of_nat (length this) <= SIZE_MAX ->
  (forall i x,
      Z.of_nat i < Array.bound this end_ ->
      this !! i = Some x -> predicate x = true ->
      (forall j y, (i < j)%nat -> Z.of_nat j < Array.bound this end_ ->
         this !! j = Some y -> predicate y = false) ->
      Array.Last_to this predicate end_ s = Returns (Z.of_nat i) s)
  /\ ((forall j y, Z.of_nat j < Array.bound this end_ ->
         this !! j = Some y -> predicate y = false) ->
      Array.Last_to this predicate end_ s = Undefined).
Proof.
  intros Hend Hmax.
  assert (Hbound : exists n : nat,
             Array.bound this end_ = Z.of_nat n /\ (n <= length this)%nat).
  { exists (Z.to_nat (Array.bound this end_)). unfold Array.bound. lia. }
  destruct Hbound as (n & Hn & Hle). rewrite Hn. unfold Array.Last_to. rewrite Hn.
  split.
  - intros i x Hi Hx Hp Hlater.
    replace (to_size_t (Z.of_nat n - 1)) with (Z.of_nat (i + (n - 1 - i)))
      by (rewrite to_size_t_id; unfold SIZE_MAX in Hmax; lia).
    apply (Last_loop_found this predicate s i x Hx Hp); [lia|lia| |exact Hmax].
    intros j y Hj. apply Hlater; lia.
  - intros Hnone. apply Last_loop_none; [exact Hmax|lia|exact Hle|].
    intros j y Hj. apply Hnone. lia.
Qed.

(** X2.  [Last] returns the index of the last element below
    [min(length, end)] that satisfies the predicate.  When no element
    below that bound satisfies it (in particular on an empty array) the
    loop, whose [size_t] counter is never negative, passes index zero and
    reads outside the array: the behaviour is undefined, and
    [size_t(-1)] is never returned. *)
Theorem Array_Last_without_a_match_is_undefined (T St : Type) (this : list T)
    (predicate : T -> bool) (end_ : Z) (s : St) :
  0 <= end_ ->
  Z.of_nat (length this) <= SIZE_MAX ->
  (forall i x,
      Z.of_nat i < Array.bound this end_ ->
      this !! i = Some x -> predicate x = true ->
      (forall j y, (i < j)%nat -> Z.of_nat j < Array.bound this end_ ->
         this !! j = Some y -> predicate y = false) ->
      Array.Last_to this predicate end_ s = Returns (Z.of_nat i) s)
  /\ ((forall j y, Z.of_nat j < Array.bound this end_ ->
         this !! j = Some y -> predicate y = false) ->
      Array.Last_to this predicate end_ s = Undefined).
Proof. apply Last_to_spec. Qed.

Lemma Array_Last_without_a_match_is_undefined_witness :
  Array.Last_to (St := unit) [1; 2; 1; 3] (Z.eqb 1) 4 tt = Returns 2 tt
  /\ Array.Last_to (St := unit) [1; 2; 1; 3] (Z.eqb 5) 4 tt = Undefined.
Proof.
  pose proof (Array_Last_without_a_match_is_undefined Z unit [1; 2; 1; 3]) as H.
  split.
  - destruct (H (Z.eqb 1) 4 tt ltac:(lia) ltac:(vm_compute; discriminate)) as [Hfound _].
    apply (Hfound 2%nat 1); [reflexivity|reflexivity|reflexivity|].
    intros j y Hj Hb Hy. unfold Array.bound in Hb. cbn [length] in Hb.
    assert (j = 3%nat) as -> by lia. cbn in Hy. injection Hy as <-. reflexivity.
  - destruct (H (Z.eqb 5) 4 tt ltac:(lia) ltac:(vm_compute; discriminate)) as [_ Hnone].
    apply Hnone. intros j y Hj Hy. unfold Array.bound in Hj. cbn [length] in Hj.
    destruct j as [|[|[|[|j]]]]; cbn in Hy; try lia; injection Hy as <-; reflexivity.
Defined.

(** X3.  [Every] (and [IndicesOf] through it) returns, in ascending order,
    exactly the indices below [min(length, end)] whose element satisfies
    the predicate; nothing of what [new size_t[...]] left in the local
    index array reaches the result. *)
Theorem Array_Every_returns_the_matching_indices (T St : Type) (fresh_index : Z)
    (this : list T) (predicate : T -> bool) (end_ : Z) (s : St) :
  Array.Every_to fresh_index this predicate end_ s
  = Returns
      (Z.of_nat <$>
         List.filter
           (fun i => match this !! i with Some x => predicate x | None => false end)
           (seq 0 (Z.to_nat (Array.bound this end_)))) s.
Proof.
  rewrite Every_to_eq. rewrite length_take.
  replace (Nat.min (Z.to_nat end_) (length this))
    with (Z.to_nat (Array.bound this end_)) by (unfold Array.bound; lia).
  reflexivity.
Qed.

(** X4.  [Any] tells whether some element below [min(length, end)]
    satisfies the predicate, [All] whether each of them does; on an empty
    range [Any] is false and [All] is true. *)
Theorem Array_Any_and_All (T St : Type) (this : list T)
    (predicate : T -> bool) (end_ : Z) (s : St) :
  Z.of_nat (length this) <= SIZE_MAX ->
  Array.Any_to this predicate end_ s
  = Returns (existsb predicate (take (Z.to_nat end_) this)) s
  /\ Array.All_to this predicate end_ s
     = Returns (forallb predicate (take (Z.to_nat end_) this)) s.
Proof.
  intros Hmax. split; [|apply All_to_eq].
  unfold Array.Any_to.
  rewrite (bind_Returns _ _ _ _ _ (First_to_eq this predicate end_ s)).
  unfold ret. f_equal.
  destruct (Chain.first_index predicate (take (Z.to_nat end_) this)) as [i|] eqn:Hfirst.
  - pose proof (ChainFacts.first_index_lt _ _ _ Hfirst) as Hlt.
    destruct (ChainFacts.first_index_Some _ _ _ Hfirst) as (x & Hx & Hp & _).
    rewrite length_take in Hlt.
    change (to_size_t (-1)) with SIZE_MAX.
    destruct (Z.eqb_spec (Z.of_nat i) SIZE_MAX) as [Heq|_]; [lia|].
    cbn [negb]. symmetry. apply existsb_exists. exists x. split; [|exact Hp].
    apply list_elem_of_In. apply (list_elem_of_lookup_2 _ i). exact Hx.
  - change (to_size_t (-1) =? to_size_t (-1)) with true. cbn [negb].
    symmetry. apply not_true_is_false. intros Hex.
    apply existsb_exists in Hex. destruct Hex as (x & Hin & Hp).
    apply list_elem_of_In in Hin.
    rewrite (proj1 (ChainFacts.first_index_None _ _) Hfirst x Hin) in Hp.
    discriminate.
Qed.

Lemma Array_Any_and_All_witness :
  Array.Any_to (St := unit) [1; 2; 3] (Z.eqb 2) 3 tt = Returns true tt
  /\ Array.All_to (St := unit) [1; 2; 3] (Z.eqb 2) 3 tt = Returns false tt.
Proof.
  exact (Array_Any_and_All Z unit [1; 2; 3] (Z.eqb 2) 3 tt
           ltac:(vm_compute; discriminate)).
Defined.

(** X5.  [Reverse] returns the elements in reverse order: up to [end] for
    the overload the derived containers call, all of them for the public
    member, and reversing twice gives the array back. *)
Theorem Array_Reverse_reverses (T : Type) (fresh : T) (this : list T) (end_ : nat) :
  Array.Reverse_to fresh this end_ = rev (take end_ this)
  /\ Array.Reverse fresh this = rev this
  /\ Array.Reverse fresh (Array.Reverse fresh this) = this.
Proof.
  assert (H : forall l : list T, Array.Reverse fresh l = rev l).
  { intros l. unfold Array.Reverse. rewrite Reverse_to_eq, take_ge by lia. reflexivity. }
  split; [apply Reverse_to_eq|]. split; [apply H|].
  rewrite !H. apply rev_involutive.
Qed.

(** X6.  With an [operator==] that decides equality, [FirstIndexOf]
    returns the index of the first occurrence of the element, or
    [size_t(-1)] when it does not occur, and [Contains] is true exactly
    when it occurs. *)
Theorem Array_Contains_iff_member (T St : Type) (T_eqb : T -> T -> bool)
    (this : list T) (element : T) (s : St) :
  (forall x y, T_eqb x y = true <-> x = y) ->
  Z.of_nat (length this) <= SIZE_MAX ->
  exists i b,
    Array.FirstIndexOf T_eqb this element s = Returns i s
    /\ Array.Contains T_eqb this element s = Returns b s
    /\ (b = true <-> element ∈ this)
    /\ (element ∈ this ->
        0 <= i < Z.of_nat (length this)
        /\ this !! Z.to_nat i = Some element
        /\ forall j, (j < Z.to_nat i)%nat -> this !! j <> Some element)
    /\ (element ∉ this -> i = SIZE_MAX).
Proof.
  intros Heqb Hmax.
  unfold Array.Contains, Array.FirstIndexOf, Array.FirstIndexOf_to.
  set (p := fun element_ => T_eqb element_ element).
  rewrite (bind_Returns _ _ _ _ _ (First_to_eq this p _ s)).
  rewrite First_to_eq. rewrite Nat2Z.id, take_ge by lia.
  destruct (Chain.first_index p this) as [i|] eqn:Hfirst.
  - pose proof (ChainFacts.first_index_lt _ _ _ Hfirst) as Hlt.
    destruct (ChainFacts.first_index_Some _ _ _ Hfirst) as (x & Hx & Hp & Hearlier).
    apply Heqb in Hp. subst x.
    exists (Z.of_nat i), true. split; [reflexivity|]. split.
    { unfold ret. f_equal. change (to_size_t (-1)) with SIZE_MAX.
      destruct (Z.eqb_spec (Z.of_nat i) SIZE_MAX); [lia|reflexivity]. }
    assert (Hin : element ∈ this) by (apply (list_elem_of_lookup_2 _ i); exact Hx).
    split; [tauto|]. split.
    + intros _. rewrite Nat2Z.id. split; [lia|]. split; [exact Hx|].
      intros j Hj Hy. specialize (Hearlier j element Hj Hy).
      subst p. cbn in Hearlier.
      rewrite (proj2 (Heqb element element) eq_refl) in Hearlier. discriminate.
    + intros Hnot. contradiction.
  - exists SIZE_MAX, false. split; [reflexivity|]. split; [reflexivity|].
    assert (Hnot : element ∉ this).
    { intros Hin. pose proof (proj1 (ChainFacts.first_index_None _ _) Hfirst _ Hin) as Hp.
      subst p. cbn in Hp. rewrite (proj2 (Heqb element element) eq_refl) in Hp.
      discriminate. }
    split; [split; [discriminate|contradiction]|].
    split; [contradiction|reflexivity].
Qed.

Lemma Array_Contains_iff_member_witness :
  exists i b,
    Array.FirstIndexOf (St := unit) Z.eqb [4; 5; 5] 5 tt = Returns i tt
    /\ Array.Contains (St := unit) Z.eqb [4; 5; 5] 5 tt = Returns b tt
    /\ (b = true <-> 5 ∈ [4; 5; 5])
    /\ (5 ∈ [4; 5; 5] ->
        0 <= i < Z.of_nat (length [4; 5; 5])
        /\ [4; 5; 5] !! Z.to_nat i = Some 5
        /\ forall j, (j < Z.to_nat i)%nat -> [4; 5; 5] !! j <> Some 5)
    /\ (5 ∉ [4; 5; 5] -> i = SIZE_MAX).
Proof.
  apply (Array_Contains_iff_member Z unit Z.eqb [4; 5; 5] 5 tt).
  - intros x y. apply Z.eqb_eq.
  - vm_compute. discriminate.
Defined.

(** ** DynamicArray: adding, inserting and removing *)

Section DynamicFacts.
Context {T : Type}.
Variable fresh : T.
Implicit Types (d : DynamicArray.DynamicArray T) (x : T).

Lemma for_each_app {St A : Type} (l l' : list A) (body : A -> M St unit) (s : St) :
  for_each (l ++ l') body s = bind (for_each l body) (fun _ => for_each l' body) s.
Proof.
  revert s. induction l as [|a l IH]; intros s.
  - reflexivity.
  - cbn [app for_each]. unfold bind.
    destruct (body a s); try reflexivity. rewrite IH. reflexivity.
Qed.

Lemma contents_length d :
  Dynamic.well_formed d ->
  length (Dynamic.contents d) = Z.to_nat (DynamicArray.count d).
Proof.
  intros [Hc Ha Hm Hmax]. unfold Dynamic.contents. rewrite length_take. lia.
Qed.

Lemma contents_lookup d (i : nat) :
  (i < Z.to_nat (DynamicArray.count d))%nat ->
  Dynamic.contents d !! i = DynamicArray.array d !! i.
Proof. intros H. unfold Dynamic.contents. apply lookup_take_lt. exact H. Qed.

Lemma array_at_Returns d (i : nat) x :
  DynamicArray.array d !! i = Some x ->
  DynamicArray.array_at (Z.of_nat i) d = Returns x d.
Proof.
  intros H. pose proof (lookup_lt_Some _ _ _ H) as Hlt.
  unfold DynamicArray.array_at. rewrite bind_get_state.
  unfold Array.at_index, Array.ValidateBoundaries.
  destruct (Z.ltb_spec (Z.of_nat i) (Z.of_nat (length (DynamicArray.array d)))); [|lia].
  rewrite bind_ret, Nat2Z.id, H. reflexivity.
Qed.

Lemma array_assign_Returns d (i : nat) x :
  (i < length (DynamicArray.array d))%nat ->
  DynamicArray.array_assign (Z.of_nat i) x d
  = Returns tt (DynamicArray.with_array (<[ i := x ]> (DynamicArray.array d)) d).
Proof.
  intros Hlt. unfold DynamicArray.array_assign. rewrite bind_get_state.
  unfold Array.assign, Array.ValidateBoundaries.
  destruct (Z.ltb_spec (Z.of_nat i) (Z.of_nat (length (DynamicArray.array d)))); [|lia].
  rewrite bind_assoc, !bind_ret, Nat2Z.id. reflexivity.
Qed.

Lemma ValidateBoundaries_inside d (index : Z) :
  index < DynamicArray.count d ->
  DynamicArray.ValidateBoundaries index d = Returns tt d.
Proof.
  intros H. unfold DynamicArray.ValidateBoundaries. rewrite bind_get_state.
  destruct (Z.ltb_spec index (DynamicArray.count d)); [reflexivity|lia].
Qed.

Lemma ValidateBoundaries_outside d (index : Z) :
  DynamicArray.count d <= index ->
  DynamicArray.ValidateBoundaries index d
  = Throws (out_of_range
              ("The index [" ++ to_string index
                 ++ "] is out of the range of the Dynamic Array.")) d.
Proof.
  intros H. unfold DynamicArray.ValidateBoundaries. rewrite bind_get_state.
  destruct (Z.ltb_spec index (DynamicArray.count d)); [lia|reflexivity].
Qed.

(** [ExpandArray]: room for [k] more elements. *)
Lemma ExpandArray_spec d (k : Z) :
  Dynamic.well_formed d ->
  0 <= k ->
  DynamicArray.count d + k + DynamicArray.capacityModifier d <= SIZE_MAX ->
  exists d',
    DynamicArray.ExpandArray fresh k d = Returns tt d'
    /\ Dynamic.well_formed d'
    /\ DynamicArray.count d' = DynamicArray.count d + k
    /\ DynamicArray.capacityModifier d' = DynamicArray.capacityModifier d
    /\ DynamicArray.capacity d <= DynamicArray.capacity d'
    /\ DynamicArray.array d'
       = DynamicArray.array d
           ++ replicate (Z.to_nat (DynamicArray.capacity d' - DynamicArray.capacity d)) fresh
    /\ (DynamicArray.count d + k <= DynamicArray.capacity d ->
        DynamicArray.capacity d' = DynamicArray.capacity d)
    /\ (DynamicArray.capacity d < DynamicArray.count d + k ->
        DynamicArray.capacity d'
        = ((DynamicArray.count d + k) / DynamicArray.capacityModifier d + 1)
          * DynamicArray.capacityModifier d).
Proof.
  intros [Hc Ha Hm Hmax] Hk Hroom. unfold DynamicArray.ExpandArray.
  rewrite to_size_t_id by (unfold SIZE_MAX in *; lia).
  set (c := DynamicArray.count d + k) in *.
  set (m := DynamicArray.capacityModifier d) in *.
  destruct (Z.ltb_spec (DynamicArray.capacity d) c) as [Hgrow|Hfits].
  - destruct (Z.eqb_spec m 0) as [Hz|_]; [lia|].
    assert (Hup : c < (c / m + 1) * m) by (apply round_up_above; exact Hm).
    assert (Hle : (c / m + 1) * m <= c + m).
    { pose proof (Z.mul_div_le c m Hm). lia. }
    rewrite round_up_exact by (unfold c in *; lia).
    eexists. split; [reflexivity|]. cbn.
    split; [constructor; cbn; try lia; rewrite length_Resize; lia|].
    split; [reflexivity|]. split; [reflexivity|]. split; [lia|].
    split; [|split; [lia|reflexivity]].
    rewrite Resize_eq. rewrite take_ge by lia. do 2 f_equal. lia.
  - eexists. split; [reflexivity|]. cbn.
    split; [constructor; cbn; lia|].
    split; [reflexivity|]. split; [reflexivity|]. split; [lia|].
    split; [|split; [reflexivity|lia]].
    rewrite Z.sub_diag. cbn. rewrite app_nil_r. reflexivity.
Qed.

Lemma Add_spec d x :
  Dynamic.well_formed d ->
  DynamicArray.count d + 1 + DynamicArray.capacityModifier d <= SIZE_MAX ->
  exists d',
    DynamicArray.Add fresh x d = Returns tt d'
    /\ Dynamic.well_formed d'
    /\ Dynamic.contents d' = Dynamic.contents d ++ [x]
    /\ DynamicArray.count d' = DynamicArray.count d + 1
    /\ DynamicArray.capacityModifier d' = DynamicArray.capacityModifier d
    /\ (DynamicArray.count d < DynamicArray.capacity d ->
        DynamicArray.capacity d' = DynamicArray.capacity d)
    /\ (DynamicArray.count d = DynamicArray.capacity d ->
        DynamicArray.capacity d'
        = ((DynamicArray.count d + 1) / DynamicArray.capacityModifier d + 1)
          * DynamicArray.capacityModifier d).
Proof.
  intros Hwf Hroom.
  destruct (ExpandArray_spec d 1 Hwf ltac:(lia) Hroom)
    as (d1 & Hexp & Hwf1 & Hcount & Hmod & Hcap & Harr & Hsame & Hgrow).
  pose proof Hwf as [Hc Ha Hm Hmax]. pose proof Hwf1 as [Hc1 Ha1 Hm1 Hmax1].
  unfold DynamicArray.Add. rewrite (bind_Returns _ _ _ _ _ Hexp).
  rewrite bind_get_state.
  unfold Array.assign, Array.ValidateBoundaries.
  destruct (Z.ltb_spec (DynamicArray.count d1 - 1)
              (Z.of_nat (length (DynamicArray.array d1)))); [|lia].
  rewrite bind_assoc, !bind_ret. unfold put_state.
  eexists. split; [reflexivity|].
  replace (Z.to_nat (DynamicArray.count d1 - 1))
    with (Z.to_nat (DynamicArray.count d)) by lia.
  split; [constructor; cbn; try lia; rewrite length_insert; lia|].
  split.
  { unfold Dynamic.contents. cbn. rewrite Hcount.
    replace (Z.to_nat (DynamicArray.count d + 1))
      with (S (Z.to_nat (DynamicArray.count d))) by lia.
    rewrite (take_S_r _ _ x) by (apply list_lookup_insert_eq; lia).
    rewrite take_insert_ge by lia. rewrite Harr.
    rewrite take_app_le by lia. reflexivity. }
  cbn. split; [exact Hcount|]. split; [exact Hmod|].
  split; [intros; apply Hsame; lia|intros; apply Hgrow; lia].
Qed.












Lemma at_index_inside d (i : nat) x :
  Dynamic.well_formed d ->
  Dynamic.contents d !! i = Some x ->
  DynamicArray.at_index (Z.of_nat i) d = Returns x d.
Proof.
  intros Hwf Hx. pose proof (lookup_lt_Some _ _ _ Hx) as Hlt.
  rewrite (contents_length d Hwf) in Hlt.
  rewrite contents_lookup in Hx by exact Hlt.
  unfold DynamicArray.at_index.
  rewrite (bind_Returns _ _ _ _ _
             (ValidateBoundaries_inside d (Z.of_nat i) ltac:(lia))).
  apply array_at_Returns. exact Hx.
Qed.



End DynamicFacts.

Section DynamicSearchFacts.
Context {T : Type}.
Variable T_eqb : T -> T -> bool.
Hypothesis T_eqb_eq : forall a b : T, T_eqb a b = true <-> a = b.
Implicit Types (d : DynamicArray.DynamicArray T) (x : T).





End DynamicSearchFacts.

Lemma create_default_well_formed {T : Type} (fresh : T) :
  Dynamic.well_formed (DynamicArray.create_default fresh)
  /\ Dynamic.contents (DynamicArray.create_default fresh) = [].
Proof.
  split; [|reflexivity].
  constructor; unfold DynamicArray.create_default;
    cbn [DynamicArray.count DynamicArray.capacity DynamicArray.capacityModifier
         DynamicArray.array].
  - unfold DynamicArray.INITIAL_CAPACITY. lia.
  - rewrite length_create. unfold DynamicArray.INITIAL_CAPACITY. lia.
  - unfold DynamicArray.INITIAL_CAPACITY. lia.
  - unfold DynamicArray.INITIAL_CAPACITY, SIZE_MAX. lia.
Qed.

(** X7.  [Add] appends: on a dynamic array whose array has [capacity]
    slots, the first [count] of them in use, it returns, the elements are
    the old ones followed by the new one, which [operator[]] finds at the
    old [count], and the array stays well formed.  The capacity is
    unchanged while there is a free slot; when the array is full it
    becomes [((count + 1) / capacityModifier + 1) * capacityModifier]. *)
Theorem DynamicArray_Add_appends (T : Type) (fresh : T)
    (d : DynamicArray.DynamicArray T) (x : T) :
  Dynamic.well_formed d ->
  DynamicArray.count d + 1 + DynamicArray.capacityModifier d <= SIZE_MAX ->
  exists d',
    DynamicArray.Add fresh x d = Returns tt d'
    /\ Dynamic.well_formed d'
    /\ Dynamic.contents d' = Dynamic.contents d ++ [x]
    /\ DynamicArray.at_index (DynamicArray.Count d) d' = Returns x d'
    /\ DynamicArray.Count d' = DynamicArray.Count d + 1
    /\ DynamicArray.CapacityModifier d' = DynamicArray.CapacityModifier d
    /\ (DynamicArray.Count d < DynamicArray.Capacity d ->
        DynamicArray.Capacity d' = DynamicArray.Capacity d)
    /\ (DynamicArray.Count d = DynamicArray.Capacity d ->
        DynamicArray.Capacity d'
        = ((DynamicArray.Count d + 1) / DynamicArray.CapacityModifier d + 1)
          * DynamicArray.CapacityModifier d).
Proof.
  intros Hwf Hroom.
  destruct (Add_spec fresh d x Hwf Hroom)
    as (d' & HAdd & Hwf' & Hcont & Hcount & Hmod & Hsame & Hgrow).
  exists d'. split; [exact HAdd|]. split; [exact Hwf'|]. split; [exact Hcont|].
  split; [|split; [exact Hcount|split; [exact Hmod|split; [exact Hsame|exact Hgrow]]]].
  pose proof Hwf as [Hc _ _ _]. unfold DynamicArray.Count.
  replace (DynamicArray.count d) with (Z.of_nat (length (Dynamic.contents d)))
    by (rewrite (contents_length d Hwf); lia).
  apply (at_index_inside d' _ x Hwf').
  rewrite Hcont. apply list_lookup_middle. reflexivity.
Qed.

Lemma DynamicArray_Add_appends_witness :
  exists d',
    DynamicArray.Add 0 7 (DynamicArray.create_default 0) = Returns tt d'
    /\ Dynamic.contents d' = [7]
    /\ DynamicArray.Capacity d' = 200.
Proof.
  destruct (DynamicArray_Add_appends Z 0 (DynamicArray.create_default 0) 7
              (proj1 (create_default_well_formed 0))
              ltac:(vm_compute; discriminate))
    as (d' & HAdd & _ & Hcont & _ & _ & _ & Hsame & _).
  exists d'. split; [exact HAdd|]. split; [exact Hcont|].
  apply Hsame. reflexivity.
Defined.






Lemma assign_inside {T : Type} (d : DynamicArray.DynamicArray T) (i : nat) (x : T) :
  Dynamic.well_formed d ->
  Z.of_nat i < DynamicArray.count d ->
  exists d',
    DynamicArray.assign (Z.of_nat i) x d = Returns tt d'
    /\ Dynamic.well_formed d'
    /\ Dynamic.contents d' = <[ i := x ]> (Dynamic.contents d)
    /\ DynamicArray.count d' = DynamicArray.count d.
Proof.
  intros Hwf Hlt. pose proof Hwf as [Hc Ha Hm Hmax].
  exists (DynamicArray.with_array (<[ i := x ]> (DynamicArray.array d)) d).
  split; [|split; [|split; [|reflexivity]]].
  - unfold DynamicArray.assign.
    rewrite (bind_Returns _ _ _ _ _
               (ValidateBoundaries_inside d (Z.of_nat i) Hlt)).
    apply array_assign_Returns. lia.
  - constructor; cbn [DynamicArray.with_array DynamicArray.count DynamicArray.capacity
                      DynamicArray.capacityModifier DynamicArray.array];
      try assumption.
    rewrite length_insert. exact Ha.
  - unfold Dynamic.contents.
    cbn [DynamicArray.with_array DynamicArray.count DynamicArray.array].
    apply take_insert_lt. lia.
Qed.

(** X10.  [operator[]] of a dynamic array checks the index against the
    number of elements, not against the capacity: below [count] it reads
    and writes the element, and what was written is read back; from
    [count] on it throws the out-of-range exception of the dynamic array,
    also where the slot exists, and the array stays as it is. *)
Theorem DynamicArray_index_is_checked_against_count (T : Type)
    (d : DynamicArray.DynamicArray T) (index : Z) (x : T) :
  Dynamic.well_formed d ->
  0 <= index ->
  (index < DynamicArray.Count d ->
   (exists y,
       Dynamic.contents d !! Z.to_nat index = Some y
       /\ DynamicArray.at_index index d = Returns y d)
   /\ exists d',
       DynamicArray.assign index x d = Returns tt d'
       /\ Dynamic.well_formed d'
       /\ Dynamic.contents d' = <[ Z.to_nat index := x ]> (Dynamic.contents d)
       /\ DynamicArray.at_index index d' = Returns x d')
  /\ (DynamicArray.Count d <= index ->
      DynamicArray.at_index index d
      = Throws (out_of_range
                  ("The index [" ++ to_string index
                     ++ "] is out of the range of the Dynamic Array.")) d
      /\ DynamicArray.assign index x d
         = Throws (out_of_range
                     ("The index [" ++ to_string index
                        ++ "] is out of the range of the Dynamic Array.")) d).
Proof.
  intros Hwf Hindex. unfold DynamicArray.Count. split.
  - intros Hlt. pose proof (contents_length d Hwf) as Hlen.
    assert (exists i : nat, index = Z.of_nat i) as [i ->]
      by (exists (Z.to_nat index); lia).
    rewrite Nat2Z.id. split.
    + destruct (lookup_lt_is_Some_2 (Dynamic.contents d) i ltac:(lia)) as [y Hy].
      exists y. split; [exact Hy|]. apply at_index_inside; assumption.
    + destruct (assign_inside d i x Hwf Hlt) as (d' & Hassign & Hwf' & Hcont & Hcount).
      exists d'. split; [exact Hassign|]. split; [exact Hwf'|]. split; [exact Hcont|].
      apply (at_index_inside d' i x Hwf'). rewrite Hcont.
      apply list_lookup_insert_eq. lia.
  - intros Hge. split.
    + unfold DynamicArray.at_index. apply bind_Throws.
      apply ValidateBoundaries_outside. exact Hge.
    + unfold DynamicArray.assign. apply bind_Throws.
      apply ValidateBoundaries_outside. exact Hge.
Qed.

Lemma DynamicArray_index_is_checked_against_count_witness :
  DynamicArray.Capacity (DynamicArray.create_default 0) = 200
  /\ DynamicArray.at_index 0 (DynamicArray.create_default 0)
     = Throws (out_of_range "The index [0] is out of the range of the Dynamic Array.")
         (DynamicArray.create_default 0).
Proof.
  split; [reflexivity|].
  exact (proj1 (proj2 (DynamicArray_index_is_checked_against_count Z
                         (DynamicArray.create_default 0) 0 7
                         (proj1 (create_default_well_formed 0)) ltac:(lia))
                  ltac:(vm_compute; discriminate))).
Defined.



















(** X17.  [RemoveAll] collects the indices of the occurrences first and
    then calls [RemoveAt] with each of them, in ascending order, while
    every removal moves the later elements one slot down.  With two
    occurrences the second index is therefore one too high: from
    [1; 1; 2] the call removes the first 1 and the 2, returns true and
    leaves [1]; from [1; 2; 1] it removes the first 1 and then throws the
    out-of-range exception for index 2, leaving [2; 1]. *)
Theorem DynamicArray_RemoveAll_of_two_occurrences :
  (exists d d',
      (_ <- DynamicArray.Add 0 1;; _ <- DynamicArray.Add 0 1;; DynamicArray.Add 0 2)
        (DynamicArray.create_default 0) = Returns tt d
      /\ Dynamic.contents d = [1; 1; 2]
      /\ DynamicArray.RemoveAll Z.eqb 0 1 d = Returns true d'
      /\ Dynamic.contents d' = [1])
  /\ (exists d d',
      (_ <- DynamicArray.Add 0 1;; _ <- DynamicArray.Add 0 2;; DynamicArray.Add 0 1)
        (DynamicArray.create_default 0) = Returns tt d
      /\ Dynamic.contents d = [1; 2; 1]
      /\ DynamicArray.RemoveAll Z.eqb 0 1 d
         = Throws (out_of_range "The index [2] is out of the range of the Dynamic Array.") d'
      /\ Dynamic.contents d' = [2; 1]).
Proof.
  split.
  - eexists. eexists. split; [vm_compute; reflexivity|].
    split; [vm_compute; reflexivity|].
    split; vm_compute; reflexivity.
  - eexists. eexists. split; [vm_compute; reflexivity|].
    split; [vm_compute; reflexivity|].
    split; vm_compute; reflexivity.
Qed.
